(** * Port1: the snippet analyser of [script.js]

    A shallow embedding of [analyzeCode], [generateExplanation],
    [generateSuggestion] and [generateDocumentation], together with the
    part of the ECMAScript runtime they rely on: strings as sequences of
    UTF-16 code units, [String.prototype.trim], [split], [join], and the
    backtracking regular-expression matcher of ECMA-262 (continuation
    passing, greedy and lazy quantifiers, capture groups, lookahead,
    line anchors, [exec] with [lastIndex], [matchAll], [test]). *)

From Stdlib Require Import Ascii String.
From Stdlib Require Import List NArith Arith Bool Lia Sorted.
From Stdlib Require DecimalString DecimalNat DecimalFacts.
Import ListNotations.

(** ** Strings *)

(** A JavaScript string is a finite sequence of 16-bit code units. *)
Definition jsstring := list N.

(** Reads a literal written in this file (UTF-8, code points below
    U+0800) as the code units the same literal has in [script.js]. *)
Fixpoint js (s : string) : jsstring :=
  match s with
  | EmptyString => []
  | String a s1 =>
      let b := N_of_ascii a in
      if (b <? 192)%N then b :: js s1
      else match s1 with
           | EmptyString => [b]
           | String a2 s2 =>
               ((b - 192) * 64 + (N_of_ascii a2 - 128))%N :: js s2
           end
  end.

Definition LF : N := 10%N.
Definition CR : N := 13%N.

(** WhiteSpace and LineTerminator code units of ECMA-262; this is the
    set stripped by [trim] and matched by the class escape [\s]. *)
Definition isWhiteSpace (c : N) : bool :=
  ((c =? 9) || (c =? 10) || (c =? 11) || (c =? 12) || (c =? 13)
   || (c =? 32) || (c =? 160) || (c =? 5760)
   || ((8192 <=? c) && (c <=? 8202))
   || (c =? 8232) || (c =? 8233) || (c =? 8239) || (c =? 8287)
   || (c =? 12288) || (c =? 65279))%N.

Definition isLineTerminator (c : N) : bool :=
  ((c =? 10) || (c =? 13) || (c =? 8232) || (c =? 8233))%N.

Fixpoint trimStart (s : jsstring) : jsstring :=
  match s with
  | [] => []
  | c :: s' => if isWhiteSpace c then trimStart s' else s
  end.

Definition trimEnd (s : jsstring) : jsstring := rev (trimStart (rev s)).

(** [s.trim()] *)
Definition trim (s : jsstring) : jsstring := trimEnd (trimStart s).

(** [parts.join(sep)] *)
Fixpoint join (sep : jsstring) (parts : list jsstring) : jsstring :=
  match parts with
  | [] => []
  | [p] => p
  | p :: rest => p ++ sep ++ join sep rest
  end.

(** [s.split(sep)] for a separator of one code unit. *)
Fixpoint splitOn (sep : N) (s : jsstring) : list jsstring :=
  match s with
  | [] => [[]]
  | c :: s' =>
      if (c =? sep)%N then [] :: splitOn sep s'
      else match splitOn sep s' with
           | [] => [[c]]
           | w :: ws => (c :: w) :: ws
           end
  end.

(** Number to string conversion of a non-negative integer, as done by
    a template literal. *)
Definition numberToString (n : nat) : jsstring :=
  js (DecimalString.NilEmpty.string_of_uint (Nat.to_uint n)).

(** ** Outcomes of a call *)

Inductive failure : Type :=
| TypeError       (* a method was called on [undefined] *)
| Diverges.       (* the loop did not stop within its bound *)

Inductive result (A : Type) : Type :=
| Ok (a : A)
| Err (e : failure).

Arguments Ok {A} a.
Arguments Err {A} e.

(** Sequencing: a failure ends the call. *)
Definition bind {A B} (r : result A) (k : A -> result B) : result B :=
  match r with
  | Ok a => k a
  | Err e => Err e
  end.

Notation "x <- r ;; k" := (bind r (fun x => k))
  (at level 61, r at next level, right associativity).

(** ** Regular expressions *)

Inductive ClassAtom : Type :=
| CChar (c : N)            (* a single code unit *)
| CRange (lo hi : N)       (* [lo-hi] *)
| CSpace                   (* \s *)
| CNonSpace.               (* \S *)

Inductive regex : Type :=
| Empty
| Char (c : N)
| Dot
| Class (invert : bool) (atoms : list ClassAtom)
| Seq (r1 r2 : regex)
| Alt (r1 r2 : regex)
| Quant (min : nat) (max : option nat) (greedy : bool) (r : regex)
| Group (n : nat) (r : regex)      (* the n-th capturing parenthesis *)
| Look (r : regex)                 (* (?=r) *)
| NegLook (r : regex)              (* (?!r) *)
| Bol                              (* ^ *)
| Eol.                             (* $ *)

(** Membership of a code unit in a class atom and in a class. *)
Definition atomMatches (a : ClassAtom) (c : N) : bool :=
  match a with
  | CChar d => (c =? d)%N
  | CRange lo hi => ((lo <=? c) && (c <=? hi))%N
  | CSpace => isWhiteSpace c
  | CNonSpace => negb (isWhiteSpace c)
  end.

Definition classMatches (invert : bool) (atoms : list ClassAtom) (c : N) : bool :=
  xorb invert (existsb (fun a => atomMatches a c) atoms).

(** The capturing parentheses that occur in a pattern. *)
Fixpoint parensOf (r : regex) : list nat :=
  match r with
  | Seq r1 r2 | Alt r1 r2 => parensOf r1 ++ parensOf r2
  | Quant _ _ _ r1 | Look r1 | NegLook r1 => parensOf r1
  | Group n r1 => n :: parensOf r1
  | _ => []
  end.

(** *** Matcher state *)

(** The position in the input is kept as the text before it (nearest
    code unit first) and the text after it; [endIndex] is the length of
    the former.  [captures] is indexed by parenthesis number; a missing
    or [None] entry is [undefined]. *)
Record State : Type := mkState {
  before : list N;
  after : list N;
  captures : list (option jsstring)
}.

(** The index of the position in the input. *)
Definition endIndex (x : State) : nat := length (before x).

(** A continuation: the rest of the match; [None] is failure. *)
Definition Cont : Type := State -> option State.

(** The value of the n-th parenthesis, [None] when it took no part. *)
Definition getCap (n : nat) (caps : list (option jsstring)) : option jsstring :=
  nth n caps None.

(** Sets the n-th parenthesis, extending the list when it is shorter. *)
Fixpoint setCap (n : nat) (v : option jsstring) (caps : list (option jsstring))
  : list (option jsstring) :=
  match n, caps with
  | 0, [] => [v]
  | 0, _ :: t => v :: t
  | S n', [] => None :: setCap n' v []
  | S n', h :: t => h :: setCap n' v t
  end.

(** Resets the parentheses of a quantified atom before each iteration. *)
Definition clearCaptures (parens : list nat) (caps : list (option jsstring))
  : list (option jsstring) :=
  fold_right (fun n acc => setCap n None acc) caps parens.

(** RepeatMatcher of ECMA-262 (22.2.2.3.1).  [fuel] bounds the number of
    iterations; [Quant] below supplies [min + remaining input + 1],
    which the iterations cannot exceed because an iteration beyond
    [min] that consumes nothing is rejected ([Quant_bound_enough]). *)
Fixpoint RepeatMatcher (mr : State -> Cont -> option State) (parens : list nat)
    (fuel min : nat) (max : option nat) (greedy : bool) (x : State) (c : Cont)
  : option State :=
  match fuel with
  | 0 => None
  | S fuel' =>
      match max with
      | Some 0 => c x
      | _ =>
          let d : Cont := fun y =>
            if (min =? 0) && (length (after y) =? length (after x)) then None
            else RepeatMatcher mr parens fuel' (pred min) (option_map pred max)
                   greedy y c in
          let xr := mkState (before x) (after x)
                      (clearCaptures parens (captures x)) in
          if min =? 0 then
            if greedy then
              match mr xr d with
              | Some z => Some z
              | None => c x
              end
            else
              match c x with
              | Some z => Some z
              | None => mr xr d
              end
          else mr xr d
      end
  end.

(** The assertions [^] and [$]: [text] is the input before the position
    (nearest code unit first), respectively after it. *)
Definition atLineStart (multiline : bool) (text : list N) : bool :=
  match text with
  | [] => true
  | c :: _ => multiline && isLineTerminator c
  end.

Definition atLineEnd (multiline : bool) (text : list N) : bool :=
  match text with
  | [] => true
  | c :: _ => multiline && isLineTerminator c
  end.

(** CharacterSetMatcher: reads one code unit accepted by [p]. *)
Definition consume (p : N -> bool) (x : State) (c : Cont) : option State :=
  match after x with
  | [] => None
  | ch :: rest =>
      if p ch then c (mkState (ch :: before x) rest (captures x)) else None
  end.

(** The matcher of a pattern: [m multiline r x c] tries [r] at state
    [x] and passes each way of matching it, in priority order, to the
    continuation [c] until one succeeds. *)
Fixpoint m (multiline : bool) (r : regex) (x : State) (c : Cont) {struct r}
  : option State :=
  match r with
  | Empty => c x
  | Char ch => consume (fun d => (d =? ch)%N) x c
  | Dot => consume (fun d => negb (isLineTerminator d)) x c
  | Class invert atoms => consume (classMatches invert atoms) x c
  | Seq r1 r2 => m multiline r1 x (fun y => m multiline r2 y c)
  | Alt r1 r2 =>
      match m multiline r1 x c with
      | Some z => Some z
      | None => m multiline r2 x c
      end
  | Quant min max greedy r1 =>
      RepeatMatcher (m multiline r1) (parensOf r1)
        (min + length (after x) + 1) min max greedy x c
  | Group n r1 =>
      m multiline r1 x (fun y =>
        let s := firstn (length (after x) - length (after y)) (after x) in
        c (mkState (before y) (after y) (setCap n (Some s) (captures y))))
  | Look r1 =>
      match m multiline r1 x (fun y => Some y) with
      | Some y => c (mkState (before x) (after x) (captures y))
      | None => None
      end
  | NegLook r1 =>
      match m multiline r1 x (fun y => Some y) with
      | Some _ => None
      | None => c x
      end
  | Bol => if atLineStart multiline (before x) then c x else None
  | Eol => if atLineEnd multiline (after x) then c x else None
  end.

(** *** Regular expression objects and [exec] *)

Record RegExp : Type := mkRegExp {
  source : regex;
  nCaps : nat;          (* number of capturing parentheses *)
  global : bool;        (* flag g *)
  multiline : bool      (* flag m *)
}.

(** The array returned by [exec]: [matchArray] holds [match[0]],
    [match[1]], ...; [lastIdx] is the end of the match. *)
Record MatchResult : Type := mkMatch {
  index : nat;
  lastIdx : nat;
  matchArray : list (option jsstring)
}.

(** [match[k]]; [None] is [undefined]. *)
Definition item (mr : MatchResult) (k : nat) : option jsstring :=
  nth k (matchArray mr) None.

(** The array built from the final state [y] of a match that started
    between [bef] and [aft]. *)
Definition toMatch (re : RegExp) (bef aft : list N) (y : State) : MatchResult :=
  mkMatch (length bef) (endIndex y)
    (Some (firstn (length aft - length (after y)) aft)
       :: map (fun k => getCap k (captures y)) (seq 1 (nCaps re))).

(** One attempt at the current position (a sticky match). *)
Definition matchAt (re : RegExp) (bef aft : list N) : option MatchResult :=
  match m (multiline re) (source re) (mkState bef aft []) (fun y => Some y) with
  | Some y => Some (toMatch re bef aft y)
  | None => None
  end.

(** The search loop of RegExpBuiltinExec: the first position, from the
    current one on, at which the pattern matches. *)
Fixpoint search (re : RegExp) (bef aft : list N) : option MatchResult :=
  match matchAt re bef aft with
  | Some mr => Some mr
  | None =>
      match aft with
      | [] => None
      | ch :: aft' => search re (ch :: bef) aft'
      end
  end.

(** [re.exec(s)] with [re.lastIndex = lastIndex]; a flag-less pattern is
    searched from the start.  [None] is [null]. *)
Definition exec (re : RegExp) (s : jsstring) (lastIndex : nat) : option MatchResult :=
  let i := if global re then lastIndex else 0 in
  if length s <? i then None
  else search re (rev (firstn i s)) (skipn i s).

(** [re.test(s)] for a pattern without the g flag. *)
Definition test (re : RegExp) (s : jsstring) : bool :=
  match exec re s 0 with
  | Some _ => true
  | None => false
  end.

(** [while ((match = re.exec(s)) !== null) { functions.push(body(match)) }]
    with [re] global: [exec] leaves [lastIndex] at the end of the match,
    also when the match is empty. *)
Fixpoint execWhile {T : Type} (re : RegExp) (s : jsstring)
    (body : MatchResult -> result T)
    (fuel lastIndex : nat) (functions : list T) : result (list T) :=
  match fuel with
  | 0 => Err Diverges
  | S fuel' =>
      match exec re s lastIndex with
      | None => Ok functions
      | Some mr =>
          v <- body mr ;;
          execWhile re s body fuel' (lastIdx mr) (functions ++ [v])
      end
  end.

(** [[...s.matchAll(re)]]: the iterator steps [lastIndex] over an empty
    match. *)
Fixpoint matchAllFrom (re : RegExp) (s : jsstring) (fuel lastIndex : nat)
  : result (list MatchResult) :=
  match fuel with
  | 0 => Err Diverges
  | S fuel' =>
      match exec re s lastIndex with
      | None => Ok []
      | Some mr =>
          let next := if lastIdx mr =? index mr then lastIdx mr + 1 else lastIdx mr in
          rest <- matchAllFrom re s fuel' next ;;
          Ok (mr :: rest)
      end
  end.

(** The iterator starts at [lastIndex = 0]; each step moves [lastIndex]
    forward, so [length s + 2] steps are enough. *)
Definition matchAll (re : RegExp) (s : jsstring) : result (list MatchResult) :=
  matchAllFrom re s (length s + 2) 0.

(** [s.split(re)] for a pattern without capturing parentheses: [p] is
    the end of the last separator, [q] the position being tried. *)
Fixpoint splitLoop (re : RegExp) (s : jsstring) (fuel p q : nat)
    (acc : list jsstring) : result (list jsstring) :=
  match fuel with
  | 0 => Err Diverges
  | S fuel' =>
      if q <? length s then
        match matchAt re (rev (firstn q s)) (skipn q s) with
        | None => splitLoop re s fuel' p (q + 1) acc
        | Some z =>
            let e := Nat.min (lastIdx z) (length s) in
            if e =? p then splitLoop re s fuel' p (q + 1) acc
            else splitLoop re s fuel' e e (acc ++ [firstn (q - p) (skipn p s)])
        end
      else Ok (acc ++ [skipn p s])
  end.

(** The empty text is a case of its own; otherwise no position is tried
    more than twice. *)
Definition split (re : RegExp) (s : jsstring) : result (list jsstring) :=
  match s with
  | [] =>
      match matchAt re [] [] with
      | Some _ => Ok []
      | None => Ok [[]]
      end
  | _ => splitLoop re s (2 * length s + 2) 0 0 []
  end.

(** ** Pattern literals of [script.js]

    Each literal is quoted above its definition; where the source has a
    star directly before a closing parenthesis, a blank separates them
    here. *)

Definition ch (a : ascii) : N := N_of_ascii a.

Definition lit (s : string) : regex :=
  fold_right (fun c r => Seq (Char c) r) Empty (js s).

Definition cat (rs : list regex) : regex := fold_right Seq Empty rs.

Definition star (r : regex) : regex := Quant 0 None true r.        (* r* *)
Definition plus (r : regex) : regex := Quant 1 None true r.        (* r+ *)
Definition opt (r : regex) : regex := Quant 0 (Some 1) true r.     (* r? *)
Definition lazyStar (r : regex) : regex := Quant 0 None false r.   (* r*? *)

Definition ws : regex := Class false [CSpace].                     (* \s *)
Definition identStart : regex :=                                   (* [A-Za-z_] *)
  Class false [CRange (ch "A") (ch "Z"); CRange (ch "a") (ch "z"); CChar (ch "_")].
Definition identChar : regex :=                                    (* [A-Za-z0-9_] *)
  Class false [CRange (ch "A") (ch "Z"); CRange (ch "a") (ch "z");
               CRange (ch "0") (ch "9"); CChar (ch "_")].
Definition ident : regex := Seq identStart (star identChar).
Definition notParen : regex := Class true [CChar (ch ")")].        (* [^)] *)
Definition quote : N := 34%N.

(** Source: /def\s+([A-Za-z_][A-Za-z0-9_]* )\s*\(([^)]* )\)/g *)
Definition pyFuncRegex : RegExp :=
  mkRegExp
    (cat [lit "def"; plus ws; Group 1 ident; star ws; Char (ch "(");
          Group 2 (star notParen); Char (ch ")")])
    2 true false.

(** Source: /function\s+([A-Za-z_][A-Za-z0-9_]* )\s*\(([^)]* )\)/g *)
Definition jsFuncRegex : RegExp :=
  mkRegExp
    (cat [lit "function"; plus ws; Group 1 ident; star ws; Char (ch "(");
          Group 2 (star notParen); Char (ch ")")])
    2 true false.

(** Source: /([A-Za-z_][A-Za-z0-9_]* )\s*=\s*\(([^)]* )\)\s*=>/g *)
Definition arrowFuncRegex : RegExp :=
  mkRegExp
    (cat [Group 1 ident; star ws; Char (ch "="); star ws; Char (ch "(");
          Group 2 (star notParen); Char (ch ")"); star ws; lit "=>"])
    2 true false.

(** Source: /\r?\n/ *)
Definition lineBreakRegex : RegExp :=
  mkRegExp (cat [opt (Char CR); Char LF]) 0 false false.

(** Source: /def\s+[A-Za-z_][A-Za-z0-9_]*\s*\([^)]*\)\s*:\s*(?:\n\s* )+(?!QQQ)/g, each Q an escaped double quote *)
Definition docstringRegex : RegExp :=
  mkRegExp
    (cat [lit "def"; plus ws; ident; star ws; Char (ch "("); star notParen;
          Char (ch ")"); star ws; Char (ch ":"); star ws;
          plus (cat [Char LF; star ws]);
          NegLook (cat [Char quote; Char quote; Char quote])])
    0 true false.

(** Source: /^[ \t]*([A-Za-z_][A-Za-z0-9_]* )\s*=.+$/gm *)
Definition assignRegex : RegExp :=
  mkRegExp
    (cat [Bol; star (Class false [CChar 32%N; CChar 9%N]); Group 1 ident;
          star ws; Char (ch "="); plus Dot; Eol])
    1 true true.

(** Source: /(const|let|var)\s+/ *)
Definition declRegex : RegExp :=
  mkRegExp
    (cat [Group 1 (Alt (lit "const") (Alt (lit "let") (lit "var"))); plus ws])
    1 false false.

(** Source: /def\s+[A-Za-z_][A-Za-z0-9_]*\s*\([^)]*\):\s*([\s\S]*?)\n(?=def |$)/g *)
Definition longFuncRegex : RegExp :=
  mkRegExp
    (cat [lit "def"; plus ws; ident; star ws; Char (ch "("); star notParen;
          Char (ch ")"); Char (ch ":"); star ws;
          Group 1 (lazyStar (Class false [CSpace; CNonSpace]));
          Char LF; Look (Alt (lit "def ") Eol)])
    1 true false.

(** The three literals of [generateDocumentation]. *)
(** Source: /def\s+([A-Za-z_][A-Za-z0-9_]* )\s*\(([^)]* )\)/g *)
Definition pyRegex : RegExp :=
  mkRegExp
    (cat [lit "def"; plus ws; Group 1 ident; star ws; Char (ch "(");
          Group 2 (star notParen); Char (ch ")")])
    2 true false.

(** Source: /function\s+([A-Za-z_][A-Za-z0-9_]* )\s*\(([^)]* )\)/g *)
Definition jsRegex : RegExp :=
  mkRegExp
    (cat [lit "function"; plus ws; Group 1 ident; star ws; Char (ch "(");
          Group 2 (star notParen); Char (ch ")")])
    2 true false.

(** Source: /([A-Za-z_][A-Za-z0-9_]* )\s*=\s*\(([^)]* )\)\s*=>/g *)
Definition arrowRegex : RegExp :=
  mkRegExp
    (cat [Group 1 ident; star ws; Char (ch "="); star ws; Char (ch "(");
          Group 2 (star notParen); Char (ch ")"); star ws; lit "=>"])
    2 true false.

(** ** Values that may be [undefined] *)

(** [v.trim()] where [v] is an element of a match array. *)
Definition trimOf (v : option jsstring) : result jsstring :=
  match v with
  | Some s => Ok (trim s)
  | None => Err TypeError
  end.

(** String conversion of an element of a match array. *)
Definition toString (v : option jsstring) : jsstring :=
  match v with
  | Some s => s
  | None => js "undefined"
  end.

(** Truthiness of a string. *)
Definition truthy (s : jsstring) : bool :=
  match s with
  | [] => false
  | _ => true
  end.

Fixpoint filterR {A : Type} (f : A -> result bool) (l : list A) : result (list A) :=
  match l with
  | [] => Ok []
  | a :: l' =>
      keep <- f a ;;
      rest <- filterR f l' ;;
      Ok (if keep then a :: rest else rest)
  end.

(** ** generateExplanation *)

Record FunctionInfo : Type := mkFunctionInfo {
  language : jsstring;
  name : option jsstring;
  params : jsstring
}.

(** The body of the three [while] loops: the object pushed for a match. *)
Definition pushed (lang : jsstring) (mt : MatchResult) : result FunctionInfo :=
  let name := item mt 1 in
  params <- trimOf (item mt 2) ;;
  Ok (mkFunctionInfo lang name params).

(** The array [functions] after the three loops. *)
Definition explainedFunctions (code : jsstring) : result (list FunctionInfo) :=
  let functions := [] in
  functions <- execWhile pyFuncRegex code (pushed (js "Python"))
                 (S (length code)) 0 functions ;;
  functions <- execWhile jsFuncRegex code (pushed (js "JavaScript"))
                 (S (length code)) 0 functions ;;
  execWhile arrowFuncRegex code (pushed (js "JavaScript"))
    (S (length code)) 0 functions.

Definition genericExplanation (n : nat) : jsstring :=
  js "O código possui " ++ numberToString n
    ++ js " linha(s). Considere adicionar funções" ++ [LF]
    ++ js "para organizar melhor a lógica e facilitar a manutenção.".

Definition explainPart (f : FunctionInfo) : jsstring :=
  let paramsText := if truthy (params f) then params f else js "sem parâmetros" in
  language f ++ js ": função " ++ toString (name f) ++ js "(" ++ paramsText ++ js ")".

Definition generateExplanation (code : jsstring) : result jsstring :=
  functions <- explainedFunctions code ;;
  if length functions =? 0 then
    allLines <- split lineBreakRegex code ;;
    let lines := filter (fun l => truthy (trim l)) allLines in
    Ok (genericExplanation (length lines))
  else
    let parts := map explainPart functions in
    Ok (js "Foram identificada(s) " ++ numberToString (length functions)
          ++ js " função(ões): " ++ join (js "; ") parts ++ js ".").

(** ** generateSuggestion *)

Definition docstringAdvice : jsstring :=
  js "Adicione docstrings às suas funções em Python para explicar o propósito e os parâmetros.".
Definition declarationAdvice : jsstring :=
  js "No JavaScript, declare variáveis usando const ou let para evitar problemas de escopo.".
Definition longFunctionAdvice : jsstring :=
  js "Considere dividir funções muito longas em funções menores para melhorar a legibilidade.".
Definition namingAdvice : jsstring :=
  js "Use nomes de variáveis e funções descritivos e adicione comentários quando necessário.".
Definition errorHandlingAdvice : jsstring :=
  js "Implemente tratamento de erros para tornar o código mais robusto.".

(** The array [pyFuncs]. *)
Definition pyFuncs (code : jsstring) : result (list MatchResult) :=
  matchAll docstringRegex code.

(** The array [undeclaredJS]. *)
Definition undeclaredJS (code : jsstring) : result (list MatchResult) :=
  all <- matchAll assignRegex code ;;
  Ok (filter (fun mt => let line := toString (item mt 0) in
                        negb (test declRegex line)) all).

(** The filter of [longFuncs]: [m[1].split(/\r?\n/).length > 20]. *)
Definition isLong (mt : MatchResult) : result bool :=
  match item mt 1 with
  | None => Err TypeError
  | Some body =>
      lines <- split lineBreakRegex body ;;
      Ok (20 <? length lines)
  end.

(** The array [longFuncs]. *)
Definition longFuncs (code : jsstring) : result (list MatchResult) :=
  all <- matchAll longFuncRegex code ;;
  filterR isLong all.

(** The array [suggestions] before it is joined. *)
Definition suggestionList (code : jsstring) : result (list jsstring) :=
  let suggestions := [] in
  pyFuncs <- pyFuncs code ;;
  let suggestions :=
    if 0 <? length pyFuncs then suggestions ++ [docstringAdvice] else suggestions in
  undeclaredJS <- undeclaredJS code ;;
  let suggestions :=
    if 0 <? length undeclaredJS then suggestions ++ [declarationAdvice]
    else suggestions in
  longFuncs <- longFuncs code ;;
  let suggestions :=
    if 0 <? length longFuncs then suggestions ++ [longFunctionAdvice]
    else suggestions in
  let suggestions :=
    if length suggestions =? 0
    then (suggestions ++ [namingAdvice]) ++ [errorHandlingAdvice]
    else suggestions in
  Ok suggestions.

Definition generateSuggestion (code : jsstring) : result jsstring :=
  suggestions <- suggestionList code ;;
  Ok (join (js " ") suggestions).

(** ** generateDocumentation *)

Record DocFunction : Type := mkDocFunction {
  doc_name : option jsstring;
  doc_params : jsstring
}.

Definition pushedDoc (mt : MatchResult) : result DocFunction :=
  params <- trimOf (item mt 2) ;;
  Ok (mkDocFunction (item mt 1) params).

(** The array [functions] of [generateDocumentation] after its loops. *)
Definition documentedFunctions (code : jsstring) : result (list DocFunction) :=
  let functions := [] in
  functions <- execWhile pyRegex code pushedDoc (S (length code)) 0 functions ;;
  functions <- execWhile jsRegex code pushedDoc (S (length code)) 0 functions ;;
  execWhile arrowRegex code pushedDoc (S (length code)) 0 functions.

Definition paramBullet (param : jsstring) : jsstring :=
  js "- `" ++ param ++ js "`: descrição do parâmetro.".

(** The body of [functions.forEach]: the lines pushed for one function. *)
Definition docStub (fn : DocFunction) (docLines : list jsstring) : list jsstring :=
  let params :=
    if truthy (doc_params fn)
    then map trim (splitOn (ch ",") (doc_params fn)) else [] in
  let docLines := docLines ++ [js "### Função `" ++ toString (doc_name fn) ++ js "()`"] in
  let docLines := docLines ++ [js "**Descrição:** descreva aqui o que a função faz."] in
  let docLines :=
    if (0 <? length params)
       && negb ((length params =? 1) && negb (truthy (nth 0 params [])))
    then
      fold_left (fun acc param => acc ++ [paramBullet param]) params
        (docLines ++ [js "**Parâmetros:**"])
    else docLines ++ [js "**Parâmetros:** Esta função não recebe parâmetros."] in
  let docLines :=
    docLines ++ [js "**Retorno:** descreva aqui o valor retornado pela função."] in
  docLines ++ [[]].

Definition genericDocumentation : list jsstring :=
  [js "# Documentação do Código";
   js "Este trecho de código não contém definições de funções.";
   js "Use seções e comentários para documentar a lógica."].

(** The array [docLines] before it is joined. *)
Definition docLinesOf (code : jsstring) : result (list jsstring) :=
  let docLines := [] in
  functions <- documentedFunctions code ;;
  if length functions =? 0 then Ok (docLines ++ genericDocumentation)
  else Ok (fold_left (fun acc fn => docStub fn acc) functions docLines).

Definition generateDocumentation (code : jsstring) : result jsstring :=
  docLines <- docLinesOf code ;;
  Ok (join [LF] docLines).

(** ** analyzeCode *)

(** The part of the page that [analyzeCode] reads and writes. *)
Record Page : Type := mkPage {
  code_input : jsstring;          (* value of #code-input *)
  original_code : jsstring;       (* textContent of #original-code *)
  explanation : jsstring;         (* textContent of #explanation *)
  suggestion : jsstring;          (* textContent of #suggestion *)
  documentation : jsstring;       (* textContent of #documentation *)
  output_hidden : bool;           (* #output-section has class hidden *)
  alerts : list jsstring          (* messages shown by alert, oldest first *)
}.

Definition emptyInputAlert : jsstring :=
  js "Por favor, insira um trecho de código para analisar.".

Definition analyzeCode (page : Page) : result Page :=
  let code := code_input page in
  if negb (truthy (trim code)) then
    Ok (mkPage (code_input page) (original_code page) (explanation page)
          (suggestion page) (documentation page) (output_hidden page)
          (alerts page ++ [emptyInputAlert]))
  else
    explanation <- generateExplanation code ;;
    suggestion <- generateSuggestion code ;;
    documentation <- generateDocumentation code ;;
    Ok (mkPage (code_input page) code explanation suggestion documentation
          false (alerts page)).

(** * Declarative reading of the matcher *)

(** A position of the input: the text before it, reversed, and the text
    after it. *)
Definition pos : Type := (list N * list N)%type.

(** The position of a matcher state. *)
Definition posOf (x : State) : pos := (before x, after x).

(** One code unit accepted by [p] lies between [a] and [b]. *)
Definition Step (p : N -> bool) (a b : pos) : Prop :=
  exists ch, snd a = ch :: snd b /\ fst b = ch :: fst a /\ p ch = true.

(** Iterations of [R] allowed by the bounds [min] and [max]; beyond
    [min], an iteration has to consume input. *)
Inductive Rep (R : pos -> pos -> Prop) : nat -> option nat -> pos -> pos -> Prop :=
| Rep_stop : forall min max p,
    min = 0 \/ max = Some 0 -> Rep R min max p p
| Rep_step : forall min max p k q,
    max <> Some 0 ->
    R p k ->
    (min = 0 -> length (snd k) <> length (snd p)) ->
    Rep R (pred min) (option_map pred max) k q ->
    Rep R min max p q.

(** [Matches ml r p q]: some way of matching [r] leads from [p] to [q]. *)
Fixpoint Matches (ml : bool) (r : regex) (p q : pos) : Prop :=
  match r with
  | Empty => q = p
  | Char c => Step (fun d => (d =? c)%N) p q
  | Dot => Step (fun d => negb (isLineTerminator d)) p q
  | Class invert atoms => Step (classMatches invert atoms) p q
  | Seq r1 r2 => exists k, Matches ml r1 p k /\ Matches ml r2 k q
  | Alt r1 r2 => Matches ml r1 p q \/ Matches ml r2 p q
  | Quant min max _ r1 => Rep (Matches ml r1) min max p q
  | Group _ r1 => Matches ml r1 p q
  | Look r1 => q = p /\ exists k, Matches ml r1 p k
  | NegLook r1 => q = p /\ ~ exists k, Matches ml r1 p k
  | Bol => q = p /\ atLineStart ml (fst p) = true
  | Eol => q = p /\ atLineEnd ml (snd p) = true
  end.

(** [q] is reached from [p] by moving over [l]. *)
Definition Advance (l : list N) (p q : pos) : Prop :=
  snd p = l ++ snd q /\ fst q = rev l ++ fst p.

(** Parentheses that have a value after every match of the pattern. *)
Fixpoint definite (r : regex) : list nat :=
  match r with
  | Seq r1 r2 => definite r1 ++ definite r2
  | Group n r1 => n :: definite r1
  | Look r1 => definite r1
  | _ => []
  end.

(** The captures outside [P] are the same in [cx] and [cy]. *)
Definition keeps (P : list nat) (cx cy : list (option jsstring)) : Prop :=
  forall n, ~ In n P -> getCap n cy = getCap n cx.

(** The captures in [D] have a value in [cy]. *)
Definition sets (D : list nat) (cy : list (option jsstring)) : Prop :=
  forall n, In n D -> getCap n cy <> None.

(** Whenever [mr] succeeds, the continuation succeeded on a state that
    [R] allows. *)
Definition sound_for (mr : State -> Cont -> option State)
    (R : pos -> pos -> Prop) (P D : list nat) : Prop :=
  forall x c z, mr x c = Some z ->
    exists y, c y = Some z /\ R (posOf x) (posOf y)
              /\ keeps P (captures x) (captures y) /\ sets D (captures y).

(** Whenever [R] allows a position on which the continuation succeeds,
    [mr] succeeds. *)
Definition complete_for (mr : State -> Cont -> option State)
    (R : pos -> pos -> Prop) : Prop :=
  forall x c q, R (posOf x) q ->
    (forall y, posOf y = q -> c y <> None) -> mr x c <> None.

(** * Vocabulary of the statements *)

(** ** Matches of a pattern in a text *)

(** A matcher calls its continuation only on states that are not
    further back in the input. *)
Definition forward (mr : State -> Cont -> option State) : Prop :=
  forall x c c',
    (forall y, length (after y) <= length (after x) -> c y = c' y) ->
    mr x c = mr x c'.

(** The capture numbers of a pattern are distinct and lie within the
    match array. *)
Definition wfRegExp (re : RegExp) : Prop :=
  NoDup (parensOf (source re))
  /\ forall k, In k (parensOf (source re)) -> 1 <= k <= nCaps re.

(** The pattern of [re] has a match that starts between [pre] and [suf]. *)
Definition MatchesAt (re : RegExp) (pre suf : list N) : Prop :=
  exists q, Matches (multiline re) (source re) (rev pre, suf) q.

(** [mr] describes a match of [re] in [s]: the matched text [l] lies
    between [pre] and [rest]. *)
Definition IsMatch (re : RegExp) (s : jsstring) (mr : MatchResult) : Prop :=
  exists pre l rest,
    s = pre ++ l ++ rest
    /\ index mr = length pre
    /\ lastIdx mr = length pre + length l
    /\ item mr 0 = Some l
    /\ Matches (multiline re) (source re) (rev pre, l ++ rest) (rev (pre ++ l), rest)
    /\ forall k, In k (definite (source re)) -> item mr k <> None.

(** [ms] are the successive matches found by a global pattern when the
    search starts at [i]: each is the leftmost match at or after the end
    of the one before. *)
Inductive Scan (re : RegExp) (s : jsstring) : nat -> list MatchResult -> Prop :=
| Scan_nil : forall i,
    (forall pre suf, s = pre ++ suf -> i <= length pre -> ~ MatchesAt re pre suf) ->
    Scan re s i []
| Scan_cons : forall i mr ms,
    i <= index mr ->
    IsMatch re s mr ->
    (forall pre suf, s = pre ++ suf -> i <= length pre < index mr ->
       ~ MatchesAt re pre suf) ->
    Scan re s (lastIdx mr) ms ->
    Scan re s i (mr :: ms).

(** All matches of a pattern, as a loop over [exec] collects them: in
    textual order without overlap, each one a non-empty match, and
    every position at which the pattern matches lies inside one. *)
Definition AllMatches (re : RegExp) (s : jsstring) (ms : list MatchResult) : Prop :=
  StronglySorted (fun a b => lastIdx a <= index b) ms
  /\ (forall mr, In mr ms -> IsMatch re s mr /\ index mr < lastIdx mr)
  /\ (forall pre suf, s = pre ++ suf -> MatchesAt re pre suf ->
        exists mr, In mr ms /\ index mr <= length pre < lastIdx mr).

(** Every match of the pattern consumes input. *)
Definition NonEmpty (re : RegExp) : Prop :=
  forall p q, Matches (multiline re) (source re) p q ->
    length (snd q) < length (snd p).

(** ** Extracted signatures *)

(** The object pushed for a match whose second parenthesis took part. *)
Definition infoOf (lang : jsstring) (mt : MatchResult) : FunctionInfo :=
  mkFunctionInfo lang (item mt 1) (trim (toString (item mt 2))).

(** The object that [generateDocumentation] pushes for the same match. *)
Definition signatureOf (f : FunctionInfo) : DocFunction :=
  mkDocFunction (name f) (params f).

(** ** Lines *)

(** A code unit that is not white space. *)
Definition nonSpace (c : N) : bool := negb (isWhiteSpace c).

(** The trimmed content of a line is not empty. *)
Definition nonBlank (l : jsstring) : bool :=
  match trim l with
  | [] => false
  | _ => true
  end.

(** Puts a code unit in front of the first line. *)
Definition addChar (c : N) (ls : list jsstring) : list jsstring :=
  match ls with
  | [] => [[c]]
  | l :: ls' => (c :: l) :: ls'
  end.

(** Puts a text in front of the first line. *)
Definition prepend (cur : jsstring) (ls : list jsstring) : list jsstring :=
  match ls with
  | [] => [cur]
  | l :: ls' => (cur ++ l) :: ls'
  end.

(** The lines of a text: the pieces between line breaks, a line break
    being a line feed, optionally preceded by a carriage return. *)
Fixpoint linesOf (s : jsstring) : list jsstring :=
  match s with
  | [] => [[]]
  | c :: s' =>
      match s' with
      | [] => if (c =? LF)%N then [[]; []] else [[c]]
      | d :: s'' =>
          if ((c =? CR) && (d =? LF))%N then [] :: linesOf s''
          else if (c =? LF)%N then [] :: linesOf s'
          else addChar c (linesOf s')
      end
  end.

(** ** Advisories *)

(** The advisories that the three checks contribute, in check order. *)
Definition specificAdvice (py und lng : list MatchResult) : list jsstring :=
  (if 0 <? length py then [docstringAdvice] else [])
    ++ (if 0 <? length und then [declarationAdvice] else [])
    ++ (if 0 <? length lng then [longFunctionAdvice] else []).

(** ** Assignment texts *)

(** The keywords named in the pattern of the filter. *)
Definition declarationKeywords : list jsstring :=
  [js "const"; js "let"; js "var"].

(** The text has a declaration keyword directly followed by a white
    space code unit. *)
Definition HasDeclaration (line : jsstring) : Prop :=
  exists pre kw w post,
    line = pre ++ kw ++ w :: post
    /\ In kw declarationKeywords
    /\ isWhiteSpace w = true.

(** [kw] is a prefix of [s]. *)
Fixpoint startsWith (kw s : jsstring) : bool :=
  match kw, s with
  | [], _ => true
  | _ :: _, [] => false
  | k :: kw', c :: s' => (c =? k)%N && startsWith kw' s'
  end.

(** [kw] occurs somewhere in [s]. *)
Fixpoint contains (kw s : jsstring) : bool :=
  startsWith kw s
  || match s with
     | [] => false
     | _ :: s' => contains kw s'
     end.

(** Some declaration keyword occurs somewhere in the text. *)
Definition containsKeyword (line : jsstring) : bool :=
  existsb (fun kw => contains kw line) declarationKeywords.

(** Letters and the underscore. *)
Definition identStartChar (c : N) : bool :=
  (((65 <=? c) && (c <=? 90)) || ((97 <=? c) && (c <=? 122)) || (c =? 95))%N.

(** Letters, digits and the underscore. *)
Definition identPartChar (c : N) : bool :=
  (identStartChar c || ((48 <=? c) && (c <=? 57)))%N.

(** The blank and the tab. *)
Definition blankOrTab (c : N) : bool := ((c =? 32) || (c =? 9))%N.

(** The text of an assignment as the check sees it: indentation by
    blanks and tabs, an identifier, white space (line breaks included),
    an equals sign, and at least one more code unit, none of them a line
    terminator. *)
Definition AssignmentText (l : jsstring) : Prop :=
  exists indent c0 idrest sp body,
    l = indent ++ (c0 :: idrest) ++ sp ++ ch "=" :: body
    /\ Forall (fun c => blankOrTab c = true) indent
    /\ identStartChar c0 = true
    /\ Forall (fun c => identPartChar c = true) idrest
    /\ Forall (fun c => isWhiteSpace c = true) sp
    /\ body <> []
    /\ Forall (fun c => isLineTerminator c = false) body.

(** [pre] ends where a line starts. *)
Definition AtLineStart (pre : jsstring) : Prop :=
  pre = [] \/ exists pre' t, pre = pre' ++ [t] /\ isLineTerminator t = true.

(** [rest] starts where a line ends. *)
Definition AtLineEnd (rest : jsstring) : Prop :=
  rest = [] \/ exists t rest', rest = t :: rest' /\ isLineTerminator t = true.

(** [r] is empty or starts with a code unit that [f] rejects. *)
Definition StartsOff (f : N -> bool) (r : list N) : Prop :=
  match r with
  | [] => True
  | t :: _ => f t = false
  end.

(** ** Inputs of the examples *)

(** A page whose input holds three blanks. *)
Definition blankPage : Page :=
  mkPage (js "   ") [] [] [] [] true [].

(** A page whose input holds a small function. *)
Definition fooPage : Page :=
  mkPage (js "def foo(x):" ++ [LF] ++ js "    pass") [] [] [] [] true [].

(** The input of the worked example. *)
Definition defFooInput : jsstring := js "def foo(x):" ++ [LF] ++ js "    pass".

(** Four lines, two of them blank, with both kinds of line break. *)
Definition threeLineInput : jsstring :=
  js "x = 1" ++ [CR; LF; LF] ++ js "  " ++ [LF] ++ js " y ".

(** A dialect-B function of two parameters. *)
Definition addInput : jsstring := js "function add(a, b) { return a + b; }".

(** An assignment of the string literal that holds the word var. *)
Definition quotedVarInput : jsstring :=
  js "x = " ++ [quote] ++ js "var" ++ [quote].

(** The token that opens a docstring. *)
Definition tripleQuote : jsstring := [quote; quote; quote].

(** A function whose first body line is an indented docstring. *)
Definition documentedFunctionInput : jsstring :=
  js "def f():" ++ [LF]
    ++ js "    " ++ tripleQuote ++ js "Adds one." ++ tripleQuote ++ [LF]
    ++ js "    return 1".

(** A function of twenty-one body lines; the text ends with the last
    line, without a line break after it. *)
Definition unterminatedLongInput : jsstring :=
  js "def f():" ++ concat (repeat ([LF] ++ js "    pass") 21).

(** ** Signatures in the text *)

(** A letter or underscore followed by letters, digits and underscores. *)
Definition IsIdentifier (name : jsstring) : Prop :=
  exists c0 rest,
    name = c0 :: rest
    /\ identStartChar c0 = true
    /\ Forall (fun c => identPartChar c = true) rest.

(** [l] is a keyword, white space, a name, optional white space and a
    parenthesized parameter text. *)
Definition KeywordSignature (kw : string) (name ptext l : jsstring) : Prop :=
  exists ws1 ws2,
    l = js kw ++ ws1 ++ name ++ ws2 ++ ch "(" :: ptext ++ [ch ")"]
    /\ ws1 <> []
    /\ Forall (fun c => isWhiteSpace c = true) ws1
    /\ Forall (fun c => isWhiteSpace c = true) ws2.

(** [l] is a name, an equals sign, a parenthesized parameter text and
    an arrow, with optional white space in between. *)
Definition ArrowSignature (name ptext l : jsstring) : Prop :=
  exists ws1 ws2 ws3,
    l = name ++ ws1 ++ ch "=" :: ws2 ++ ch "(" :: ptext ++ ch ")" :: ws3 ++ js "=>"
    /\ Forall (fun c => isWhiteSpace c = true) ws1
    /\ Forall (fun c => isWhiteSpace c = true) ws2
    /\ Forall (fun c => isWhiteSpace c = true) ws3.

(** The match array of a signature: the whole text, the name and the
    parameter text; [kwd] is the keyword, or [None] for the arrow form. *)
Definition SigMatch (kwd : option string) (mr : MatchResult) : Prop :=
  exists name ptext l,
    item mr 0 = Some l
    /\ item mr 1 = Some name
    /\ item mr 2 = Some ptext
    /\ IsIdentifier name
    /\ Forall (fun c => c <> ch ")") ptext
    /\ match kwd with
       | Some kw => KeywordSignature kw name ptext l
       | None => ArrowSignature name ptext l
       end.

(** The common form of the two keyword patterns. *)
Definition sigPattern (kw : string) : regex :=
  cat [lit kw; plus ws; Group 1 ident; star ws; Char (ch "(");
       Group 2 (star notParen); Char (ch ")")].

(** Where an extracted function comes from: a match of the pattern of
    its pass, somewhere in the text. *)
Definition FoundIn (code : jsstring) (f : FunctionInfo) : Prop :=
  exists mr, f = infoOf (language f) mr
    /\ ((language f = js "Python"
         /\ IsMatch pyFuncRegex code mr /\ SigMatch (Some "def"%string) mr)
        \/ (language f = js "JavaScript"
            /\ IsMatch jsFuncRegex code mr /\ SigMatch (Some "function"%string) mr)
        \/ (language f = js "JavaScript"
            /\ IsMatch arrowFuncRegex code mr /\ SigMatch None mr)).

(** A text without white space at either end. *)
Definition Trimmed (s : jsstring) : Prop :=
  StartsOff isWhiteSpace s /\ StartsOff isWhiteSpace (rev s).

(** ** Successive clicks *)

(** One click on the button while the text area holds [input]. *)
Definition submit (input : jsstring) (page : Page) : result Page :=
  analyzeCode (mkPage input (original_code page) (explanation page)
                 (suggestion page) (documentation page) (output_hidden page)
                 (alerts page)).

(** One click for each of [inputs], in order. *)
Fixpoint session (inputs : list jsstring) (page : Page) : result Page :=
  match inputs with
  | [] => Ok page
  | input :: rest => page' <- submit input page ;; session rest page'
  end.

(** The text is rejected by the gate of [analyzeCode]. *)
Definition isBlank (input : jsstring) : bool := negb (truthy (trim input)).

(** The last text of [inputs] that is not blank. *)
Definition lastAnalysed (inputs : list jsstring) : option jsstring :=
  hd_error (filter (fun i => negb (isBlank i)) (rev inputs)).

(** The output section of [page] is visible and shows the analysis of
    the text [c]. *)
Definition Shows (c : jsstring) (page : Page) : Prop :=
  original_code page = c
  /\ generateExplanation c = Ok (explanation page)
  /\ generateSuggestion c = Ok (suggestion page)
  /\ generateDocumentation c = Ok (documentation page)
  /\ output_hidden page = false.

(** The output section of [page'] is as it was in [page]. *)
Definition SameOutputs (page page' : Page) : Prop :=
  original_code page' = original_code page
  /\ explanation page' = explanation page
  /\ suggestion page' = suggestion page
  /\ documentation page' = documentation page
  /\ output_hidden page' = output_hidden page.

(** ** The passes over the text *)

(** A signature found in the text: where it starts, the text it covers,
    its name and the text between its parentheses. *)
Record Occurrence : Type := mkOccurrence {
  occ_start : nat;
  occ_text : jsstring;
  occ_name : jsstring;
  occ_params : jsstring
}.

Definition occ_end (o : Occurrence) : nat := occ_start o + length (occ_text o).

(** [o] is a signature of the form [sig] that stands in [code] at the
    position [occ_start o]. *)
Definition StandsAt (sig : jsstring -> jsstring -> jsstring -> Prop)
    (code : jsstring) (o : Occurrence) : Prop :=
  exists pre rest,
    code = pre ++ occ_text o ++ rest
    /\ length pre = occ_start o
    /\ IsIdentifier (occ_name o)
    /\ Forall (fun c => c <> ch ")") (occ_params o)
    /\ sig (occ_name o) (occ_params o) (occ_text o).

(** One pass over the text from left to right, from position [i] on:
    the first signature that starts at or after [i], then the pass from
    the end of that signature; the pass ends when no signature starts
    at or after [i]. *)
Inductive Pass (sig : jsstring -> jsstring -> jsstring -> Prop) (code : jsstring)
    : nat -> list Occurrence -> Prop :=
| Pass_done : forall i,
    (forall o, StandsAt sig code o -> i <= occ_start o -> False) ->
    Pass sig code i []
| Pass_next : forall i o os,
    StandsAt sig code o ->
    i <= occ_start o ->
    (forall o', StandsAt sig code o' -> i <= occ_start o' ->
       occ_start o <= occ_start o') ->
    Pass sig code (occ_end o) os ->
    Pass sig code i (o :: os).

(** The form of signature of a pattern: with a keyword, or the arrow
    form. *)
Definition sigOf (kwd : option string) : jsstring -> jsstring -> jsstring -> Prop :=
  match kwd with
  | Some kw => KeywordSignature kw
  | None => ArrowSignature
  end.

(** The occurrence that a match array describes. *)
Definition toOccurrence (mr : MatchResult) : Occurrence :=
  mkOccurrence (index mr) (toString (item mr 0)) (toString (item mr 1))
    (toString (item mr 2)).

(** ** Decimal numerals *)

(** A decimal digit. *)
Definition isDigit (c : N) : bool := ((48 <=? c) && (c <=? 57))%N.

(** The number that a sequence of decimal digits denotes. *)
Definition valueOf (digits : jsstring) : nat :=
  fold_left (fun acc c => 10 * acc + N.to_nat (c - 48)) digits 0.

(** [digits] is the decimal numeral of [n]: at least one digit, only
    digits, the value [n], and no leading zero except for zero itself. *)
Definition DecimalOf (n : nat) (digits : jsstring) : Prop :=
  digits <> []
  /\ Forall (fun c => isDigit c = true) digits
  /\ valueOf digits = n
  /\ (hd 0%N digits = ch "0" -> digits = [ch "0"]).

(** * Theory of the matcher *)

Section MatcherTheory.

Variable ml : bool.

Lemma Advance_refl : forall p, Advance [] p p.
Proof. intros p; split; reflexivity. Qed.

Lemma Advance_trans : forall l1 l2 p k q,
  Advance l1 p k -> Advance l2 k q -> Advance (l1 ++ l2) p q.
Proof.
  intros l1 l2 p k q [H1 H2] [H3 H4]. split.
  - rewrite H1, H3. now rewrite app_assoc.
  - rewrite H4, H2, rev_app_distr. now rewrite app_assoc.
Qed.

Lemma Advance_length : forall l p q,
  Advance l p q -> length (snd p) = length l + length (snd q).
Proof. intros l p q [H _]. rewrite H. apply length_app. Qed.

Lemma Step_Advance : forall f p q,
  Step f p q -> exists ch, f ch = true /\ Advance [ch] p q.
Proof.
  intros f p q (ch & H1 & H2 & H3). exists ch. split; [assumption|].
  split; simpl; assumption.
Qed.

Lemma Rep_Advance : forall (R : pos -> pos -> Prop),
  (forall p q, R p q -> exists l, Advance l p q) ->
  forall min max p q, Rep R min max p q -> exists l, Advance l p q.
Proof.
  intros R HR min max p q H. induction H as [min max p _|min max p k q _ Hpk _ _ IH].
  - exists []. apply Advance_refl.
  - destruct (HR _ _ Hpk) as [l1 H1]. destruct IH as [l2 H2].
    exists (l1 ++ l2). eapply Advance_trans; eassumption.
Qed.

(** A match only moves forward, over a piece of the remaining input. *)
Lemma Matches_Advance : forall r p q,
  Matches ml r p q -> exists l, Advance l p q.
Proof.
  induction r as [|c| |inv atoms|r1 IH1 r2 IH2|r1 IH1 r2 IH2|mn mx g r1 IH1
                  |n r1 IH1|r1 IH1|r1 IH1| |]; simpl; intros p q H.
  - subst q. exists []. apply Advance_refl.
  - apply Step_Advance in H. destruct H as (ch & _ & H). now exists [ch].
  - apply Step_Advance in H. destruct H as (ch & _ & H). now exists [ch].
  - apply Step_Advance in H. destruct H as (ch & _ & H). now exists [ch].
  - destruct H as (k & H1 & H2).
    destruct (IH1 _ _ H1) as [l1 A1]. destruct (IH2 _ _ H2) as [l2 A2].
    exists (l1 ++ l2). eapply Advance_trans; eassumption.
  - destruct H as [H|H]; eauto.
  - eapply Rep_Advance; eauto.
  - eauto.
  - destruct H as [-> _]. exists []. apply Advance_refl.
  - destruct H as [-> _]. exists []. apply Advance_refl.
  - destruct H as [-> _]. exists []. apply Advance_refl.
  - destruct H as [-> _]. exists []. apply Advance_refl.
Qed.

Lemma Matches_length : forall r p q,
  Matches ml r p q -> length (snd q) <= length (snd p).
Proof.
  intros r p q H. destruct (Matches_Advance _ _ _ H) as [l A].
  apply Advance_length in A. lia.
Qed.

(** *** Captures *)

Lemma getCap_setCap_same : forall n v caps, getCap n (setCap n v caps) = v.
Proof.
  unfold getCap. induction n as [|n IH]; intros v [|h t]; simpl; auto.
Qed.

Lemma getCap_setCap_other : forall n k v caps,
  k <> n -> getCap k (setCap n v caps) = getCap k caps.
Proof.
  unfold getCap. induction n as [|n IH]; intros [|k] v [|h t] Hk; simpl; auto;
    try congruence.
  - now destruct k.
  - rewrite IH by congruence. now destruct k.
Qed.

Lemma getCap_clearCaptures : forall P k caps,
  ~ In k P -> getCap k (clearCaptures P caps) = getCap k caps.
Proof.
  induction P as [|n P IH]; simpl; intros k caps Hk; [reflexivity|].
  rewrite getCap_setCap_other by intuition. apply IH. intuition.
Qed.

Lemma keeps_refl : forall P c, keeps P c c.
Proof. intros P c n _. reflexivity. Qed.

Lemma keeps_trans : forall P c1 c2 c3,
  keeps P c1 c2 -> keeps P c2 c3 -> keeps P c1 c3.
Proof. intros P c1 c2 c3 H1 H2 n Hn. rewrite H2, H1; auto. Qed.

Lemma keeps_incl : forall P P' c1 c2,
  incl P P' -> keeps P c1 c2 -> keeps P' c1 c2.
Proof. intros P P' c1 c2 Hi H n Hn. apply H. intro; apply Hn; auto. Qed.

Lemma definite_incl : forall r, incl (definite r) (parensOf r).
Proof.
  induction r as [|c| |inv atoms|r1 IH1 r2 IH2|r1 IH1 r2 IH2|mn mx g r1 IH1
                  |n r1 IH1|r1 IH1|r1 IH1| |]; simpl;
    try apply incl_nil_l; auto.
  - apply incl_app; [apply incl_appl|apply incl_appr]; assumption.
  - intros j [<-|Hj]; [now left|right; auto].
Qed.

(** *** The bounded loop *)

Lemma RepeatMatcher_sound : forall mr R P D,
  sound_for mr R P D ->
  forall fuel min max greedy,
    sound_for (RepeatMatcher mr P fuel min max greedy) (Rep R min max) P [].
Proof.
  intros mr R P D Hmr. induction fuel as [|fuel IH]; intros mn mx g x c z H.
  - discriminate.
  - simpl in H.
    assert (Hstop : c x = Some z ->
      (mn = 0 \/ mx = Some 0) ->
      exists y, c y = Some z /\ Rep R mn mx (posOf x) (posOf y)
                /\ keeps P (captures x) (captures y) /\ sets [] (captures y)).
    { intros Hc Hm. exists x. split; [assumption|]. split; [|split].
      - now apply Rep_stop.
      - apply keeps_refl.
      - intros n []. }
    assert (Hiter : mx <> Some 0 ->
      mr (mkState (before x) (after x) (clearCaptures P (captures x)))
         (fun y => if (mn =? 0) && (length (after y) =? length (after x))
                   then None
                   else RepeatMatcher mr P fuel (pred mn) (option_map pred mx) g y c)
        = Some z ->
      exists y, c y = Some z /\ Rep R mn mx (posOf x) (posOf y)
                /\ keeps P (captures x) (captures y) /\ sets [] (captures y)).
    { intros Hmx Hm. apply Hmr in Hm. destruct Hm as (y1 & Hd & HR & Hk1 & _).
      destruct ((mn =? 0) && (length (after y1) =? length (after x))) eqn:E;
        [discriminate|].
      apply IH in Hd. destruct Hd as (y & Hc & Hrep & Hk2 & _).
      exists y. split; [assumption|]. split; [|split].
      - eapply Rep_step; eauto. intros ->. simpl in E.
        apply Nat.eqb_neq in E. exact E.
      - intros n Hn. rewrite Hk2, Hk1 by assumption. simpl.
        now apply getCap_clearCaptures.
      - intros n []. }
    destruct mx as [[|mx]|].
    + apply Hstop; auto.
    + destruct (mn =? 0) eqn:E0.
      * apply Nat.eqb_eq in E0. destruct g.
        -- match type of H with
           | match ?t with _ => _ end = _ => destruct t eqn:Et
           end.
           ++ inversion H; subst. apply Hiter; [discriminate|assumption].
           ++ apply Hstop; auto.
        -- destruct (c x) eqn:Ec.
           ++ inversion H; subst. apply Hstop; auto.
           ++ apply Hiter; [discriminate|assumption].
      * apply Hiter; [discriminate|assumption].
    + destruct (mn =? 0) eqn:E0.
      * apply Nat.eqb_eq in E0. destruct g.
        -- match type of H with
           | match ?t with _ => _ end = _ => destruct t eqn:Et
           end.
           ++ inversion H; subst. apply Hiter; [discriminate|assumption].
           ++ apply Hstop; auto.
        -- destruct (c x) eqn:Ec.
           ++ inversion H; subst. apply Hstop; auto.
           ++ apply Hiter; [discriminate|assumption].
      * apply Hiter; [discriminate|assumption].
Qed.

Lemma RepeatMatcher_complete : forall mr (R : pos -> pos -> Prop) P,
  complete_for mr R ->
  (forall p q, R p q -> length (snd q) <= length (snd p)) ->
  forall min max p q, Rep R min max p q ->
  forall fuel greedy x c,
    posOf x = p ->
    min + length (snd p) < fuel ->
    (forall y, posOf y = q -> c y <> None) ->
    RepeatMatcher mr P fuel min max greedy x c <> None.
Proof.
  intros mr R P Hmr Hmono mn mx p q H.
  induction H as [mn mx p Hm|mn mx p k q Hmx Hpk Hprog Hrep IH];
    intros fuel g x c Hx Hfuel Hc.
  - destruct fuel as [|fuel]; [lia|]. simpl.
    assert (Hcx : c x <> None) by (apply Hc; assumption).
    destruct mx as [[|mx]|]; auto.
    + destruct Hm as [->|Hm]; [|discriminate]. simpl.
      destruct g.
      * match goal with |- match ?t with _ => _ end <> _ => destruct t end;
          [discriminate|assumption].
      * destruct (c x); [discriminate|congruence].
    + destruct Hm as [->|Hm]; [|discriminate]. simpl.
      destruct g.
      * match goal with |- match ?t with _ => _ end <> _ => destruct t end;
          [discriminate|assumption].
      * destruct (c x); [discriminate|congruence].
  - destruct fuel as [|fuel]; [lia|]. simpl.
    assert (Hiter :
      mr (mkState (before x) (after x) (clearCaptures P (captures x)))
         (fun y => if (mn =? 0) && (length (after y) =? length (after x))
                   then None
                   else RepeatMatcher mr P fuel (pred mn) (option_map pred mx) g y c)
        <> None).
    { apply Hmr with (q := k).
      - unfold posOf; simpl. unfold posOf in Hx. rewrite Hx. exact Hpk.
      - intros y Hy.
        assert (Hlen : length (snd k) <= length (snd p)) by auto.
        assert (Hay : length (after y) = length (snd k)) by (now rewrite <- Hy).
        assert (Hax : length (after x) = length (snd p)) by (now rewrite <- Hx).
        destruct (mn =? 0) eqn:E0; simpl.
        + apply Nat.eqb_eq in E0. specialize (Hprog E0).
          destruct (length (after y) =? length (after x)) eqn:E1.
          * apply Nat.eqb_eq in E1. lia.
          * apply IH; auto. subst mn. simpl. lia.
        + apply Nat.eqb_neq in E0. apply IH; auto. lia. }
    destruct mx as [[|mx]|]; [congruence| |].
    + destruct (mn =? 0); [|assumption]. destruct g.
      * match goal with |- match ?t with _ => _ end <> _ =>
          destruct t eqn:Et end; [discriminate|contradiction].
      * destruct (c x); [discriminate|assumption].
    + destruct (mn =? 0); [|assumption]. destruct g.
      * match goal with |- match ?t with _ => _ end <> _ =>
          destruct t eqn:Et end; [discriminate|contradiction].
      * destruct (c x); [discriminate|assumption].
Qed.

End MatcherTheory.

Lemma NoDup_app_apart : forall (l1 l2 : list nat) k,
  NoDup (l1 ++ l2) -> In k l1 -> In k l2 -> False.
Proof.
  induction l1 as [|a l1 IH]; simpl; intros l2 k Hnd H1 H2; [assumption|].
  inversion Hnd as [|? ? Ha Hnd']; subst. destruct H1 as [->|H1].
  - apply Ha. apply in_or_app. now right.
  - eapply IH; eassumption.
Qed.

Section MatcherSpec.

Variable ml : bool.

Lemma consume_sound : forall f x c z,
  consume f x c = Some z ->
  exists ch rest, after x = ch :: rest /\ f ch = true
    /\ c (mkState (ch :: before x) rest (captures x)) = Some z.
Proof.
  unfold consume. intros f x c z H. destruct (after x) as [|ch rest]; [discriminate|].
  destruct (f ch) eqn:E; [|discriminate]. eauto.
Qed.

Lemma consume_spec_sound : forall f, sound_for (consume f) (Step f) [] [].
Proof.
  intros f x c z H. apply consume_sound in H.
  destruct H as (ch & rest & Ha & Hf & Hc).
  eexists. split; [exact Hc|]. split; [|split].
  - exists ch. simpl. auto.
  - apply keeps_refl.
  - intros n [].
Qed.

Lemma consume_spec_complete : forall f, complete_for (consume f) (Step f).
Proof.
  intros f x c q (ch & Ha & Hb & Hf) Hc. unfold consume. simpl in Ha, Hb.
  rewrite Ha, Hf. apply Hc. destruct q; simpl in *. unfold posOf; simpl.
  now rewrite Hb.
Qed.

(** The matcher finds a match exactly when the declarative reading has
    one; a match leaves the parentheses outside the pattern untouched
    and gives a value to those in [definite]. *)
Theorem m_spec : forall r,
  NoDup (parensOf r) ->
  sound_for (m ml r) (Matches ml r) (parensOf r) (definite r)
  /\ complete_for (m ml r) (Matches ml r).
Proof.
  induction r as [|ch| |inv atoms|r1 IH1 r2 IH2|r1 IH1 r2 IH2|mn mx g r1 IH1
                  |n r1 IH1|r1 IH1|r1 IH1| |]; simpl; intros Hnd.
  - (* Empty *)
    split.
    + intros x c z H. exists x. split; [assumption|]. split; [reflexivity|].
      split; [apply keeps_refl|intros n []].
    + intros x c q -> Hc. now apply Hc.
  - split; [apply consume_spec_sound|apply consume_spec_complete].
  - split; [apply consume_spec_sound|apply consume_spec_complete].
  - split; [apply consume_spec_sound|apply consume_spec_complete].
  - (* Seq *)
    destruct (IH1 (NoDup_app_remove_r _ _ Hnd)) as [S1 C1].
    destruct (IH2 (NoDup_app_remove_l _ _ Hnd)) as [S2 C2].
    split.
    + intros x c z H. apply S1 in H. destruct H as (y1 & H & M1 & K1 & D1).
      apply S2 in H. destruct H as (y & H & M2 & K2 & D2).
      exists y. split; [assumption|]. split; [exists (posOf y1); auto|]. split.
      * eapply keeps_trans; eapply keeps_incl; try eassumption;
          [apply incl_appl|apply incl_appr]; apply incl_refl.
      * intros k Hk. apply in_app_or in Hk. destruct Hk as [Hk|Hk]; [|auto].
        rewrite K2; [auto|]. intro Hk2.
        apply definite_incl in Hk.
        eapply NoDup_app_apart; eassumption.
    + intros x c q (k & M1 & M2) Hc. apply C1 with (q := k); [assumption|].
      intros y Hy. apply C2 with (q := q); [now rewrite Hy|assumption].
  - (* Alt *)
    destruct (IH1 (NoDup_app_remove_r _ _ Hnd)) as [S1 C1].
    destruct (IH2 (NoDup_app_remove_l _ _ Hnd)) as [S2 C2].
    split.
    + intros x c z H. destruct (m ml r1 x c) eqn:E1.
      * inversion H; subst. apply S1 in E1. destruct E1 as (y & Hc & M & K & _).
        exists y. split; [assumption|]. split; [now left|]. split.
        -- eapply keeps_incl; [apply incl_appl; apply incl_refl|eassumption].
        -- intros k [].
      * apply S2 in H. destruct H as (y & Hc & M & K & _).
        exists y. split; [assumption|]. split; [now right|]. split.
        -- eapply keeps_incl; [apply incl_appr; apply incl_refl|eassumption].
        -- intros k [].
    + intros x c q [M|M] Hc.
      * specialize (C1 x c q M Hc). destruct (m ml r1 x c); congruence.
      * destruct (m ml r1 x c); [discriminate|]. now apply C2 with (q := q).
  - (* Quant *)
    destruct (IH1 Hnd) as [S1 C1]. split.
    + intros x c z H. eapply RepeatMatcher_sound in H; eassumption.
    + intros x c q M Hc. eapply RepeatMatcher_complete; try eassumption.
      * intros p0 q0. apply Matches_length.
      * reflexivity.
      * simpl. lia.
  - (* Group *)
    inversion Hnd as [|? ? Hn Hnd1]; subst.
    destruct (IH1 Hnd1) as [S1 C1]. split.
    + intros x c z H. apply S1 in H. destruct H as (y1 & H & M & K & D).
      eexists. split; [exact H|]. split; [exact M|]. simpl. split.
      * intros k Hk. rewrite getCap_setCap_other
          by (intros ->; apply Hk; now left).
        apply K. intro Hk1. apply Hk. now right.
      * intros k [<-|Hk].
        -- rewrite getCap_setCap_same. discriminate.
        -- destruct (Nat.eq_dec k n) as [->|Hkn].
           ++ rewrite getCap_setCap_same. discriminate.
           ++ rewrite getCap_setCap_other by assumption. now apply D.
    + intros x c q M Hc. apply C1 with (q := q); [assumption|].
      intros y Hy. apply Hc. exact Hy.
  - (* Look *)
    destruct (IH1 Hnd) as [S1 C1]. split.
    + intros x c z H. destruct (m ml r1 x (fun y => Some y)) as [y1|] eqn:E;
        [|discriminate].
      apply S1 in E. destruct E as (y' & Hy & M & K & D). inversion Hy; subst y'.
      eexists. split; [exact H|]. split; [|split].
      * split; [reflexivity|]. exists (posOf y1). exact M.
      * exact K.
      * exact D.
    + intros x c q [-> (k & M)] Hc.
      assert (E : m ml r1 x (fun y => Some y) <> None).
      { apply C1 with (q := k); [assumption|]. intros; discriminate. }
      destruct (m ml r1 x (fun y => Some y)); [|congruence].
      apply Hc. reflexivity.
  - (* NegLook *)
    destruct (IH1 Hnd) as [S1 C1]. split.
    + intros x c z H. destruct (m ml r1 x (fun y => Some y)) as [y1|] eqn:E;
        [discriminate|].
      exists x. split; [assumption|]. split; [|split].
      * split; [reflexivity|]. intros (k & M).
        apply (C1 x (fun y => Some y) k M); [intros; discriminate|assumption].
      * apply keeps_refl.
      * intros k [].
    + intros x c q [-> Hno] Hc.
      destruct (m ml r1 x (fun y => Some y)) as [y1|] eqn:E.
      * exfalso. apply Hno. apply S1 in E. destruct E as (y' & _ & M & _).
        now exists (posOf y').
      * now apply Hc.
  - (* Bol *)
    split.
    + intros x c z H. destruct (atLineStart ml (before x)) eqn:E; [|discriminate].
      exists x. split; [assumption|]. split; [now split|].
      split; [apply keeps_refl|intros k []].
    + intros x c q [-> E] Hc. simpl in E. rewrite E. now apply Hc.
  - (* Eol *)
    split.
    + intros x c z H. destruct (atLineEnd ml (after x)) eqn:E; [|discriminate].
      exists x. split; [assumption|]. split; [now split|].
      split; [apply keeps_refl|intros k []].
    + intros x c q [-> E] Hc. simpl in E. rewrite E. now apply Hc.
Qed.

End MatcherSpec.

(** *** The iteration bound is never reached *)

Lemma RepeatMatcher_forward : forall mr P,
  forward mr ->
  forall fuel min max greedy, forward (RepeatMatcher mr P fuel min max greedy).
Proof.
  intros mr P Hmr. induction fuel as [|fuel IH]; intros mn mx g x c c' Hc.
  - reflexivity.
  - cbn [RepeatMatcher].
    assert (Hx : c x = c' x) by (apply Hc; lia).
    assert (Hd :
      mr (mkState (before x) (after x) (clearCaptures P (captures x)))
         (fun y => if (mn =? 0) && (length (after y) =? length (after x))
                   then None
                   else RepeatMatcher mr P fuel (pred mn) (option_map pred mx) g y c)
      = mr (mkState (before x) (after x) (clearCaptures P (captures x)))
         (fun y => if (mn =? 0) && (length (after y) =? length (after x))
                   then None
                   else RepeatMatcher mr P fuel (pred mn) (option_map pred mx) g y c')).
    { apply Hmr. simpl. intros y Hy.
      destruct ((mn =? 0) && (length (after y) =? length (after x))); [reflexivity|].
      apply IH. intros y' Hy'. apply Hc. lia. }
    rewrite Hd, Hx. reflexivity.
Qed.

Lemma consume_forward : forall f, forward (consume f).
Proof.
  intros f x c c' Hc. unfold consume. destruct (after x) as [|ch rest] eqn:E;
    [reflexivity|].
  destruct (f ch); [|reflexivity]. apply Hc. simpl. lia.
Qed.

Lemma m_forward : forall ml r, forward (m ml r).
Proof.
  intros ml. induction r as [|ch| |inv atoms|r1 IH1 r2 IH2|r1 IH1 r2 IH2|mn mx g r1 IH1
                  |n r1 IH1|r1 IH1|r1 IH1| |]; intros x c c' Hc; cbn [m].
  - apply Hc. lia.
  - now apply consume_forward.
  - now apply consume_forward.
  - now apply consume_forward.
  - apply IH1. intros y Hy. apply IH2. intros y' Hy'. apply Hc. lia.
  - rewrite (IH1 x c c' Hc), (IH2 x c c' Hc). reflexivity.
  - now apply RepeatMatcher_forward.
  - apply IH1. intros y Hy. apply Hc. simpl. lia.
  - destruct (m ml r1 x (fun y => Some y)); [|reflexivity]. apply Hc. simpl. lia.
  - destruct (m ml r1 x (fun y => Some y)); [reflexivity|]. apply Hc. lia.
  - destruct (atLineStart ml (before x)); [|reflexivity]. apply Hc. lia.
  - destruct (atLineEnd ml (after x)); [|reflexivity]. apply Hc. lia.
Qed.

(** Any bound above [min] plus the remaining input gives the same
    result: the bound that [m] supplies does not cut a loop short. *)
Lemma RepeatMatcher_fuel : forall mr P,
  forward mr ->
  forall fuel1 fuel2 min max greedy x c,
    min + length (after x) < fuel1 ->
    min + length (after x) < fuel2 ->
    RepeatMatcher mr P fuel1 min max greedy x c
    = RepeatMatcher mr P fuel2 min max greedy x c.
Proof.
  intros mr P Hmr. induction fuel1 as [|fuel1 IH]; intros fuel2 mn mx g x c H1 H2;
    [lia|].
  destruct fuel2 as [|fuel2]; [lia|]. cbn [RepeatMatcher].
  assert (Hd :
    mr (mkState (before x) (after x) (clearCaptures P (captures x)))
       (fun y => if (mn =? 0) && (length (after y) =? length (after x))
                 then None
                 else RepeatMatcher mr P fuel1 (pred mn) (option_map pred mx) g y c)
    = mr (mkState (before x) (after x) (clearCaptures P (captures x)))
       (fun y => if (mn =? 0) && (length (after y) =? length (after x))
                 then None
                 else RepeatMatcher mr P fuel2 (pred mn) (option_map pred mx) g y c)).
  { apply Hmr. simpl. intros y Hy.
    destruct (mn =? 0) eqn:E0; simpl.
    - apply Nat.eqb_eq in E0. subst mn.
      destruct (length (after y) =? length (after x)) eqn:E1; [reflexivity|].
      apply Nat.eqb_neq in E1. apply IH; simpl; lia.
    - apply Nat.eqb_neq in E0. apply IH; lia. }
  rewrite Hd. reflexivity.
Qed.

Lemma Quant_bound_enough : forall ml min max greedy r x c extra,
  RepeatMatcher (m ml r) (parensOf r) (min + length (after x) + 1 + extra)
    min max greedy x c
  = m ml (Quant min max greedy r) x c.
Proof.
  intros. cbn [m]. apply RepeatMatcher_fuel; [apply m_forward|lia|lia].
Qed.

(** * [exec] and the loops over its results *)

Lemma firstn_length_app : forall (A : Type) (l r : list A),
  firstn (length l) (l ++ r) = l.
Proof. induction l as [|a l IH]; simpl; intros r; [reflexivity|]. now rewrite IH. Qed.

Lemma skipn_length_app : forall (A : Type) (l r : list A),
  skipn (length l) (l ++ r) = r.
Proof. induction l as [|a l IH]; simpl; intros r; [reflexivity|]. apply IH. Qed.

Lemma nth_map_seq : forall (A : Type) (f : nat -> A) d n a j,
  j < n -> nth j (map f (seq a n)) d = f (a + j).
Proof.
  induction n as [|n IH]; intros a j Hj; [lia|]. destruct j as [|j]; simpl.
  - now rewrite Nat.add_0_r.
  - rewrite IH by lia. f_equal. lia.
Qed.

Lemma split_at_prefix : forall (s pre suf : list N) i,
  s = pre ++ suf -> i <= length pre ->
  firstn i s = firstn i pre /\ skipn i s = skipn i pre ++ suf.
Proof.
  intros s pre suf i -> Hi. rewrite firstn_app, skipn_app.
  replace (i - length pre) with 0 by lia. simpl. now rewrite app_nil_r.
Qed.

Section ExecTheory.

Variable re : RegExp.
Hypothesis Hwf : wfRegExp re.

Lemma matchAt_some : forall bef aft mr,
  matchAt re bef aft = Some mr ->
  exists l rest,
    aft = l ++ rest
    /\ index mr = length bef
    /\ lastIdx mr = length bef + length l
    /\ item mr 0 = Some l
    /\ Matches (multiline re) (source re) (bef, aft) (rev l ++ bef, rest)
    /\ forall k, In k (definite (source re)) -> item mr k <> None.
Proof.
  intros bef aft mr H. unfold matchAt in H.
  destruct (m (multiline re) (source re) (mkState bef aft []) (fun y => Some y))
    as [y|] eqn:E; [|discriminate].
  inversion H; subst mr; clear H.
  destruct Hwf as [Hnd Hrange].
  destruct (m_spec (multiline re) (source re) Hnd) as [S _].
  apply S in E. destruct E as (y' & Hy & M & K & D). inversion Hy; subst y'.
  destruct (Matches_Advance _ _ _ _ M) as [l [A1 A2]]. simpl in A1, A2.
  exists l, (after y). unfold posOf in M. simpl in M. rewrite A2 in M.
  split; [assumption|]. split; [reflexivity|]. split.
  { unfold toMatch, endIndex. simpl. rewrite A2, length_app, length_rev. lia. }
  split.
  { unfold toMatch, item. simpl. rewrite A1, length_app.
    replace (length l + length (after y) - length (after y)) with (length l) by lia.
    now rewrite firstn_length_app. }
  split; [assumption|].
  intros k Hk. unfold toMatch, item. simpl.
  assert (Hr : 1 <= k <= nCaps re) by (apply Hrange; now apply definite_incl).
  destruct k as [|k]; [lia|]. rewrite nth_map_seq by lia. simpl. now apply D.
Qed.

Lemma matchAt_none : forall bef aft,
  matchAt re bef aft = None ->
  ~ exists q, Matches (multiline re) (source re) (bef, aft) q.
Proof.
  intros bef aft H [q M]. unfold matchAt in H.
  destruct Hwf as [Hnd _].
  destruct (m_spec (multiline re) (source re) Hnd) as [_ C].
  destruct (m (multiline re) (source re) (mkState bef aft []) (fun y => Some y))
    eqn:E; [discriminate|].
  revert E. apply C with (q := q); [exact M|]. intros; discriminate.
Qed.

Lemma search_some : forall aft bef mr,
  search re bef aft = Some mr ->
  exists l1 l rest,
    aft = l1 ++ l ++ rest
    /\ index mr = length bef + length l1
    /\ lastIdx mr = length bef + length l1 + length l
    /\ item mr 0 = Some l
    /\ Matches (multiline re) (source re)
         (rev l1 ++ bef, l ++ rest) (rev l ++ rev l1 ++ bef, rest)
    /\ (forall k, In k (definite (source re)) -> item mr k <> None)
    /\ forall l1' suf, aft = l1' ++ suf -> length l1' < length l1 ->
         ~ exists q, Matches (multiline re) (source re) (rev l1' ++ bef, suf) q.
Proof.
  induction aft as [|ch aft IH]; intros bef mr H; simpl in H.
  - destruct (matchAt re bef []) as [mr'|] eqn:E; [|discriminate].
    inversion H; subst mr'. apply matchAt_some in E.
    destruct E as (l & rest & Haft & Hi & Hl & H0 & M & D).
    exists [], l, rest. simpl. rewrite <- Haft.
    split; [reflexivity|]. split; [lia|]. split; [lia|]. split; [assumption|].
    split; [assumption|]. split; [assumption|].
    intros l1' suf _ Hlt. simpl in Hlt. lia.
  - destruct (matchAt re bef (ch :: aft)) as [mr'|] eqn:E.
    + inversion H; subst mr'. apply matchAt_some in E.
      destruct E as (l & rest & Haft & Hi & Hl & H0 & M & D).
      exists [], l, rest. simpl. rewrite <- Haft.
      split; [reflexivity|]. split; [lia|]. split; [lia|]. split; [assumption|].
      split; [assumption|]. split; [assumption|].
      intros l1' suf _ Hlt. simpl in Hlt. lia.
    + apply IH in H.
      destruct H as (l1 & l & rest & Haft & Hi & Hl & H0 & M & D & Hleft).
      exists (ch :: l1), l, rest. simpl in *.
      rewrite <- !app_assoc. simpl.
      split; [now rewrite Haft|]. split; [lia|]. split; [lia|].
      split; [assumption|]. split; [assumption|]. split; [assumption|].
      intros l1' suf Hsplit Hlt. destruct l1' as [|c' l1']; simpl in *.
      * subst suf. now apply matchAt_none.
      * inversion Hsplit; subst c'. rewrite <- app_assoc. simpl.
        apply Hleft; [assumption|lia].
Qed.

Lemma search_none : forall aft bef,
  search re bef aft = None ->
  forall l1 suf, aft = l1 ++ suf ->
    ~ exists q, Matches (multiline re) (source re) (rev l1 ++ bef, suf) q.
Proof.
  induction aft as [|ch aft IH]; intros bef H l1 suf Hsplit; simpl in H.
  - destruct (matchAt re bef []) eqn:E; [discriminate|].
    destruct l1; [|discriminate]. simpl in *. subst suf. now apply matchAt_none.
  - destruct (matchAt re bef (ch :: aft)) eqn:E; [discriminate|].
    destruct l1 as [|c' l1]; simpl in *.
    + subst suf. now apply matchAt_none.
    + inversion Hsplit; subst c'. rewrite <- app_assoc. simpl.
      now apply IH.
Qed.

Hypothesis Hglobal : global re = true.

Lemma exec_some : forall s i mr,
  exec re s i = Some mr ->
  i <= index mr /\ IsMatch re s mr
  /\ forall pre suf, s = pre ++ suf -> i <= length pre < index mr ->
       ~ MatchesAt re pre suf.
Proof.
  intros s i mr H. unfold exec in H. rewrite Hglobal in H.
  destruct (length s <? i) eqn:Ei; [discriminate|]. apply Nat.ltb_ge in Ei.
  apply search_some in H.
  destruct H as (l1 & l & rest & Haft & Hi & Hl & H0 & M & D & Hleft).
  rewrite length_rev, length_firstn, Nat.min_l in Hi, Hl by assumption.
  assert (Hs : s = (firstn i s ++ l1) ++ l ++ rest).
  { rewrite <- app_assoc, <- Haft. symmetry. apply firstn_skipn. }
  split; [lia|]. split.
  - exists (firstn i s ++ l1), l, rest.
    rewrite !length_app, length_firstn, Nat.min_l by assumption.
    split; [assumption|]. split; [assumption|]. split; [lia|].
    split; [assumption|]. split; [|assumption].
    rewrite !rev_app_distr. exact M.
  - intros pre suf Hsplit [Hge Hlt] [q Hq].
    destruct (split_at_prefix s pre suf i Hsplit Hge) as [Hf Hk].
    apply (Hleft (skipn i pre) suf).
    + assumption.
    + rewrite length_skipn. lia.
    + exists q. rewrite Hf, <- rev_app_distr, firstn_skipn. exact Hq.
Qed.

Lemma exec_none : forall s i,
  exec re s i = None ->
  forall pre suf, s = pre ++ suf -> i <= length pre -> ~ MatchesAt re pre suf.
Proof.
  intros s i H pre suf Hsplit Hge [q Hq]. unfold exec in H. rewrite Hglobal in H.
  assert (Hlen : length s = length pre + length suf)
    by (rewrite Hsplit; apply length_app).
  destruct (length s <? i) eqn:Ei; [apply Nat.ltb_lt in Ei; lia|].
  destruct (split_at_prefix s pre suf i Hsplit Hge) as [Hf Hk].
  apply (search_none _ _ H (skipn i pre) suf Hk).
  exists q. rewrite Hf, <- rev_app_distr, firstn_skipn. exact Hq.
Qed.

Lemma IsMatch_bounds : forall s mr,
  IsMatch re s mr -> index mr <= lastIdx mr <= length s.
Proof.
  intros s mr (pre & l & rest & -> & Hi & Hl & _).
  rewrite !length_app. lia.
Qed.

End ExecTheory.

Section LoopTheory.

Variable re : RegExp.
Hypothesis Hwf : wfRegExp re.
Hypothesis Hglobal : global re = true.

Lemma IsMatch_nonempty : forall s mr,
  NonEmpty re -> IsMatch re s mr -> index mr < lastIdx mr.
Proof.
  intros s mr Hne (pre & l & rest & _ & Hi & Hl & _ & M & _).
  apply Hne in M. simpl in M. rewrite length_app in M. lia.
Qed.

Lemma Scan_flat : forall s i ms,
  NonEmpty re -> Scan re s i ms ->
  StronglySorted (fun a b => lastIdx a <= index b) ms
  /\ Forall (fun mr => i <= index mr /\ IsMatch re s mr) ms
  /\ (forall pre suf, s = pre ++ suf -> i <= length pre -> MatchesAt re pre suf ->
        exists mr, In mr ms /\ index mr <= length pre < lastIdx mr).
Proof.
  intros s i ms Hne H.
  induction H as [i Hno|i mr ms Hi Hm Hleft Hscan (IHs & IHf & IHc)].
  - split; [constructor|]. split; [constructor|].
    intros pre suf Hs Hge M. exfalso. eapply Hno; eassumption.
  - assert (Hlt : index mr < lastIdx mr) by (eapply IsMatch_nonempty; eassumption).
    split; [|split].
    + constructor; [assumption|].
      eapply Forall_impl; [|exact IHf]. simpl. intros b [Hb _]. exact Hb.
    + constructor; [split; assumption|].
      eapply Forall_impl; [|exact IHf]. simpl. intros b [Hb Hb']. split; [lia|assumption].
    + intros pre suf Hs Hge M.
      destruct (Nat.lt_ge_cases (length pre) (index mr)) as [Hlo|Hlo].
      * exfalso. apply (Hleft pre suf Hs); [lia|assumption].
      * destruct (Nat.lt_ge_cases (length pre) (lastIdx mr)) as [Hhi|Hhi].
        -- exists mr. split; [now left|lia].
        -- destruct (IHc pre suf Hs Hhi M) as (mr' & Hin & Hr).
           exists mr'. split; [now right|assumption].
Qed.

Lemma Scan_AllMatches : forall s ms,
  NonEmpty re -> Scan re s 0 ms -> AllMatches re s ms.
Proof.
  intros s ms Hne H. destruct (Scan_flat s 0 ms Hne H) as (Hs & Hf & Hc).
  split; [assumption|]. split.
  - intros mr Hin. rewrite Forall_forall in Hf. destruct (Hf mr Hin) as [_ Hm].
    split; [assumption|]. eapply IsMatch_nonempty; eassumption.
  - intros pre suf Hsp M. apply (Hc pre suf Hsp); [lia|assumption].
Qed.

(** The [while] loop over [exec] stops, having pushed one value for
    each successive match. *)
Lemma execWhile_spec : forall (T : Type) (body : MatchResult -> result T)
    (f : MatchResult -> T) s,
  NonEmpty re ->
  (forall mr, IsMatch re s mr -> body mr = Ok (f mr)) ->
  forall fuel i acc,
    i <= length s -> length s < fuel + i ->
    exists ms, execWhile re s body fuel i acc = Ok (acc ++ map f ms)
               /\ Scan re s i ms.
Proof.
  intros T body f s Hne Hbody.
  induction fuel as [|fuel IH]; intros i acc Hi Hfuel; [lia|]. simpl.
  destruct (exec re s i) as [mr|] eqn:E.
  - destruct (exec_some re Hwf Hglobal s i mr E) as (Hge & Hm & Hleft).
    rewrite (Hbody mr Hm). simpl.
    assert (Hlt : index mr < lastIdx mr) by (eapply IsMatch_nonempty; eassumption).
    pose proof (IsMatch_bounds re s mr Hm) as Hb.
    destruct (IH (lastIdx mr) (acc ++ [f mr])) as (ms & Hex & Hsc); [lia|lia|].
    exists (mr :: ms). split.
    + rewrite Hex. simpl. now rewrite <- app_assoc.
    + now constructor.
  - exists []. split; [simpl; now rewrite app_nil_r|].
    constructor. apply (exec_none re Hwf Hglobal s i E).
Qed.

(** [matchAll] always stops; it yields matches of the pattern, and none
    exactly when the pattern matches nowhere. *)
Lemma matchAllFrom_spec : forall s fuel i,
  i <= length s + 1 -> length s + 1 < fuel + i ->
  exists ms, matchAllFrom re s fuel i = Ok ms
    /\ Forall (IsMatch re s) ms
    /\ (ms = [] <->
        forall pre suf, s = pre ++ suf -> i <= length pre -> ~ MatchesAt re pre suf).
Proof.
  intros s. induction fuel as [|fuel IH]; intros i Hi Hfuel; [lia|]. simpl.
  destruct (exec re s i) as [mr|] eqn:E.
  - destruct (exec_some re Hwf Hglobal s i mr E) as (Hge & Hm & Hleft).
    pose proof (IsMatch_bounds re s mr Hm) as Hb.
    destruct (IH (if lastIdx mr =? index mr then lastIdx mr + 1 else lastIdx mr))
      as (ms & Hex & Hf & _).
    { destruct (lastIdx mr =? index mr); lia. }
    { destruct (lastIdx mr =? index mr) eqn:E1; [|apply Nat.eqb_neq in E1]; lia. }
    exists (mr :: ms). rewrite Hex. simpl. split; [reflexivity|].
    split; [now constructor|]. split; [discriminate|].
    intros Hno. exfalso. destruct Hm as (pre & l & rest & Hs & Hidx & _ & _ & M & _).
    apply (Hno pre (l ++ rest) Hs); [lia|]. eexists; exact M.
  - exists []. split; [reflexivity|]. split; [constructor|].
    split; [|reflexivity]. intros _. apply (exec_none re Hwf Hglobal s i E).
Qed.

Lemma matchAll_spec : forall s,
  exists ms, matchAll re s = Ok ms
    /\ Forall (IsMatch re s) ms
    /\ (ms = [] <-> forall pre suf, s = pre ++ suf -> ~ MatchesAt re pre suf).
Proof.
  intros s. destruct (matchAllFrom_spec s (length s + 2) 0) as (ms & H1 & H2 & H3);
    [lia|lia|].
  exists ms. split; [assumption|]. split; [assumption|].
  rewrite H3. split; intros H pre suf Hs; [apply H; [assumption|lia]|intros _; now apply H].
Qed.

End LoopTheory.

(** * Literals and character runs *)

Lemma Matches_lit_Advance : forall ml l p q,
  Matches ml (fold_right (fun c r => Seq (Char c) r) Empty l) p q <-> Advance l p q.
Proof.
  intros ml. induction l as [|c l IH]; simpl; intros p q.
  - split.
    + intros ->. apply Advance_refl.
    + intros [H1 H2]. simpl in *. destruct p, q; simpl in *. congruence.
  - split.
    + intros (k & (ch & H1 & H2 & H3) & H). apply N.eqb_eq in H3. subst ch.
      apply IH in H. destruct H as [H4 H5]. split; simpl.
      * now rewrite H1, H4.
      * now rewrite H5, H2, <- app_assoc.
    + intros [H1 H2]. simpl in H1, H2.
      exists (c :: fst p, l ++ snd q). split.
      * exists c. simpl. split; [assumption|]. split; [reflexivity|apply N.eqb_refl].
      * apply IH. split; simpl; [reflexivity|].
        now rewrite H2, <- app_assoc.
Qed.

Lemma Matches_lit : forall ml s p q,
  Matches ml (lit s) p q <-> Advance (js s) p q.
Proof. intros. apply Matches_lit_Advance. Qed.

(** Iterating a one-code-unit pattern without upper bound reads a run
    of accepted units, at least [min] of them. *)
Lemma Rep_chars : forall (R : pos -> pos -> Prop) f,
  (forall p q, R p q -> Step f p q) ->
  forall min max p q, Rep R min max p q -> max = None ->
  exists l, Advance l p q /\ Forall (fun c => f c = true) l /\ min <= length l.
Proof.
  intros R f HR min max p q H.
  induction H as [min max p Hm|min max p k q Hmx Hpk Hprog Hrep IH]; intros ->.
  - exists []. split; [apply Advance_refl|]. split; [constructor|].
    destruct Hm as [->|Hm]; [simpl; lia|discriminate].
  - destruct (IH eq_refl) as (l & A & F & Hl).
    apply HR in Hpk. apply Step_Advance in Hpk. destruct Hpk as (ch & Hf & A1).
    exists (ch :: l). split; [apply (Advance_trans [ch] l p k q); assumption|].
    split; [now constructor|]. simpl. lia.
Qed.

Lemma Rep_chars_intro : forall (R : pos -> pos -> Prop) f,
  (forall p q, Step f p q -> R p q) ->
  forall l min p q,
    Forall (fun c => f c = true) l -> min <= length l -> Advance l p q ->
    Rep R min None p q.
Proof.
  intros R f HR. induction l as [|c l IH]; intros min p q F Hl [A1 A2].
  - simpl in *. assert (q = p) by (destruct p, q; simpl in *; congruence). subst q.
    apply Rep_stop. left. lia.
  - inversion F as [|? ? Hc F']; subst. simpl in A1, A2.
    apply Rep_step with (k := (c :: fst p, l ++ snd q)).
    + discriminate.
    + apply HR. exists c. simpl. auto.
    + intros _. simpl. rewrite A1. simpl. rewrite length_app. lia.
    + apply IH; [assumption|simpl in Hl; lia|].
      split; simpl; [reflexivity|]. now rewrite A2, <- app_assoc.
Qed.

(** * Facts about the patterns of [script.js] *)

Lemma Matches_cat_cons : forall ml r rs p q,
  Matches ml (cat (r :: rs)) p q <->
  exists k, Matches ml r p k /\ Matches ml (cat rs) k q.
Proof. intros. reflexivity. Qed.

Lemma cat_head_nonempty : forall ml r rs,
  (forall p k, Matches ml r p k -> length (snd k) < length (snd p)) ->
  forall p q, Matches ml (cat (r :: rs)) p q -> length (snd q) < length (snd p).
Proof.
  intros ml r rs Hr p q H. apply Matches_cat_cons in H. destruct H as (k & H1 & H2).
  apply Hr in H1. apply Matches_length in H2. lia.
Qed.

Lemma lit_nonempty : forall ml s,
  0 < length (js s) ->
  forall p k, Matches ml (lit s) p k -> length (snd k) < length (snd p).
Proof.
  intros ml s Hs p k H. apply Matches_lit in H. apply Advance_length in H. lia.
Qed.

Lemma ident_nonempty : forall ml n p k,
  Matches ml (Group n ident) p k -> length (snd k) < length (snd p).
Proof.
  intros ml n p k H. simpl in H. destruct H as (k' & H1 & H2).
  apply Step_Advance in H1. destruct H1 as (c & _ & A). apply Advance_length in A.
  assert (Hle : length (snd k) <= length (snd k')).
  { apply (Matches_length ml (star identChar)). exact H2. }
  simpl in A. lia.
Qed.

Ltac solve_wf :=
  split; [repeat constructor; simpl; intuition lia | simpl; intuition lia].

Lemma wf_pyFuncRegex : wfRegExp pyFuncRegex.
Proof. solve_wf. Qed.

Lemma wf_jsFuncRegex : wfRegExp jsFuncRegex.
Proof. solve_wf. Qed.

Lemma wf_arrowFuncRegex : wfRegExp arrowFuncRegex.
Proof. solve_wf. Qed.

Lemma wf_lineBreakRegex : wfRegExp lineBreakRegex.
Proof. solve_wf. Qed.

Lemma wf_docstringRegex : wfRegExp docstringRegex.
Proof. solve_wf. Qed.

Lemma wf_assignRegex : wfRegExp assignRegex.
Proof. solve_wf. Qed.

Lemma wf_declRegex : wfRegExp declRegex.
Proof. solve_wf. Qed.

Lemma wf_longFuncRegex : wfRegExp longFuncRegex.
Proof. solve_wf. Qed.

Lemma nonempty_pyFuncRegex : NonEmpty pyFuncRegex.
Proof.
  intros p q. apply cat_head_nonempty. apply lit_nonempty. simpl. lia.
Qed.

Lemma nonempty_jsFuncRegex : NonEmpty jsFuncRegex.
Proof.
  intros p q. apply cat_head_nonempty. apply lit_nonempty. simpl. lia.
Qed.

Lemma nonempty_arrowFuncRegex : NonEmpty arrowFuncRegex.
Proof.
  intros p q. apply cat_head_nonempty. apply ident_nonempty.
Qed.

(** * The Signature Extractor *)

Lemma pushed_ok : forall re s lang mr,
  In 2 (definite (source re)) -> IsMatch re s mr ->
  pushed lang mr = Ok (infoOf lang mr).
Proof.
  intros re s lang mr H2 (pre & l & rest & _ & _ & _ & _ & _ & D).
  specialize (D 2 H2). unfold pushed, infoOf, trimOf.
  destruct (item mr 2); [reflexivity|congruence].
Qed.

Lemma explainedFunctions_scans : forall code,
  exists A B L,
    Scan pyFuncRegex code 0 A
    /\ Scan jsFuncRegex code 0 B
    /\ Scan arrowFuncRegex code 0 L
    /\ explainedFunctions code =
         Ok (map (infoOf (js "Python")) A
               ++ map (infoOf (js "JavaScript")) B
               ++ map (infoOf (js "JavaScript")) L).
Proof.
  intros code. unfold explainedFunctions.
  destruct (execWhile_spec pyFuncRegex wf_pyFuncRegex eq_refl _
              (pushed (js "Python")) (infoOf (js "Python")) code
              nonempty_pyFuncRegex) with (fuel := S (length code)) (i := 0)
              (acc := @nil FunctionInfo) as (A & HA & SA);
    [intros mr; apply pushed_ok; simpl; auto|lia|lia|].
  destruct (execWhile_spec jsFuncRegex wf_jsFuncRegex eq_refl _
              (pushed (js "JavaScript")) (infoOf (js "JavaScript")) code
              nonempty_jsFuncRegex) with (fuel := S (length code)) (i := 0)
              (acc := map (infoOf (js "Python")) A) as (B & HB & SB);
    [intros mr; apply pushed_ok; simpl; auto|lia|lia|].
  destruct (execWhile_spec arrowFuncRegex wf_arrowFuncRegex eq_refl _
              (pushed (js "JavaScript")) (infoOf (js "JavaScript")) code
              nonempty_arrowFuncRegex) with (fuel := S (length code)) (i := 0)
              (acc := map (infoOf (js "Python")) A ++ map (infoOf (js "JavaScript")) B)
              as (L & HL & SL);
    [intros mr; apply pushed_ok; simpl; auto|lia|lia|].
  exists A, B, L. repeat (split; [assumption|]).
  rewrite HA. cbn [bind app]. rewrite HB. cbn [bind]. rewrite HL.
  now rewrite <- app_assoc.
Qed.

(** A dialect-B function written before a dialect-A one is still listed
    after it. *)
Example pass_order_beats_position :
  explainedFunctions (js "function g(a) {} def f(b): pass") =
    Ok [mkFunctionInfo (js "Python") (Some (js "f")) (js "b");
        mkFunctionInfo (js "JavaScript") (Some (js "g")) (js "a")].
Proof. vm_compute. reflexivity. Qed.

(** * The extraction of the Documentation Synthesizer *)

Lemma doc_patterns_same :
  pyRegex = pyFuncRegex /\ jsRegex = jsFuncRegex /\ arrowRegex = arrowFuncRegex.
Proof. repeat split. Qed.

Lemma execWhile_map : forall (T U : Type) re s
    (b1 : MatchResult -> result T) (b2 : MatchResult -> result U) (g : T -> U),
  (forall mr, b2 mr = (v <- b1 mr ;; Ok (g v))) ->
  forall fuel i acc,
    execWhile re s b2 fuel i (map g acc) =
    (l <- execWhile re s b1 fuel i acc ;; Ok (map g l)).
Proof.
  intros T U re s b1 b2 g Hb. induction fuel as [|fuel IH]; intros i acc; simpl.
  - reflexivity.
  - destruct (exec re s i) as [mr|]; [|reflexivity].
    rewrite Hb. destruct (b1 mr) as [v|e]; simpl; [|reflexivity].
    rewrite <- IH, map_app. reflexivity.
Qed.

Lemma pushedDoc_pushed : forall lang mr,
  pushedDoc mr = (v <- pushed lang mr ;; Ok (signatureOf v)).
Proof.
  intros lang mr. unfold pushedDoc, pushed. destruct (trimOf (item mr 2)); reflexivity.
Qed.

Lemma documentedFunctions_explained : forall code,
  documentedFunctions code =
  (fs <- explainedFunctions code ;; Ok (map signatureOf fs)).
Proof.
  intros code. unfold documentedFunctions, explainedFunctions.
  destruct doc_patterns_same as (-> & -> & ->).
  change (@nil DocFunction) with (map signatureOf []).
  rewrite (execWhile_map _ _ pyFuncRegex code (pushed (js "Python")) pushedDoc
             signatureOf (pushedDoc_pushed _)).
  destruct (execWhile pyFuncRegex code (pushed (js "Python")) (S (length code)) 0 [])
    as [fs1|e]; [|reflexivity]. cbn [bind].
  rewrite (execWhile_map _ _ jsFuncRegex code (pushed (js "JavaScript")) pushedDoc
             signatureOf (pushedDoc_pushed _)).
  destruct (execWhile jsFuncRegex code (pushed (js "JavaScript")) (S (length code)) 0 fs1)
    as [fs2|e]; [|reflexivity]. cbn [bind].
  apply (execWhile_map _ _ arrowFuncRegex code (pushed (js "JavaScript")) pushedDoc
           signatureOf (pushedDoc_pushed _)).
Qed.

Lemma explainedFunctions_total : forall code,
  exists fs, explainedFunctions code = Ok fs.
Proof.
  intros code. destruct (explainedFunctions_scans code) as (A & B & L & _ & _ & _ & H).
  eexists. exact H.
Qed.

(** C3: the extraction inside [generateDocumentation] yields the same
    ordered sequence of (name, parameter text) pairs as the extraction
    inside [generateExplanation]. *)
Theorem documentation_extraction_same : forall code,
  exists fs ds,
    explainedFunctions code = Ok fs
    /\ documentedFunctions code = Ok ds
    /\ map (fun d => (doc_name d, doc_params d)) ds
       = map (fun f => (name f, params f)) fs.
Proof.
  intros code. destruct (explainedFunctions_total code) as [fs Hfs].
  exists fs, (map signatureOf fs). split; [assumption|]. split.
  - rewrite documentedFunctions_explained, Hfs. reflexivity.
  - rewrite map_map. reflexivity.
Qed.

(** * Blank text and lines *)

Lemma truthy_rev : forall s, truthy (rev s) = truthy s.
Proof.
  intros [|c s]; [reflexivity|]. simpl.
  destruct (rev s ++ [c]) eqn:E; [|reflexivity].
  apply app_eq_nil in E. destruct E; discriminate.
Qed.

Lemma truthy_trimStart : forall s, truthy (trimStart s) = existsb nonSpace s.
Proof.
  induction s as [|c s IH]; [reflexivity|]. simpl. unfold nonSpace at 1.
  destruct (isWhiteSpace c); simpl; [exact IH|reflexivity].
Qed.

Lemma existsb_trimStart : forall s,
  existsb nonSpace (trimStart s) = existsb nonSpace s.
Proof.
  induction s as [|c s IH]; [reflexivity|]. simpl.
  destruct (isWhiteSpace c) eqn:E; simpl.
  - unfold nonSpace at 2. now rewrite E.
  - reflexivity.
Qed.

Lemma existsb_reverse : forall (f : N -> bool) s,
  existsb f (rev s) = existsb f s.
Proof.
  intros f. induction s as [|c s IH]; [reflexivity|]. simpl.
  rewrite existsb_app, IH. simpl. rewrite orb_false_r. apply orb_comm.
Qed.

(** The trimmed text is non-empty exactly when the text has a code unit
    that is not white space. *)
Lemma truthy_trim : forall s, truthy (trim s) = existsb nonSpace s.
Proof.
  intros s. unfold trim, trimEnd.
  rewrite truthy_rev, truthy_trimStart, existsb_reverse, existsb_trimStart.
  reflexivity.
Qed.

Lemma linesOf_cons : forall s, exists l ls, linesOf s = l :: ls.
Proof.
  induction s as [|c s IH]; simpl; [eauto|].
  destruct s as [|d s'].
  - destruct (c =? LF)%N; eauto.
  - destruct ((c =? CR) && (d =? LF))%N; [eauto|].
    destruct (c =? LF)%N; [eauto|].
    destruct IH as (l & ls & ->). simpl. eauto.
Qed.

Lemma prepend_addChar : forall cur c s,
  prepend cur (addChar c (linesOf s)) = prepend (cur ++ [c]) (linesOf s).
Proof.
  intros cur c s. destruct (linesOf_cons s) as (l & ls & ->). simpl.
  now rewrite <- app_assoc.
Qed.

Lemma matchAt_lineBreak : forall bef aft,
  matchAt lineBreakRegex bef aft =
  match aft with
  | [] => None
  | c :: rest =>
      match rest with
      | d :: _ =>
          if ((c =? CR) && (d =? LF))%N
          then Some (mkMatch (length bef) (S (S (length bef))) [Some [c; d]])
          else if (c =? LF)%N
               then Some (mkMatch (length bef) (S (length bef)) [Some [c]])
               else None
      | [] =>
          if (c =? LF)%N
          then Some (mkMatch (length bef) (S (length bef)) [Some [c]])
          else None
      end
  end.
Proof.
  intros bef aft. unfold matchAt, lineBreakRegex, toMatch, endIndex.
  cbn -[Nat.sub firstn Nat.add].
  replace (0 + length aft + 1) with (S (length aft)) by lia.
  destruct aft as [|c rest]; [reflexivity|].
  cbn -[Nat.sub firstn]. unfold consume. cbn -[Nat.sub firstn].
  destruct (c =? CR)%N eqn:Ec.
  - apply N.eqb_eq in Ec. subst c.
    replace (length rest =? S (length rest)) with false
      by (symmetry; apply Nat.eqb_neq; lia).
    destruct rest as [|d rest]; cbn -[Nat.sub firstn]; [reflexivity|].
    destruct (d =? LF)%N eqn:Ed; cbn -[Nat.sub firstn].
    + replace (S (S (length rest)) - length rest) with 2 by lia. reflexivity.
    + reflexivity.
  - cbn -[Nat.sub firstn]. destruct (c =? LF)%N eqn:El.
    + cbn -[Nat.sub firstn].
      replace (S (length rest) - length rest) with 1 by lia.
      destruct rest; reflexivity.
    + destruct rest; reflexivity.
Qed.

Lemma linesOf_eq : forall c d s,
  linesOf (c :: d :: s) =
  if ((c =? CR) && (d =? LF))%N then [] :: linesOf s
  else if (c =? LF)%N then [] :: linesOf (d :: s)
  else addChar c (linesOf (d :: s)).
Proof. reflexivity. Qed.

Lemma at_cursor : forall (done cur rest s : list N) p q,
  s = done ++ cur ++ rest -> p = length done -> q = length done + length cur ->
  length s = q + length rest
  /\ firstn q s = done ++ cur
  /\ skipn q s = rest
  /\ skipn p s = cur ++ rest
  /\ firstn (q - p) (skipn p s) = cur.
Proof.
  intros done cur rest s p q -> -> ->.
  split; [rewrite !length_app; lia|].
  rewrite app_assoc, <- length_app.
  split; [apply firstn_length_app|]. split; [apply skipn_length_app|].
  rewrite <- app_assoc, skipn_length_app, length_app.
  split; [reflexivity|].
  replace (length done + length cur - length done) with (length cur) by lia.
  apply firstn_length_app.
Qed.

Lemma splitLoop_lines : forall n rest,
  length rest <= n ->
  forall fuel done cur acc s p q,
    s = done ++ cur ++ rest -> p = length done -> q = length done + length cur ->
    length rest < fuel ->
    splitLoop lineBreakRegex s fuel p q acc = Ok (acc ++ prepend cur (linesOf rest)).
Proof.
  induction n as [|n IH]; intros rest Hn fuel done cur acc s p q Hs Hp Hq Hfuel;
    destruct (at_cursor done cur rest s p q Hs Hp Hq)
      as (Hlen & Hfst & Hskp & Hskp' & Hcur);
    (destruct fuel as [|fuel]; [lia|]); cbn [splitLoop].
  - destruct rest; [|simpl in Hn; lia]. simpl in Hlen.
    replace (q <? length s) with false by (symmetry; apply Nat.ltb_ge; lia).
    rewrite Hskp'. reflexivity.
  - destruct rest as [|c rest].
    { simpl in Hlen.
      replace (q <? length s) with false by (symmetry; apply Nat.ltb_ge; lia).
      rewrite Hskp'. reflexivity. }
    simpl in Hn, Hfuel, Hlen.
    replace (q <? length s) with true by (symmetry; apply Nat.ltb_lt; lia).
    rewrite Hfst, Hskp, matchAt_lineBreak, length_rev.
    replace (length (done ++ cur)) with q by (rewrite length_app; lia).
    assert (Hstep : splitLoop lineBreakRegex s fuel p (q + 1) acc
                    = Ok (acc ++ prepend (cur ++ [c]) (linesOf rest))).
    { apply (IH rest) with (done := done); try lia.
      - rewrite Hs, <- app_assoc. reflexivity.
      - rewrite length_app. simpl. lia. }
    assert (Hbreak1 :
      (if Nat.min (S q) (length s) =? p
       then splitLoop lineBreakRegex s fuel p (q + 1) acc
       else splitLoop lineBreakRegex s fuel (Nat.min (S q) (length s))
              (Nat.min (S q) (length s)) (acc ++ [firstn (q - p) (skipn p s)]))
      = Ok (acc ++ (cur ++ []) :: linesOf rest)).
    { rewrite Nat.min_l by lia.
      replace (S q =? p) with false by (symmetry; apply Nat.eqb_neq; lia).
      rewrite Hcur.
      rewrite (IH rest) with (done := done ++ cur ++ [c]) (cur := []); try lia.
      - destruct (linesOf_cons rest) as (l & ls & ->). simpl.
        rewrite <- app_assoc, app_nil_r. reflexivity.
      - rewrite Hs, <- !app_assoc. reflexivity.
      - rewrite !length_app. simpl. lia.
      - rewrite !length_app. simpl. lia. }
    destruct rest as [|d rest'].
    + destruct (c =? LF)%N eqn:El.
      * cbn [lastIdx]. rewrite Hbreak1. simpl. rewrite El. reflexivity.
      * rewrite Hstep. simpl. rewrite El. simpl. now rewrite app_nil_r.
    + destruct ((c =? CR) && (d =? LF))%N eqn:Ecr.
      * cbn [lastIdx]. simpl in Hlen. rewrite Nat.min_l by lia.
        replace (S (S q) =? p) with false by (symmetry; apply Nat.eqb_neq; lia).
        rewrite Hcur.
        rewrite (IH rest') with (done := done ++ cur ++ [c; d]) (cur := []);
          try (simpl in *; lia).
        -- rewrite (linesOf_eq c d rest'), Ecr.
           destruct (linesOf_cons rest') as (l & ls & ->). simpl.
           rewrite <- app_assoc, app_nil_r. reflexivity.
        -- rewrite Hs, <- !app_assoc. reflexivity.
        -- rewrite !length_app. simpl. lia.
        -- rewrite !length_app. simpl. lia.
      * destruct (c =? LF)%N eqn:El.
        -- cbn [lastIdx]. rewrite Hbreak1.
           rewrite (linesOf_eq c d rest'), Ecr, El. reflexivity.
        -- rewrite Hstep, <- prepend_addChar.
           rewrite (linesOf_eq c d rest'), Ecr, El. reflexivity.
Qed.

(** Splitting at the line-break pattern always succeeds and yields the
    lines of the text. *)
Lemma split_lineBreak : forall s, split lineBreakRegex s = Ok (linesOf s).
Proof.
  intros s. unfold split. destruct s as [|c s]; [reflexivity|].
  rewrite (splitLoop_lines (length (c :: s)) (c :: s) (Nat.le_refl _)
             _ [] [] [] (c :: s) 0 0); try reflexivity.
  - destruct (linesOf_cons (c :: s)) as (l & ls & ->). reflexivity.
  - simpl. lia.
Qed.

(** * The three generators always return *)

Lemma generateExplanation_total : forall code,
  exists e, generateExplanation code = Ok e.
Proof.
  intros code. unfold generateExplanation.
  destruct (explainedFunctions_total code) as [fs ->]. cbn [bind].
  destruct (length fs =? 0); [|eauto].
  rewrite split_lineBreak. cbn [bind]. eauto.
Qed.

Lemma documentedFunctions_total : forall code,
  exists ds, documentedFunctions code = Ok ds.
Proof.
  intros code. rewrite documentedFunctions_explained.
  destruct (explainedFunctions_total code) as [fs ->]. cbn [bind]. eauto.
Qed.

Lemma generateDocumentation_total : forall code,
  exists d, generateDocumentation code = Ok d.
Proof.
  intros code. unfold generateDocumentation, docLinesOf.
  destruct (documentedFunctions_total code) as [ds ->]. cbn [bind].
  destruct (length ds =? 0); cbn [bind]; eauto.
Qed.

Lemma filterR_total : forall (A : Type) (f : A -> result bool) l,
  Forall (fun a => exists b, f a = Ok b) l ->
  exists l', filterR f l = Ok l' /\ incl l' l.
Proof.
  intros A f. induction l as [|a l IH]; intros H.
  - exists []. split; [reflexivity|apply incl_refl].
  - inversion H as [|? ? [b Hb] Hl]; subst. destruct (IH Hl) as (l' & Hl' & Hi).
    cbn [filterR]. rewrite Hb. cbn [bind]. rewrite Hl'. cbn [bind]. destruct b.
    + exists (a :: l'). split; [reflexivity|].
      intros k [<-|Hk]; [now left|right; auto].
    + exists l'. split; [reflexivity|]. now apply incl_tl.
Qed.

Lemma isLong_total : forall code mt,
  IsMatch longFuncRegex code mt -> exists b, isLong mt = Ok b.
Proof.
  intros code mt (pre & l & rest & _ & _ & _ & _ & _ & D).
  specialize (D 1). unfold isLong. destruct (item mt 1) as [body|].
  - rewrite split_lineBreak. cbn [bind]. eauto.
  - exfalso. apply D; [simpl; auto|reflexivity].
Qed.

Lemma pyFuncs_total : forall code, exists py, pyFuncs code = Ok py.
Proof.
  intros code. destruct (matchAll_spec docstringRegex wf_docstringRegex eq_refl code)
    as (ms & H & _). eauto.
Qed.

Lemma undeclaredJS_total : forall code, exists und, undeclaredJS code = Ok und.
Proof.
  intros code. unfold undeclaredJS.
  destruct (matchAll_spec assignRegex wf_assignRegex eq_refl code) as (ms & -> & _).
  cbn [bind]. eauto.
Qed.

Lemma longFuncs_total : forall code, exists lng, longFuncs code = Ok lng.
Proof.
  intros code. unfold longFuncs.
  destruct (matchAll_spec longFuncRegex wf_longFuncRegex eq_refl code)
    as (ms & -> & Hm & _). cbn [bind].
  destruct (filterR_total _ isLong ms) as (l' & -> & _); [|eauto].
  eapply Forall_impl; [|exact Hm]. apply isLong_total.
Qed.

Lemma suggestionList_eq : forall code py und lng,
  pyFuncs code = Ok py -> undeclaredJS code = Ok und -> longFuncs code = Ok lng ->
  suggestionList code =
    Ok (match specificAdvice py und lng with
        | [] => [namingAdvice; errorHandlingAdvice]
        | s => s
        end).
Proof.
  intros code py und lng H1 H2 H3. unfold suggestionList, specificAdvice.
  rewrite H1. cbn [bind]. rewrite H2. cbn [bind]. rewrite H3. cbn [bind].
  destruct (0 <? length py), (0 <? length und), (0 <? length lng); reflexivity.
Qed.

Lemma suggestionList_total : forall code, exists sugg, suggestionList code = Ok sugg.
Proof.
  intros code. destruct (pyFuncs_total code) as [py H1].
  destruct (undeclaredJS_total code) as [und H2].
  destruct (longFuncs_total code) as [lng H3].
  rewrite (suggestionList_eq code py und lng H1 H2 H3). eauto.
Qed.

Lemma generateSuggestion_total : forall code,
  exists s, generateSuggestion code = Ok s.
Proof.
  intros code. unfold generateSuggestion.
  destruct (suggestionList_total code) as [sugg ->]. cbn [bind]. eauto.
Qed.

(** * The entry point *)

(** The trimmed text is empty exactly when every code unit is white
    space. *)
Lemma trim_empty_iff : forall s,
  trim s = [] <-> Forall (fun c => isWhiteSpace c = true) s.
Proof.
  intros s. assert (H : truthy (trim s) = false <-> trim s = []).
  { destruct (trim s); simpl; split; congruence. }
  rewrite <- H, truthy_trim. rewrite Forall_forall. split.
  - intros He c Hc. destruct (isWhiteSpace c) eqn:E; [reflexivity|].
    assert (Ht : existsb nonSpace s = true).
    { apply existsb_exists. exists c. split; [assumption|]. unfold nonSpace.
      now rewrite E. }
    congruence.
  - intros Hall. destruct (existsb nonSpace s) eqn:E; [|reflexivity].
    apply existsb_exists in E. destruct E as (c & Hc & Hn). unfold nonSpace in Hn.
    rewrite (Hall c Hc) in Hn. discriminate.
Qed.

(** C1: when the trimmed input is empty, [analyzeCode] only raises the
    alert: the original-code echo, the three outputs and the visibility
    of the output section stay as they were.  For every other input it
    writes the verbatim input and the results of the three generators,
    each of which returns, and reveals the output section. *)
Theorem analyzeCode_gate : forall page,
  (trim (code_input page) = [] ->
   analyzeCode page =
     Ok (mkPage (code_input page) (original_code page) (explanation page)
           (suggestion page) (documentation page) (output_hidden page)
           (alerts page ++ [emptyInputAlert])))
  /\ (trim (code_input page) <> [] ->
      exists e s d,
        generateExplanation (code_input page) = Ok e
        /\ generateSuggestion (code_input page) = Ok s
        /\ generateDocumentation (code_input page) = Ok d
        /\ analyzeCode page =
             Ok (mkPage (code_input page) (code_input page) e s d false
                   (alerts page))).
Proof.
  intros page. unfold analyzeCode. split.
  - intros ->. reflexivity.
  - intros Hne. destruct (trim (code_input page)) eqn:E; [congruence|]. simpl.
    destruct (generateExplanation_total (code_input page)) as [e He].
    destruct (generateSuggestion_total (code_input page)) as [s Hs].
    destruct (generateDocumentation_total (code_input page)) as [d Hd].
    exists e, s, d. rewrite He, Hs, Hd. repeat split.
Qed.

Lemma analyzeCode_gate_witness :
  analyzeCode blankPage =
    Ok (mkPage (js "   ") [] [] [] [] true [emptyInputAlert])
  /\ exists e s d,
       generateExplanation (code_input fooPage) = Ok e
       /\ generateSuggestion (code_input fooPage) = Ok s
       /\ generateDocumentation (code_input fooPage) = Ok d
       /\ analyzeCode fooPage =
            Ok (mkPage (code_input fooPage) (code_input fooPage) e s d false []).
Proof.
  split.
  - apply (proj1 (analyzeCode_gate blankPage)). reflexivity.
  - apply (proj2 (analyzeCode_gate fooPage)). vm_compute. discriminate.
Defined.

(** * Explanation of a text without functions *)

Lemma nonBlank_spec : forall l, nonBlank l = existsb nonSpace l.
Proof. intros l. rewrite <- truthy_trim. reflexivity. Qed.

(** * Worked example *)

(** C8: for the input [def foo(x):], a line feed and an indented [pass],
    the explanation reports one function, of dialect A, named foo with
    parameter text x; the documentation has the header of foo() and one
    parameter bullet, for x. *)
Theorem def_foo_example :
  explainedFunctions defFooInput =
    Ok [mkFunctionInfo (js "Python") (Some (js "foo")) (js "x")]
  /\ generateExplanation defFooInput =
       Ok (js "Foram identificada(s) 1 função(ões): Python: função foo(x).")
  /\ docLinesOf defFooInput =
       Ok [js "### Função `foo()`";
           js "**Descrição:** descreva aqui o que a função faz.";
           js "**Parâmetros:**";
           paramBullet (js "x");
           js "**Retorno:** descreva aqui o valor retornado pela função.";
           []]
  /\ generateDocumentation defFooInput =
       Ok (js "### Função `foo()`" ++ [LF]
           ++ js "**Descrição:** descreva aqui o que a função faz." ++ [LF]
           ++ js "**Parâmetros:**" ++ [LF]
           ++ js "- `x`: descrição do parâmetro." ++ [LF]
           ++ js "**Retorno:** descreva aqui o valor retornado pela função."
           ++ [LF]).
Proof. repeat split; vm_compute; reflexivity. Qed.

(** * Documentation stubs *)

Lemma fold_left_push : forall (A B : Type) (f : A -> B) l acc,
  fold_left (fun acc a => acc ++ [f a]) l acc = acc ++ map f l.
Proof.
  intros A B f. induction l as [|a l IH]; intros acc; simpl.
  - now rewrite app_nil_r.
  - rewrite IH, <- app_assoc. reflexivity.
Qed.

Lemma docStub_app : forall fn docLines,
  docStub fn docLines = docLines ++ docStub fn [].
Proof.
  intros fn docLines. unfold docStub.
  destruct ((0 <? length _) && negb _).
  - rewrite !fold_left_push, <- !app_assoc. reflexivity.
  - rewrite <- !app_assoc. reflexivity.
Qed.

Lemma fold_left_docStub : forall fns acc,
  fold_left (fun acc fn => docStub fn acc) fns acc
  = acc ++ flat_map (fun fn => docStub fn []) fns.
Proof.
  induction fns as [|fn fns IH]; intros acc; simpl.
  - now rewrite app_nil_r.
  - rewrite IH, docStub_app, <- app_assoc. reflexivity.
Qed.

(** The documentation is one stub after the other, in extraction order. *)
Lemma docLinesOf_stubs : forall code fns,
  documentedFunctions code = Ok fns -> fns <> [] ->
  docLinesOf code = Ok (flat_map (fun fn => docStub fn []) fns).
Proof.
  intros code fns H Hne. unfold docLinesOf. rewrite H. cbn [bind].
  destruct fns as [|fn fns]; [congruence|]. cbn [length Nat.eqb].
  rewrite fold_left_docStub. reflexivity.
Qed.

(** * The fallback of the Heuristic Advisor *)

Lemma no_signature_no_def : forall code,
  explainedFunctions code = Ok [] ->
  forall pre suf, code = pre ++ suf -> ~ MatchesAt pyFuncRegex pre suf.
Proof.
  intros code H pre suf Hs M.
  destruct (explainedFunctions_scans code) as (A & B & L & HA & _ & _ & HE).
  rewrite H in HE. inversion HE as [HE'].
  symmetry in HE'. apply app_eq_nil in HE'. destruct HE' as [HA' _].
  apply map_eq_nil in HA'. subst A.
  inversion HA as [i Hno Hi|]. apply (Hno pre suf Hs); [lia|assumption].
Qed.

(** Both dialect-A checks start with the dialect-A header of the
    extractor (without its parentheses being captured). *)
Lemma docstring_starts_with_def : forall pre suf,
  MatchesAt docstringRegex pre suf -> MatchesAt pyFuncRegex pre suf.
Proof.
  intros pre suf [q M]. unfold docstringRegex, source in M.
  apply Matches_cat_cons in M. destruct M as (k1 & M1 & M).
  apply Matches_cat_cons in M. destruct M as (k2 & M2 & M).
  apply Matches_cat_cons in M. destruct M as (k3 & M3 & M).
  apply Matches_cat_cons in M. destruct M as (k4 & M4 & M).
  apply Matches_cat_cons in M. destruct M as (k5 & M5 & M).
  apply Matches_cat_cons in M. destruct M as (k6 & M6 & M).
  apply Matches_cat_cons in M. destruct M as (k7 & M7 & _).
  exists k7. unfold pyFuncRegex, source.
  apply Matches_cat_cons. exists k1. split; [exact M1|].
  apply Matches_cat_cons. exists k2. split; [exact M2|].
  apply Matches_cat_cons. exists k3. split; [exact M3|].
  apply Matches_cat_cons. exists k4. split; [exact M4|].
  apply Matches_cat_cons. exists k5. split; [exact M5|].
  apply Matches_cat_cons. exists k6. split; [exact M6|].
  apply Matches_cat_cons. exists k7. split; [exact M7|reflexivity].
Qed.

Lemma longFunc_starts_with_def : forall pre suf,
  MatchesAt longFuncRegex pre suf -> MatchesAt pyFuncRegex pre suf.
Proof.
  intros pre suf [q M]. unfold longFuncRegex, source in M.
  apply Matches_cat_cons in M. destruct M as (k1 & M1 & M).
  apply Matches_cat_cons in M. destruct M as (k2 & M2 & M).
  apply Matches_cat_cons in M. destruct M as (k3 & M3 & M).
  apply Matches_cat_cons in M. destruct M as (k4 & M4 & M).
  apply Matches_cat_cons in M. destruct M as (k5 & M5 & M).
  apply Matches_cat_cons in M. destruct M as (k6 & M6 & M).
  apply Matches_cat_cons in M. destruct M as (k7 & M7 & _).
  exists k7. unfold pyFuncRegex, source.
  apply Matches_cat_cons. exists k1. split; [exact M1|].
  apply Matches_cat_cons. exists k2. split; [exact M2|].
  apply Matches_cat_cons. exists k3. split; [exact M3|].
  apply Matches_cat_cons. exists k4. split; [exact M4|].
  apply Matches_cat_cons. exists k5. split; [exact M5|].
  apply Matches_cat_cons. exists k6. split; [exact M6|].
  apply Matches_cat_cons. exists k7. split; [exact M7|reflexivity].
Qed.

Lemma no_def_no_docstring_match : forall code,
  (forall pre suf, code = pre ++ suf -> ~ MatchesAt pyFuncRegex pre suf) ->
  pyFuncs code = Ok [].
Proof.
  intros code H. unfold pyFuncs.
  destruct (matchAll_spec docstringRegex wf_docstringRegex eq_refl code)
    as (ms & -> & _ & Hnil).
  f_equal. apply Hnil. intros pre suf Hs M.
  apply (H pre suf Hs). now apply docstring_starts_with_def.
Qed.

Lemma no_def_no_long_match : forall code,
  (forall pre suf, code = pre ++ suf -> ~ MatchesAt pyFuncRegex pre suf) ->
  longFuncs code = Ok [].
Proof.
  intros code H. unfold longFuncs.
  destruct (matchAll_spec longFuncRegex wf_longFuncRegex eq_refl code)
    as (ms & -> & _ & Hnil).
  assert (ms = []) as ->; [|reflexivity].
  apply Hnil. intros pre suf Hs M.
  apply (H pre suf Hs). now apply longFunc_starts_with_def.
Qed.

(** C5, as stated, fails: a bare assignment has none of the three
    function shapes, yet the advisor answers with the declaration
    reminder instead of the two generic advisories. *)
Lemma fallback_counterexample :
  explainedFunctions (js "x = 1") = Ok []
  /\ suggestionList (js "x = 1") = Ok [declarationAdvice]
  /\ suggestionList (js "x = 1") <> Ok [namingAdvice; errorHandlingAdvice].
Proof.
  split; [vm_compute; reflexivity|]. split; [vm_compute; reflexivity|].
  vm_compute. discriminate.
Qed.

(** C5, amended: for every input in which the extractor finds no
    function shape and the undeclared-assignment check flags nothing,
    the advisor yields exactly the naming reminder and then the
    error-handling reminder. *)
Theorem fallback_two_generic_advisories : forall code,
  explainedFunctions code = Ok [] ->
  undeclaredJS code = Ok [] ->
  suggestionList code = Ok [namingAdvice; errorHandlingAdvice]
  /\ generateSuggestion code = Ok (namingAdvice ++ js " " ++ errorHandlingAdvice).
Proof.
  intros code Hf Hu.
  pose proof (no_signature_no_def code Hf) as Hno.
  assert (Hs : suggestionList code = Ok [namingAdvice; errorHandlingAdvice]).
  { rewrite (suggestionList_eq code [] [] []
               (no_def_no_docstring_match code Hno) Hu
               (no_def_no_long_match code Hno)).
    reflexivity. }
  split; [exact Hs|]. unfold generateSuggestion. rewrite Hs. reflexivity.
Qed.

Lemma fallback_two_generic_advisories_witness :
  suggestionList (js "print(total)") = Ok [namingAdvice; errorHandlingAdvice]
  /\ generateSuggestion (js "print(total)")
     = Ok (namingAdvice ++ js " " ++ errorHandlingAdvice).
Proof.
  apply (fallback_two_generic_advisories (js "print(total)")).
  - vm_compute. reflexivity.
  - vm_compute. reflexivity.
Defined.

(** * Character classes and the construction of matches *)

Lemma identStart_class : forall c,
  classMatches false
    [CRange (ch "A") (ch "Z"); CRange (ch "a") (ch "z"); CChar (ch "_")] c
  = identStartChar c.
Proof.
  intros c. unfold classMatches, identStartChar. simpl.
  change (ch "A") with 65%N. change (ch "Z") with 90%N.
  change (ch "a") with 97%N. change (ch "z") with 122%N.
  change (ch "_") with 95%N.
  destruct ((65 <=? c) && (c <=? 90))%N, ((97 <=? c) && (c <=? 122))%N,
    (c =? 95)%N; reflexivity.
Qed.

Lemma identPart_class : forall c,
  classMatches false
    [CRange (ch "A") (ch "Z"); CRange (ch "a") (ch "z");
     CRange (ch "0") (ch "9"); CChar (ch "_")] c
  = identPartChar c.
Proof.
  intros c. unfold classMatches, identPartChar, identStartChar. simpl.
  change (ch "A") with 65%N. change (ch "Z") with 90%N.
  change (ch "a") with 97%N. change (ch "z") with 122%N.
  change (ch "0") with 48%N. change (ch "9") with 57%N.
  change (ch "_") with 95%N.
  destruct ((65 <=? c) && (c <=? 90))%N, ((97 <=? c) && (c <=? 122))%N,
    ((48 <=? c) && (c <=? 57))%N, (c =? 95)%N; reflexivity.
Qed.

Lemma blankOrTab_class : forall c,
  classMatches false [CChar 32%N; CChar 9%N] c = blankOrTab c.
Proof.
  intros c. unfold classMatches, blankOrTab. simpl.
  destruct (c =? 32)%N, (c =? 9)%N; reflexivity.
Qed.

Lemma Step_weaken : forall (f g : N -> bool) p q,
  (forall c, f c = g c) -> Step f p q -> Step g p q.
Proof.
  intros f g p q H (c & H1 & H2 & H3). exists c. rewrite <- H. auto.
Qed.

Lemma ws_Step : forall ml p q,
  Matches ml ws p q -> Step isWhiteSpace p q.
Proof.
  intros ml p q (c & H1 & H2 & H3). exists c. split; [assumption|].
  split; [assumption|]. unfold classMatches in H3. simpl in H3.
  now rewrite orb_false_r in H3.
Qed.

Lemma Step_ws : forall ml p q,
  Step isWhiteSpace p q -> Matches ml ws p q.
Proof.
  intros ml p q (c & H1 & H2 & H3). exists c. split; [assumption|].
  split; [assumption|]. unfold classMatches. simpl.
  now rewrite orb_false_r.
Qed.

(** Building matches by hand. *)
Lemma Matches_Char_intro : forall ml c b a,
  Matches ml (Char c) (b, c :: a) (c :: b, a).
Proof.
  intros ml c b a. exists c. simpl. split; [reflexivity|].
  split; [reflexivity|apply N.eqb_refl].
Qed.

Lemma Matches_lit_intro : forall ml s b a,
  Matches ml (lit s) (b, js s ++ a) (rev (js s) ++ b, a).
Proof. intros ml s b a. apply Matches_lit. split; reflexivity. Qed.

Lemma Matches_run_intro : forall ml invert atoms greedy min l b a,
  Forall (fun c => classMatches invert atoms c = true) l ->
  min <= length l ->
  Matches ml (Quant min None greedy (Class invert atoms)) (b, l ++ a) (rev l ++ b, a).
Proof.
  intros ml invert atoms greedy min l b a F Hl. cbn [Matches].
  apply (Rep_chars_intro _ (classMatches invert atoms)) with (l := l);
    [intros p q HS; exact HS|assumption|assumption|split; reflexivity].
Qed.

Lemma ws_run : forall l,
  Forall (fun c => isWhiteSpace c = true) l ->
  Forall (fun c => classMatches false [CSpace] c = true) l.
Proof.
  intros l F. eapply Forall_impl; [|exact F]. intros c Hc.
  unfold classMatches. simpl. now rewrite Hc.
Qed.

Lemma Matches_ident_intro : forall ml c0 idrest b a,
  identStartChar c0 = true ->
  Forall (fun c => identPartChar c = true) idrest ->
  Matches ml ident (b, c0 :: idrest ++ a) (rev idrest ++ c0 :: b, a).
Proof.
  intros ml c0 idrest b a Hc0 Fid. cbn [Matches ident identStart].
  exists (c0 :: b, idrest ++ a). split.
  - exists c0. cbn [fst snd]. split; [reflexivity|]. split; [reflexivity|].
    rewrite identStart_class. exact Hc0.
  - apply Matches_run_intro; [|lia].
    eapply Forall_impl; [|exact Fid]. intros c Hc. cbv beta.
    rewrite identPart_class. exact Hc.
Qed.

Lemma Matches_dots_intro : forall ml min l b a,
  Forall (fun c => isLineTerminator c = false) l ->
  min <= length l ->
  Matches ml (Quant min None true Dot) (b, l ++ a) (rev l ++ b, a).
Proof.
  intros ml min l b a F Hl. cbn [Matches].
  apply (Rep_chars_intro _ (fun d => negb (isLineTerminator d))) with (l := l).
  - intros p q HS. exact HS.
  - eapply Forall_impl; [|exact F]. intros c Hc. cbv beta. now rewrite Hc.
  - exact Hl.
  - split; reflexivity.
Qed.

(** * The missing-docstring check *)

(** A dialect-A header followed by a line feed and at least one white
    space code unit is matched by the docstring pattern whatever comes
    next, a triple quote included. *)
Lemma indented_body_matches : forall pre sp1 c0 idrest sp2 args sp3 sp4 sp5 w rest,
  sp1 <> [] ->
  Forall (fun c => isWhiteSpace c = true) sp1 ->
  identStartChar c0 = true ->
  Forall (fun c => identPartChar c = true) idrest ->
  Forall (fun c => isWhiteSpace c = true) sp2 ->
  Forall (fun c => c <> ch ")") args ->
  Forall (fun c => isWhiteSpace c = true) sp3 ->
  Forall (fun c => isWhiteSpace c = true) sp4 ->
  Forall (fun c => isWhiteSpace c = true) sp5 ->
  isWhiteSpace w = true ->
  MatchesAt docstringRegex pre
    (js "def" ++ sp1 ++ (c0 :: idrest) ++ sp2 ++ ch "(" :: args ++ ch ")" :: sp3
       ++ ch ":" :: sp4 ++ LF :: sp5 ++ w :: rest).
Proof.
  intros pre sp1 c0 idrest sp2 args sp3 sp4 sp5 w rest
    Hsp1 F1 Hc0 Fid F2 Fargs F3 F4 F5 Hw.
  unfold MatchesAt, docstringRegex, source, multiline.
  eexists.
  apply Matches_cat_cons. eexists. split; [apply Matches_lit_intro|].
  apply Matches_cat_cons. eexists. split.
  { apply Matches_run_intro; [now apply ws_run|].
    destruct sp1; [congruence|simpl; lia]. }
  apply Matches_cat_cons. eexists. split.
  { apply Matches_ident_intro; assumption. }
  apply Matches_cat_cons. eexists. split.
  { apply Matches_run_intro; [now apply ws_run|lia]. }
  apply Matches_cat_cons. eexists. split; [apply Matches_Char_intro|].
  apply Matches_cat_cons. eexists. split.
  { apply Matches_run_intro; [|lia].
    eapply Forall_impl; [|exact Fargs]. intros c Hc.
    unfold classMatches. cbn [existsb atomMatches].
    apply N.eqb_neq in Hc. rewrite Hc. reflexivity. }
  apply Matches_cat_cons. eexists. split; [apply Matches_Char_intro|].
  apply Matches_cat_cons. eexists. split.
  { apply Matches_run_intro; [now apply ws_run|lia]. }
  apply Matches_cat_cons. eexists. split; [apply Matches_Char_intro|].
  apply Matches_cat_cons. eexists. split.
  { apply Matches_run_intro; [now apply ws_run|lia]. }
  apply Matches_cat_cons. eexists. split.
  { cbn [Matches plus]. eapply Rep_step.
    - discriminate.
    - apply Matches_cat_cons. eexists. split; [apply Matches_Char_intro|].
      apply Matches_cat_cons. eexists. split; [|reflexivity].
      apply Matches_run_intro; [apply ws_run; exact F5|lia].
    - intros H; discriminate H.
    - apply Rep_stop. now left. }
  apply Matches_cat_cons. eexists. split; [|reflexivity].
  split; [reflexivity|]. intros (k & Hk).
  apply Matches_cat_cons in Hk. destruct Hk as (k1 & (c & Hc1 & _ & Hc2) & _).
  simpl in Hc1. inversion Hc1; subst c. apply N.eqb_eq in Hc2. subst w.
  discriminate Hw.
Qed.

(** Hence a function whose first body line is indented always gets the
    docstring reminder. *)
Lemma indented_body_always_flagged : forall pre sp1 c0 idrest sp2 args sp3 sp4 sp5 w rest,
  sp1 <> [] ->
  Forall (fun c => isWhiteSpace c = true) sp1 ->
  identStartChar c0 = true ->
  Forall (fun c => identPartChar c = true) idrest ->
  Forall (fun c => isWhiteSpace c = true) sp2 ->
  Forall (fun c => c <> ch ")") args ->
  Forall (fun c => isWhiteSpace c = true) sp3 ->
  Forall (fun c => isWhiteSpace c = true) sp4 ->
  Forall (fun c => isWhiteSpace c = true) sp5 ->
  isWhiteSpace w = true ->
  exists sugg,
    suggestionList
      (pre ++ js "def" ++ sp1 ++ (c0 :: idrest) ++ sp2 ++ ch "(" :: args
         ++ ch ")" :: sp3 ++ ch ":" :: sp4 ++ LF :: sp5 ++ w :: rest) = Ok sugg
    /\ In docstringAdvice sugg.
Proof.
  intros pre sp1 c0 idrest sp2 args sp3 sp4 sp5 w rest
    Hsp1 F1 Hc0 Fid F2 Fargs F3 F4 F5 Hw.
  set (code := pre ++ _).
  pose proof (indented_body_matches pre sp1 c0 idrest sp2 args sp3 sp4 sp5 w rest
                Hsp1 F1 Hc0 Fid F2 Fargs F3 F4 F5 Hw) as HM.
  destruct (matchAll_spec docstringRegex wf_docstringRegex eq_refl code)
    as (py & Hpy & _ & Hnil).
  destruct (undeclaredJS_total code) as [und Hund].
  destruct (longFuncs_total code) as [lng Hlng].
  eexists. split; [exact (suggestionList_eq code py und lng Hpy Hund Hlng)|].
  destruct py as [|mt py].
  - exfalso. destruct Hnil as [Hnil _].
    apply (Hnil eq_refl pre _ eq_refl). exact HM.
  - unfold specificAdvice. simpl. now left.
Qed.

(** C4: on a function whose header is followed by a line break,
    indentation and a triple quote, the pattern still matches: the
    white-space run gives back its last blank, after which the text
    ahead starts with a blank instead of the triple quote.  The
    docstring reminder is appended although the docstring is there. *)
Theorem docstring_check_flags_documented_function :
  (exists mt, pyFuncs documentedFunctionInput = Ok [mt]
              /\ item mt 0 = Some (js "def f():" ++ [LF] ++ js "   "))
  /\ suggestionList documentedFunctionInput = Ok [docstringAdvice].
Proof.
  split.
  - eexists. split; vm_compute; reflexivity.
  - vm_compute. reflexivity.
Qed.

(** Without indentation nothing can be given back and the lookahead
    rejects the match. *)
Example docstring_check_unindented :
  pyFuncs (js "def f():" ++ [LF] ++ tripleQuote ++ js "Adds one." ++ tripleQuote)
  = Ok [].
Proof. vm_compute. reflexivity. Qed.

(** * The long-function check *)

(** The long-function pattern needs a line feed that is followed by
    [def ] or by the end of the text. *)
Lemma longFunc_needs_boundary : forall pre suf,
  MatchesAt longFuncRegex pre suf ->
  exists a b, suf = a ++ LF :: b /\ (b = [] \/ exists b', b = js "def " ++ b').
Proof.
  intros pre suf [q M]. unfold longFuncRegex, source, multiline in M.
  assert (Hsplit : exists k, (exists l, Advance l (rev pre, suf) k)
            /\ Matches false (cat [Char LF; Look (Alt (lit "def ") Eol)]) k q).
  { apply Matches_cat_cons in M. destruct M as (k1 & M1 & M).
    apply Matches_cat_cons in M. destruct M as (k2 & M2 & M).
    apply Matches_cat_cons in M. destruct M as (k3 & M3 & M).
    apply Matches_cat_cons in M. destruct M as (k4 & M4 & M).
    apply Matches_cat_cons in M. destruct M as (k5 & M5 & M).
    apply Matches_cat_cons in M. destruct M as (k6 & M6 & M).
    apply Matches_cat_cons in M. destruct M as (k7 & M7 & M).
    apply Matches_cat_cons in M. destruct M as (k8 & M8 & M).
    apply Matches_cat_cons in M. destruct M as (k9 & M9 & M).
    apply Matches_cat_cons in M. destruct M as (k10 & M10 & M).
    exists k10. split; [|exact M].
    apply (Matches_Advance false
             (cat [lit "def"; plus ws; ident; star ws; Char (ch "(");
                   star notParen; Char (ch ")"); Char (ch ":"); star ws;
                   Group 1 (lazyStar (Class false [CSpace; CNonSpace]))])).
    apply Matches_cat_cons. exists k1. split; [exact M1|].
    apply Matches_cat_cons. exists k2. split; [exact M2|].
    apply Matches_cat_cons. exists k3. split; [exact M3|].
    apply Matches_cat_cons. exists k4. split; [exact M4|].
    apply Matches_cat_cons. exists k5. split; [exact M5|].
    apply Matches_cat_cons. exists k6. split; [exact M6|].
    apply Matches_cat_cons. exists k7. split; [exact M7|].
    apply Matches_cat_cons. exists k8. split; [exact M8|].
    apply Matches_cat_cons. exists k9. split; [exact M9|].
    apply Matches_cat_cons. exists k10. split; [exact M10|reflexivity]. }
  destruct Hsplit as (k & (l & [A _]) & M'). simpl in A.
  apply Matches_cat_cons in M'. destruct M' as (k' & (c & S1 & _ & Hc) & M').
  apply N.eqb_eq in Hc. subst c.
  apply Matches_cat_cons in M'. destruct M' as (k'' & [-> (e & Hlook)] & _).
  exists l, (snd k'). split; [now rewrite A, S1|].
  cbn [Matches] in Hlook. destruct Hlook as [Hdef|[_ Hend]].
  - right. apply Matches_lit in Hdef. destruct Hdef as [Hd _]. eauto.
  - left. destruct (snd k'); [reflexivity|discriminate].
Qed.

(** Without such a line feed the check finds nothing, whatever the
    length of the functions. *)
Lemma long_check_silent_without_boundary : forall code,
  (forall a b, code = a ++ LF :: b -> b <> [] /\ forall b', b <> js "def " ++ b') ->
  longFuncs code = Ok [].
Proof.
  intros code H. unfold longFuncs.
  destruct (matchAll_spec longFuncRegex wf_longFuncRegex eq_refl code)
    as (ms & -> & _ & Hnil).
  assert (ms = []) as ->; [|reflexivity].
  apply Hnil. intros pre suf Hs M.
  apply longFunc_needs_boundary in M. destruct M as (a & b & Hsuf & Hb).
  destruct (H (pre ++ a) b) as [Hne Hdef].
  { rewrite Hs, Hsuf, <- app_assoc. reflexivity. }
  destruct Hb as [->|[b' ->]]; [congruence|]. now apply (Hdef b').
Qed.

(** C7: the body is only captured up to a line feed that is followed by
    [def ] or by the end of the text, so the last function of a text
    that does not end in a line feed is not captured at all: for the
    twenty-one line function no decomposition reminder is appended,
    while the same text with a final line feed gets it. *)
Theorem long_function_check_needs_final_newline :
  matchAll longFuncRegex unterminatedLongInput = Ok []
  /\ suggestionList unterminatedLongInput = Ok [docstringAdvice]
  /\ suggestionList (unterminatedLongInput ++ [LF])
     = Ok [docstringAdvice; longFunctionAdvice].
Proof. repeat split; vm_compute; reflexivity. Qed.

(** * The undeclared-assignment check *)

Lemma exec_from_start : forall re s i,
  global re = false -> exec re s i = search re [] s.
Proof. intros re s i H. unfold exec. rewrite H. reflexivity. Qed.

(** The pattern of the filter finds exactly a keyword followed by white
    space. *)
Lemma test_declRegex : forall line,
  test declRegex line = true <-> HasDeclaration line.
Proof.
  intros line. unfold test. rewrite exec_from_start by reflexivity. split.
  - destruct (search declRegex [] line) as [mr|] eqn:E; [intros _|discriminate].
    apply (search_some declRegex wf_declRegex) in E.
    destruct E as (l1 & l & rest & Hline & _ & _ & _ & M & _).
    unfold declRegex, source, multiline in M.
    apply Matches_cat_cons in M. destruct M as (k1 & M1 & M).
    apply Matches_cat_cons in M. destruct M as (k2 & M2 & _).
    apply (Rep_chars _ isWhiteSpace (ws_Step false)) in M2; [|reflexivity].
    destruct M2 as (lw & [A2 _] & F & Hlw).
    destruct lw as [|w lw]; [simpl in Hlw; lia|].
    apply Forall_inv in F. rename F into Hw.
    assert (Hkw : exists kw, In kw declarationKeywords /\ Advance kw (rev l1 ++ [], l ++ rest) k1).
    { cbn [Matches] in M1. destruct M1 as [M1|[M1|M1]]; apply Matches_lit in M1.
      - exists (js "const"). split; [simpl; auto|exact M1].
      - exists (js "let"). split; [simpl; auto|exact M1].
      - exists (js "var"). split; [simpl; auto|exact M1]. }
    destruct Hkw as (kw & Hin & [A1 _]). simpl in A1.
    exists l1, kw, w, (lw ++ snd k2). split; [|split; assumption].
    rewrite Hline, A1, A2. reflexivity.
  - intros (pre & kw & w & post & Hline & Hin & Hw).
    destruct (search declRegex [] line) as [mr|] eqn:E; [reflexivity|].
    exfalso.
    apply (search_none declRegex wf_declRegex _ _ E pre (kw ++ w :: post) Hline).
    exists (w :: rev kw ++ rev pre ++ [], post).
    unfold declRegex, source, multiline.
    apply Matches_cat_cons. exists (rev kw ++ rev pre ++ [], w :: post). split.
    + assert (A : Advance kw (rev pre ++ [], kw ++ w :: post)
                    (rev kw ++ rev pre ++ [], w :: post))
        by (split; reflexivity).
      cbn [Matches]. simpl in Hin. destruct Hin as [<-|[<-|[<-|[]]]].
      * left. apply Matches_lit. exact A.
      * right. left. apply Matches_lit. exact A.
      * right. right. apply Matches_lit. exact A.
    + apply Matches_cat_cons. exists (w :: rev kw ++ rev pre ++ [], post).
      split; [|reflexivity].
      apply (Rep_chars_intro _ isWhiteSpace (Step_ws false) [w]).
      * constructor; [assumption|constructor].
      * simpl. lia.
      * split; reflexivity.
Qed.

Lemma atLineStart_rev : forall pre,
  atLineStart true (rev pre) = true -> AtLineStart pre.
Proof.
  intros pre H. destruct (rev pre) as [|t l] eqn:E.
  - left. apply (f_equal (@rev N)) in E. now rewrite rev_involutive in E.
  - right. exists (rev l), t. split; [|exact H].
    apply (f_equal (@rev N)) in E. now rewrite rev_involutive in E.
Qed.

Lemma atLineEnd_AtLineEnd : forall rest,
  atLineEnd true rest = true -> AtLineEnd rest.
Proof.
  intros [|t rest] H; [now left|]. right. exists t, rest. auto.
Qed.

Lemma AtLineStart_atLineStart : forall pre,
  AtLineStart pre -> atLineStart true (rev pre) = true.
Proof.
  intros pre [->|(pre' & t & -> & Ht)]; [reflexivity|].
  rewrite rev_app_distr. simpl. exact Ht.
Qed.

Lemma AtLineEnd_atLineEnd : forall rest,
  AtLineEnd rest -> atLineEnd true rest = true.
Proof. intros rest [->|(t & r & -> & Ht)]; [reflexivity|exact Ht]. Qed.

(** Every match of the assignment pattern starts at a line start, ends
    at a line end and has the text of an assignment. *)
Lemma assign_shape : forall code mt,
  IsMatch assignRegex code mt ->
  exists pre l rest,
    code = pre ++ l ++ rest
    /\ index mt = length pre
    /\ lastIdx mt = length pre + length l
    /\ item mt 0 = Some l
    /\ AtLineStart pre /\ AssignmentText l /\ AtLineEnd rest.
Proof.
  intros code mt (pre & l & rest & Hcode & Hidx & Hlast & H0 & M & _).
  exists pre, l, rest. repeat (split; [assumption|]).
  unfold assignRegex, source, multiline in M.
  apply Matches_cat_cons in M. destruct M as (k0 & [-> Hbol] & M).
  apply Matches_cat_cons in M. destruct M as (k1 & M1 & M).
  apply Matches_cat_cons in M. destruct M as (k2 & M2 & M).
  apply Matches_cat_cons in M. destruct M as (k3 & M3 & M).
  apply Matches_cat_cons in M. destruct M as (k4 & M4 & M).
  apply Matches_cat_cons in M. destruct M as (k5 & M5 & M).
  apply Matches_cat_cons in M. destruct M as (k6 & [-> Heol] & M).
  simpl in M. subst k5. simpl in Hbol, Heol.
  split; [now apply atLineStart_rev|]. split; [|now apply atLineEnd_AtLineEnd].
  apply (Rep_chars _ blankOrTab) in M1;
    [|intros p q HS; eapply Step_weaken; [apply blankOrTab_class|exact HS]
     |reflexivity].
  destruct M1 as (indent & [A1 _] & F1 & _).
  cbn [Matches ident identStart star] in M2. destruct M2 as (k' & S2 & R2).
  apply (Step_weaken _ identStartChar _ _ identStart_class) in S2.
  destruct S2 as (c0 & A2 & _ & Hc0).
  apply (Rep_chars _ identPartChar) in R2;
    [|intros p q HS; eapply Step_weaken; [apply identPart_class|exact HS]
     |reflexivity].
  destruct R2 as (idrest & [A2' _] & F2 & _).
  apply (Rep_chars _ isWhiteSpace (ws_Step true)) in M3; [|reflexivity].
  destruct M3 as (sp & [A3 _] & F3 & _).
  destruct M4 as (e & A4 & _ & He). apply N.eqb_eq in He. subst e.
  apply (Rep_chars _ (fun d => negb (isLineTerminator d))) in M5;
    [|intros p q HS; exact HS|reflexivity].
  destruct M5 as (body & [A5 _] & F5 & Hbody).
  simpl in A1. rewrite A1, A2, A2', A3, A4, A5 in *.
  exists indent, c0, idrest, sp, body.
  split.
  { apply (app_inv_tail rest). rewrite A1. simpl.
    repeat (rewrite <- app_assoc; simpl). reflexivity. }
  repeat (split; [assumption|]). split.
  - intros ->. simpl in Hbody. lia.
  - eapply Forall_impl; [|exact F5]. simpl. intros c Hc.
    now apply negb_true_iff in Hc.
Qed.

(** The assignment pattern matches wherever an assignment text lies
    between a line start and a line end. *)
Lemma assign_text_matches : forall pre l rest,
  AtLineStart pre -> AssignmentText l -> AtLineEnd rest ->
  MatchesAt assignRegex pre (l ++ rest).
Proof.
  intros pre l rest Hs (ind & c0 & idr & sp & body & -> & Find & Hc0 & Fid & Fsp
                        & Hbody & Fb) He.
  repeat (rewrite <- app_assoc; cbn [app]).
  unfold MatchesAt, assignRegex, source, multiline.
  eexists.
  apply Matches_cat_cons. eexists. split.
  { split; [reflexivity|]. simpl. now apply AtLineStart_atLineStart. }
  apply Matches_cat_cons. eexists. split.
  { apply Matches_run_intro; [|lia].
    eapply Forall_impl; [|exact Find]. intros c Hc. cbv beta.
    rewrite blankOrTab_class. exact Hc. }
  apply Matches_cat_cons. eexists. split.
  { apply Matches_ident_intro; assumption. }
  apply Matches_cat_cons. eexists. split.
  { apply Matches_run_intro; [now apply ws_run|lia]. }
  apply Matches_cat_cons. eexists. split; [apply Matches_Char_intro|].
  apply Matches_cat_cons. eexists. split.
  { apply Matches_dots_intro; [exact Fb|].
    destruct body; [congruence|simpl; lia]. }
  apply Matches_cat_cons. eexists. split; [|reflexivity].
  split; [reflexivity|]. simpl. now apply AtLineEnd_atLineEnd.
Qed.

Lemma nonempty_assignRegex : NonEmpty assignRegex.
Proof.
  intros p q M. unfold assignRegex, source, multiline in M.
  apply Matches_cat_cons in M. destruct M as (k0 & [-> _] & M).
  apply Matches_cat_cons in M. destruct M as (k1 & M1 & M).
  apply Matches_cat_cons in M. destruct M as (k2 & M2 & M).
  apply Matches_length in M1. apply ident_nonempty in M2.
  apply Matches_length in M. lia.
Qed.

(** For a pattern whose matches are never empty, [matchAll] collects
    the same successive matches as the loop over [exec]. *)
Lemma matchAllFrom_scan : forall re s,
  wfRegExp re -> global re = true -> NonEmpty re ->
  forall fuel i,
    i <= length s -> length s < fuel + i ->
    exists ms, matchAllFrom re s fuel i = Ok ms /\ Scan re s i ms.
Proof.
  intros re s Hwf Hg Hne. induction fuel as [|fuel IH]; intros i Hi Hfuel; [lia|].
  simpl. destruct (exec re s i) as [mr|] eqn:E.
  - destruct (exec_some re Hwf Hg s i mr E) as (Hge & Hm & Hleft).
    assert (Hlt : index mr < lastIdx mr)
      by (eapply IsMatch_nonempty; eassumption).
    pose proof (IsMatch_bounds re s mr Hm) as Hb.
    replace (lastIdx mr =? index mr) with false
      by (symmetry; apply Nat.eqb_neq; lia).
    destruct (IH (lastIdx mr)) as (ms & Hex & Hsc); [lia|lia|].
    exists (mr :: ms). rewrite Hex. split; [reflexivity|now constructor].
  - exists []. split; [reflexivity|]. constructor.
    apply (exec_none re Hwf Hg s i E).
Qed.

Lemma matchAll_assign : forall code,
  exists all, matchAll assignRegex code = Ok all /\ AllMatches assignRegex code all.
Proof.
  intros code.
  destruct (matchAllFrom_scan assignRegex code wf_assignRegex eq_refl
              nonempty_assignRegex (length code + 2) 0) as (ms & H & Hs); [lia|lia|].
  exists ms. split; [exact H|].
  apply Scan_AllMatches; auto using wf_assignRegex, nonempty_assignRegex.
Qed.

Lemma declarationAdvice_distinct :
  declarationAdvice <> docstringAdvice
  /\ declarationAdvice <> longFunctionAdvice
  /\ declarationAdvice <> namingAdvice
  /\ declarationAdvice <> errorHandlingAdvice.
Proof.
  repeat split; intro H; vm_compute in H; discriminate H.
Qed.

Lemma declaration_in_suggestions : forall py und lng,
  In declarationAdvice
     (match specificAdvice py und lng with
      | [] => [namingAdvice; errorHandlingAdvice]
      | s => s
      end)
  <-> und <> [].
Proof.
  intros py und lng. destruct declarationAdvice_distinct as (D1 & D2 & D3 & D4).
  unfold specificAdvice.
  set (a := docstringAdvice) in *. set (b := declarationAdvice) in *.
  set (c := longFunctionAdvice) in *. set (d := namingAdvice) in *.
  set (e := errorHandlingAdvice) in *. clearbody a b c d e.
  destruct und as [|u und].
  - split; [|congruence]. intros H. exfalso.
    destruct py, lng; simpl in H; intuition congruence.
  - split; [discriminate|]. intros _.
    destruct py, lng; simpl; auto.
Qed.

(** ** Every assignment text is seen by the check *)

Lemma run_unique : forall (f : N -> bool) l1 l2 r1 r2,
  l1 ++ r1 = l2 ++ r2 ->
  Forall (fun c => f c = true) l1 -> Forall (fun c => f c = true) l2 ->
  StartsOff f r1 -> StartsOff f r2 ->
  l1 = l2 /\ r1 = r2.
Proof.
  intros f. induction l1 as [|a l1 IH]; intros l2 r1 r2 H F1 F2 S1 S2.
  - destruct l2 as [|b l2]; [auto|]. simpl in H. subst r1. simpl in S1.
    apply Forall_inv in F2. congruence.
  - destruct l2 as [|b l2].
    + simpl in H. subst r2. simpl in S2. apply Forall_inv in F1. congruence.
    + simpl in H. inversion H as [[Hab Ht]]. subst b.
      destruct (IH l2 r1 r2) as [-> ->]; auto.
      * now apply Forall_inv_tail in F1.
      * now apply Forall_inv_tail in F2.
Qed.

Lemma peel_run : forall (g : N -> bool) u v p t q,
  u ++ v = p ++ t :: q -> Forall (fun c => g c = true) u -> g t = false ->
  exists u', p = u ++ u' /\ v = u' ++ t :: q.
Proof.
  intros g. induction u as [|a u IH]; intros v p t q H F Ht.
  - exists p. auto.
  - destruct p as [|b p]; simpl in H; inversion H as [[Hab Hr]]; subst.
    + apply Forall_inv in F. congruence.
    + destruct (IH v p t q Hr) as (u' & -> & ->);
        [now apply Forall_inv_tail in F|assumption|].
      exists u'. auto.
Qed.

Lemma peel_length : forall (u v p w : list N),
  u ++ v = p ++ w -> length u <= length p ->
  exists d, p = u ++ d /\ v = d ++ w.
Proof.
  induction u as [|a u IH]; intros v p w H Hl.
  - exists p. auto.
  - destruct p as [|b p]; [simpl in Hl; lia|].
    simpl in H. inversion H as [[Hab Hr]]. subst b.
    destruct (IH v p w Hr) as (d & -> & ->); [simpl in Hl; lia|].
    exists d. auto.
Qed.

Lemma split_run : forall (sp z d : list N) t w,
  sp ++ z = d ++ t :: w ->
  (exists s1 s2, sp = s1 ++ t :: s2 /\ d = s1 /\ w = s2 ++ z)
  \/ (exists d3, d = sp ++ d3 /\ z = d3 ++ t :: w).
Proof.
  induction sp as [|a sp IH]; intros z d t w H.
  - right. exists d. auto.
  - destruct d as [|b d]; simpl in H; inversion H as [[Hab Hr]]; subst.
    + left. exists [], sp. auto.
    + destruct (IH z d t w Hr) as [(s1 & s2 & -> & -> & ->)|(d3 & -> & ->)].
      * left. exists (b :: s1), s2. auto.
      * right. exists d3. auto.
Qed.

Lemma identStart_range : forall c,
  identStartChar c = true -> (65 <= c <= 122)%N /\ c <> 61%N.
Proof.
  intros c H. unfold identStartChar in H.
  rewrite !orb_true_iff, !andb_true_iff, !N.leb_le, N.eqb_eq in H. lia.
Qed.

Lemma identPart_range : forall c,
  identPartChar c = true -> (48 <= c <= 122)%N /\ c <> 61%N.
Proof.
  intros c H. unfold identPartChar, identStartChar in H.
  rewrite !orb_true_iff, !andb_true_iff, !N.leb_le, N.eqb_eq in H. lia.
Qed.

Lemma visible_not_space : forall c,
  (48 <= c <= 122)%N -> isWhiteSpace c = false /\ isLineTerminator c = false.
Proof.
  intros c H. split.
  - destruct (isWhiteSpace c) eqn:E; [|reflexivity]. unfold isWhiteSpace in E.
    rewrite !orb_true_iff, !andb_true_iff, !N.leb_le, !N.eqb_eq in E. lia.
  - destruct (isLineTerminator c) eqn:E; [|reflexivity]. unfold isLineTerminator in E.
    rewrite !orb_true_iff, !N.eqb_eq in E. lia.
Qed.

Lemma blank_is_space : forall c,
  blankOrTab c = true ->
  isWhiteSpace c = true /\ isLineTerminator c = false /\ c <> 61%N.
Proof.
  intros c H. unfold blankOrTab in H. rewrite orb_true_iff, !N.eqb_eq in H.
  destruct H as [->| ->]; repeat split; discriminate.
Qed.

Lemma app_same_length : forall (a a' b b' : list N),
  a ++ b = a' ++ b' -> length a = length a' -> a = a' /\ b = b'.
Proof.
  induction a as [|x a IH]; intros [|y a'] b b' H Hl; simpl in *; try lia; auto.
  inversion H as [[Hx Hr]]. destruct (IH a' b b' Hr) as [-> ->]; [lia|]. auto.
Qed.

(** The text of an assignment that starts at a given position and runs
    to a line end is determined by the input. *)
Lemma assignment_text_unique : forall l l' rest rest',
  AssignmentText l -> AssignmentText l' ->
  AtLineEnd rest -> AtLineEnd rest' ->
  l ++ rest = l' ++ rest' -> l = l'.
Proof.
  intros l l' rest rest'
    (ind & c0 & idr & sp & body & -> & Find & Hc0 & Fid & Fsp & _ & Fb)
    (ind' & c0' & idr' & sp' & body' & -> & Find' & Hc0' & Fid' & Fsp' & _ & Fb')
    Hend Hend' H.
  repeat (rewrite <- app_assoc in H; simpl in H).
  assert (Hoff : forall c, identStartChar c = true -> blankOrTab c = false).
  { intros c Hc. destruct (blankOrTab c) eqn:E; [|reflexivity].
    apply blank_is_space in E. destruct E as (E & _).
    apply identStart_range in Hc.
    destruct (visible_not_space c) as [E' _]; [lia|congruence]. }
  destruct (run_unique blankOrTab ind ind' _ _ H Find Find')
    as [-> H1]; [simpl; auto|simpl; auto|].
  inversion H1 as [[Hc H2]]. subst c0'. clear H1 H.
  assert (Hsp : forall s r, Forall (fun c => isWhiteSpace c = true) s ->
                  StartsOff identPartChar (s ++ ch "=" :: r)).
  { intros s r Fs. destruct s as [|a s]; simpl; [reflexivity|].
    apply Forall_inv in Fs. destruct (identPartChar a) eqn:E; [|reflexivity].
    apply identPart_range in E. destruct (visible_not_space a) as [E' _]; [lia|].
    congruence. }
  destruct (run_unique identPartChar idr idr' _ _ H2 Fid Fid')
    as [-> H3]; [now apply Hsp|now apply Hsp|].
  destruct (run_unique isWhiteSpace sp sp' _ _ H3 Fsp Fsp')
    as [-> H4]; [reflexivity|reflexivity|].
  inversion H4 as [H5].
  assert (Hoff' : forall r, AtLineEnd r ->
            StartsOff (fun c => negb (isLineTerminator c)) r).
  { intros r [->|(t & r' & -> & Ht)]; simpl; [exact I|]. now rewrite Ht. }
  assert (Fn : forall b, Forall (fun c => isLineTerminator c = false) b ->
                 Forall (fun c => negb (isLineTerminator c) = true) b).
  { intros b Fb0. eapply Forall_impl; [|exact Fb0]. simpl. intros c Hc0''.
    now rewrite Hc0''. }
  destruct (run_unique (fun c => negb (isLineTerminator c)) body body' rest rest')
    as [-> _]; auto.
Qed.

(** A line start at which an assignment begins never lies strictly
    inside the text of another match: the only line breaks inside a
    match are in the white space before its equals sign, and what
    follows them there is white space or the equals sign. *)
Lemma assign_no_swallow : forall code pre l rest pre' l' rest',
  code = pre ++ l ++ rest -> AtLineStart pre -> AssignmentText l ->
  code = pre' ++ l' ++ rest' -> AssignmentText l' ->
  length pre' < length pre < length pre' + length l' ->
  False.
Proof.
  intros code pre l rest pre' l' rest' Hc Hs
    (ind & c0 & idr & sp & body & -> & Find & Hc0 & Fid & Fsp & _ & Fb)
    Hc'
    (ind' & c0' & idr' & sp' & body' & -> & Find' & Hc0' & Fid' & Fsp' & _ & Fb')
    [Hlo Hhi].
  destruct Hs as [->|(pre'' & t & -> & Ht)]; [simpl in Hlo; lia|].
  rewrite Hc in Hc'. clear Hc code.
  repeat (rewrite <- app_assoc in Hc'; simpl in Hc').
  assert (L1 : length (pre'' ++ [t]) = S (length pre''))
    by (rewrite length_app; simpl; lia).
  assert (L2 : length (ind' ++ (c0' :: idr') ++ sp' ++ ch "=" :: body')
               = length ind' + S (length idr') + length sp' + S (length body'))
    by (repeat (rewrite length_app; simpl); lia).
  rewrite L1 in Hlo, Hhi. rewrite L2 in Hhi. clear L1 L2.
  symmetry in Hc'.
  destruct (peel_length _ _ _ _ Hc') as (d & -> & H1); [lia|].
  assert (NL : forall u, Forall (fun c => isLineTerminator c = false) u ->
                 Forall (fun c => negb (isLineTerminator c) = true) u).
  { intros u Fu. eapply Forall_impl; [|exact Fu]. intros c Hc. cbv beta.
    now rewrite Hc. }
  assert (Ht' : negb (isLineTerminator t) = false) by now rewrite Ht.
  destruct (peel_run (fun c => negb (isLineTerminator c)) _ _ _ _ _ H1)
    as (d1 & -> & H2); [|exact Ht'|].
  { apply NL. eapply Forall_impl; [|exact Find']. intros c Hc.
    now apply blank_is_space in Hc. }
  destruct (peel_run (fun c => negb (isLineTerminator c)) (c0' :: idr')
              (sp' ++ ch "=" :: body' ++ rest') d1 t _ H2)
    as (d2 & -> & H3); [|exact Ht'|].
  { apply NL. constructor.
    - apply identStart_range in Hc0'. apply visible_not_space. lia.
    - eapply Forall_impl; [|exact Fid']. intros c Hc.
      apply identPart_range in Hc. apply visible_not_space. lia. }
  destruct (split_run _ _ _ _ _ H3)
    as [(s1 & s2 & -> & -> & H4)|(d3 & -> & H4)].
  - apply Forall_app in Fsp'. destruct Fsp' as [_ Fs2].
    apply Forall_inv_tail in Fs2.
    destruct (run_unique isWhiteSpace ind s2 _ _ H4) as [_ H5].
    + eapply Forall_impl; [|exact Find]. intros c Hc.
      now apply blank_is_space in Hc.
    + exact Fs2.
    + simpl. apply identStart_range in Hc0. apply visible_not_space. lia.
    + reflexivity.
    + injection H5 as H6 _. apply identStart_range in Hc0.
      destruct Hc0 as [_ Hc0]. apply Hc0. exact H6.
  - destruct d3 as [|e d3]; simpl in H4; injection H4 as He H5.
    + subst t. discriminate Ht.
    + destruct (peel_run (fun c => negb (isLineTerminator c)) _ _ _ _ _ H5)
        as (d5 & -> & _); [now apply NL|exact Ht'|].
      repeat (rewrite length_app in Hhi; simpl in Hhi). lia.
Qed.

(** Every assignment text between a line start and a line end is one
    of the matches. *)
Lemma assign_line_found : forall code all pre l rest,
  AllMatches assignRegex code all ->
  code = pre ++ l ++ rest ->
  AtLineStart pre -> AssignmentText l -> AtLineEnd rest ->
  exists mt, In mt all /\ index mt = length pre /\ item mt 0 = Some l.
Proof.
  intros code all pre l rest (_ & Hm & Hcov) Hc Hs Ht He.
  destruct (Hcov pre (l ++ rest) Hc (assign_text_matches pre l rest Hs Ht He))
    as (mt & Hin & Hlo & Hhi).
  exists mt. split; [exact Hin|].
  destruct (Hm mt Hin) as [HM _].
  destruct (assign_shape code mt HM)
    as (pre' & l' & rest' & Hc' & Hi & Hl & H0 & Hs' & Ht' & He').
  destruct (Nat.eq_dec (length pre') (length pre)) as [E|E].
  - rewrite Hc in Hc'. destruct (app_same_length _ _ _ _ Hc' (eq_sym E)) as [-> H1].
    split; [exact Hi|]. rewrite H0. apply f_equal. symmetry.
    exact (assignment_text_unique l l' rest rest' Ht Ht' He He' H1).
  - exfalso. apply (assign_no_swallow code pre l rest pre' l' rest'); auto. lia.
Qed.

(** ** The check as a whole *)

(** C6, as stated, fails: an assignment whose right-hand side is the
    string literal holding only the keyword var contains a declaration
    keyword, yet the line is flagged and the reminder is appended. *)
Lemma undeclared_counterexample :
  containsKeyword quotedVarInput = true
  /\ (exists mt, undeclaredJS quotedVarInput = Ok [mt]
                 /\ item mt 0 = Some quotedVarInput)
  /\ suggestionList quotedVarInput = Ok [declarationAdvice].
Proof.
  split; [vm_compute; reflexivity|]. split.
  - eexists. split; vm_compute; reflexivity.
  - vm_compute. reflexivity.
Qed.

(** The pattern lets white space before the equals sign run over line
    breaks: here neither line has the form of an assignment, yet the
    two together are flagged. *)
Example assignment_across_lines :
  exists mt, undeclaredJS (js "x" ++ [LF] ++ js "= 5") = Ok [mt]
             /\ item mt 0 = Some (js "x" ++ [LF] ++ js "= 5").
Proof. eexists. split; vm_compute; reflexivity. Qed.

(** C6, amended: the check flags a text exactly when it is an
    assignment text lying between a line start and a line end (blanks
    and tabs, an identifier, white space, an equals sign and at least
    one more code unit of the same line) and it contains none of the
    three declaration keywords directly followed by a white space code
    unit; the declaration reminder is appended exactly when some text
    is flagged. *)
Theorem undeclared_assignment_check : forall code,
  exists all flagged sugg,
    matchAll assignRegex code = Ok all
    /\ undeclaredJS code = Ok flagged
    /\ suggestionList code = Ok sugg
    /\ (forall mt, In mt all ->
          exists pre l rest,
            code = pre ++ l ++ rest
            /\ index mt = length pre
            /\ item mt 0 = Some l
            /\ AtLineStart pre /\ AssignmentText l /\ AtLineEnd rest)
    /\ (forall pre l rest,
          code = pre ++ l ++ rest ->
          AtLineStart pre -> AssignmentText l -> AtLineEnd rest ->
          exists mt, In mt all /\ index mt = length pre /\ item mt 0 = Some l)
    /\ (forall mt, In mt flagged <->
          In mt all /\ ~ HasDeclaration (toString (item mt 0)))
    /\ (In declarationAdvice sugg <-> flagged <> []).
Proof.
  intros code. destruct (matchAll_assign code) as (all & Hall & HA).
  destruct (pyFuncs_total code) as [py Hpy].
  destruct (longFuncs_total code) as [lng Hlng].
  set (flagged := filter (fun mt => negb (test declRegex (toString (item mt 0)))) all).
  assert (Hund : undeclaredJS code = Ok flagged).
  { unfold undeclaredJS. rewrite Hall. reflexivity. }
  exists all, flagged. eexists.
  split; [exact Hall|]. split; [exact Hund|].
  split; [exact (suggestionList_eq code py flagged lng Hpy Hund Hlng)|].
  split.
  { intros mt Hin. destruct HA as (_ & HA & _). destruct (HA mt Hin) as [HM _].
    destruct (assign_shape code mt HM)
      as (pre & l & rest & H1 & H2 & _ & H3 & H4 & H5 & H6).
    exists pre, l, rest. repeat (split; [assumption|]). assumption. }
  split.
  { intros pre l rest Hc Hs Ht He.
    exact (assign_line_found code all pre l rest HA Hc Hs Ht He). }
  split.
  { intros mt. unfold flagged. rewrite filter_In, negb_true_iff.
    rewrite <- test_declRegex.
    destruct (test declRegex (toString (item mt 0))); intuition congruence. }
  apply declaration_in_suggestions.
Qed.

(** * What the captures hold *)

Lemma m_cat_cons : forall ml r rs x c,
  m ml (cat (r :: rs)) x c = m ml r x (fun y => m ml (cat rs) y c).
Proof. reflexivity. Qed.

Lemma parensOf_lit : forall s, parensOf (lit s) = [].
Proof.
  intros s. unfold lit. induction (js s) as [|c l IH]; [reflexivity|exact IH].
Qed.

(** A pattern without parentheses leaves every capture as it was. *)
Lemma plain_step : forall ml r x c z,
  parensOf r = [] ->
  m ml r x c = Some z ->
  exists y, Matches ml r (posOf x) (posOf y)
    /\ (forall n, getCap n (captures y) = getCap n (captures x))
    /\ c y = Some z.
Proof.
  intros ml r x c z Hp H.
  destruct (m_spec ml r) as [S _]; [rewrite Hp; constructor|].
  apply S in H. destruct H as (y & Hc & M & K & _).
  exists y. split; [exact M|]. split; [|exact Hc].
  intros n. apply K. rewrite Hp. intros [].
Qed.

(** A parenthesis captures the text that its pattern matched. *)
Lemma group_step : forall ml n r x c z,
  NoDup (parensOf r) ->
  m ml (Group n r) x c = Some z ->
  exists y l, Matches ml r (posOf x) (posOf y)
    /\ after x = l ++ after y
    /\ keeps (parensOf r) (captures x) (captures y)
    /\ c (mkState (before y) (after y) (setCap n (Some l) (captures y))) = Some z.
Proof.
  intros ml n r x c z Hnd H. cbn [m] in H.
  destruct (m_spec ml r Hnd) as [S _].
  apply S in H. destruct H as (y & Hc & M & K & _).
  destruct (Matches_Advance ml r _ _ M) as (l & A & _). cbn [posOf fst snd] in A.
  exists y, l. split; [exact M|]. split; [exact A|]. split; [exact K|].
  cbv beta zeta in Hc. rewrite A in Hc. rewrite length_app in Hc.
  replace (length l + length (after y) - length (after y)) with (length l) in Hc by lia.
  rewrite firstn_length_app in Hc. exact Hc.
Qed.

Lemma Matches_Char_shape : forall ml c p q,
  Matches ml (Char c) p q -> snd p = c :: snd q.
Proof.
  intros ml c p q (d & H1 & _ & H2). apply N.eqb_eq in H2. now subst d.
Qed.

Lemma Matches_run_shape : forall ml min greedy invert atoms p q,
  Matches ml (Quant min None greedy (Class invert atoms)) p q ->
  exists l, snd p = l ++ snd q
    /\ Forall (fun c => classMatches invert atoms c = true) l
    /\ min <= length l.
Proof.
  intros ml min greedy invert atoms p q M. cbn [Matches] in M.
  apply (Rep_chars _ (classMatches invert atoms)) in M;
    [|intros a b HS; exact HS|reflexivity].
  destruct M as (l & [A _] & F & Hl). eauto.
Qed.

Lemma ws_run_shape : forall ml min p q,
  Matches ml (Quant min None true ws) p q ->
  exists l, snd p = l ++ snd q
    /\ Forall (fun c => isWhiteSpace c = true) l
    /\ min <= length l.
Proof.
  intros ml min p q M. apply Matches_run_shape in M.
  destruct M as (l & A & F & Hl). exists l. split; [exact A|]. split; [|exact Hl].
  eapply Forall_impl; [|exact F]. intros c Hc. unfold classMatches in Hc.
  simpl in Hc. now rewrite orb_false_r in Hc.
Qed.

Lemma Matches_ident_shape : forall ml p q,
  Matches ml ident p q ->
  exists name, IsIdentifier name /\ snd p = name ++ snd q.
Proof.
  intros ml p q M. cbn [Matches ident identStart star] in M.
  destruct M as (k & S1 & R).
  apply (Step_weaken _ identStartChar _ _ identStart_class) in S1.
  destruct S1 as (c0 & A1 & _ & Hc0).
  apply (Rep_chars _ identPartChar) in R;
    [|intros a b HS; eapply Step_weaken; [apply identPart_class|exact HS]
     |reflexivity].
  destruct R as (idrest & [A2 _] & F & _).
  exists (c0 :: idrest). split.
  - exists c0, idrest. auto.
  - rewrite A1, A2. reflexivity.
Qed.

Lemma notParen_run_shape : forall ml p q,
  Matches ml (star notParen) p q ->
  exists l, snd p = l ++ snd q /\ Forall (fun c => c <> ch ")") l.
Proof.
  intros ml p q M. apply Matches_run_shape in M.
  destruct M as (l & A & F & _). exists l. split; [exact A|].
  eapply Forall_impl; [|exact F]. intros c Hc. unfold classMatches in Hc.
  cbn [existsb atomMatches] in Hc. intros ->. rewrite N.eqb_refl in Hc.
  discriminate Hc.
Qed.

(** A match of a keyword pattern: the text it covers and what its two
    parentheses hold. *)
Lemma sig_matcher : forall kw x z,
  m false (sigPattern kw) x (fun y => Some y) = Some z ->
  exists ws1 name ws2 ptext,
    after x = js kw ++ ws1 ++ name ++ ws2 ++ ch "(" :: ptext ++ ch ")" :: after z
    /\ getCap 1 (captures z) = Some name
    /\ getCap 2 (captures z) = Some ptext
    /\ ws1 <> []
    /\ Forall (fun c => isWhiteSpace c = true) ws1
    /\ IsIdentifier name
    /\ Forall (fun c => isWhiteSpace c = true) ws2
    /\ Forall (fun c => c <> ch ")") ptext.
Proof.
  intros kw x z H. unfold sigPattern in H.
  rewrite m_cat_cons in H. apply plain_step in H; [|apply parensOf_lit].
  destruct H as (y1 & M1 & _ & H). apply Matches_lit in M1. destruct M1 as [A1 _].
  rewrite m_cat_cons in H. apply plain_step in H; [|reflexivity].
  destruct H as (y2 & M2 & _ & H). apply ws_run_shape in M2.
  destruct M2 as (ws1 & A2 & F1 & Hws1).
  rewrite m_cat_cons in H. apply group_step in H; [|constructor].
  destruct H as (y3 & name & M3 & A3 & _ & H).
  apply Matches_ident_shape in M3. destruct M3 as (name' & Hid & A3').
  cbn [posOf fst snd] in A1, A2, A3'.
  assert (name' = name) as ->.
  { apply (app_inv_tail (after y3)). now rewrite <- A3, <- A3'. }
  rewrite m_cat_cons in H. apply plain_step in H; [|reflexivity].
  destruct H as (y4 & M4 & K4 & H). apply ws_run_shape in M4.
  destruct M4 as (ws2 & A4 & F2 & _).
  rewrite m_cat_cons in H. apply plain_step in H; [|reflexivity].
  destruct H as (y5 & M5 & K5 & H). apply Matches_Char_shape in M5.
  rewrite m_cat_cons in H. apply group_step in H; [|constructor].
  destruct H as (y6 & ptext & M6 & A6 & K6 & H).
  apply notParen_run_shape in M6. destruct M6 as (ptext' & A6' & Fp).
  cbn [posOf fst snd before after captures] in A4, M5, A6', K4, K5, K6.
  assert (ptext' = ptext) as ->.
  { apply (app_inv_tail (after y6)). now rewrite <- A6, <- A6'. }
  rewrite m_cat_cons in H. apply plain_step in H; [|reflexivity].
  destruct H as (y7 & M7 & K7 & H). apply Matches_Char_shape in M7.
  cbn [posOf fst snd before after captures] in M7, K7.
  cbn [cat fold_right m] in H. inversion H; subst z.
  exists ws1, name, ws2, ptext.
  split.
  { rewrite A1, A2, A3, A4, M5, A6, M7. reflexivity. }
  split.
  { rewrite K7, getCap_setCap_other by discriminate.
    rewrite (K6 1) by (intros []). rewrite K5, K4. apply getCap_setCap_same. }
  split; [rewrite K7; apply getCap_setCap_same|].
  split; [intros ->; simpl in Hws1; lia|].
  repeat (split; [assumption|]). assumption.
Qed.

(** A match of the arrow pattern. *)
Lemma arrow_matcher : forall x z,
  m false (source arrowFuncRegex) x (fun y => Some y) = Some z ->
  exists name ws1 ws2 ptext ws3,
    after x = name ++ ws1 ++ ch "=" :: ws2 ++ ch "(" :: ptext ++ ch ")"
                :: ws3 ++ js "=>" ++ after z
    /\ getCap 1 (captures z) = Some name
    /\ getCap 2 (captures z) = Some ptext
    /\ IsIdentifier name
    /\ Forall (fun c => isWhiteSpace c = true) ws1
    /\ Forall (fun c => isWhiteSpace c = true) ws2
    /\ Forall (fun c => c <> ch ")") ptext
    /\ Forall (fun c => isWhiteSpace c = true) ws3.
Proof.
  intros x z H. unfold arrowFuncRegex, source in H.
  rewrite m_cat_cons in H. apply group_step in H; [|constructor].
  destruct H as (y1 & name & M1 & A1 & _ & H).
  apply Matches_ident_shape in M1. destruct M1 as (name' & Hid & A1').
  cbn [posOf fst snd] in A1'.
  assert (name' = name) as ->.
  { apply (app_inv_tail (after y1)). now rewrite <- A1, <- A1'. }
  rewrite m_cat_cons in H. apply plain_step in H; [|reflexivity].
  destruct H as (y2 & M2 & K2 & H). apply ws_run_shape in M2.
  destruct M2 as (ws1 & A2 & F1 & _).
  rewrite m_cat_cons in H. apply plain_step in H; [|reflexivity].
  destruct H as (y3 & M3 & K3 & H). apply Matches_Char_shape in M3.
  rewrite m_cat_cons in H. apply plain_step in H; [|reflexivity].
  destruct H as (y4 & M4 & K4 & H). apply ws_run_shape in M4.
  destruct M4 as (ws2 & A4 & F2 & _).
  rewrite m_cat_cons in H. apply plain_step in H; [|reflexivity].
  destruct H as (y5 & M5 & K5 & H). apply Matches_Char_shape in M5.
  rewrite m_cat_cons in H. apply group_step in H; [|constructor].
  destruct H as (y6 & ptext & M6 & A6 & K6 & H).
  apply notParen_run_shape in M6. destruct M6 as (ptext' & A6' & Fp).
  cbn [posOf fst snd before after captures] in A2, M3, A4, M5, A6', K2, K3, K4, K5, K6.
  assert (ptext' = ptext) as ->.
  { apply (app_inv_tail (after y6)). now rewrite <- A6, <- A6'. }
  rewrite m_cat_cons in H. apply plain_step in H; [|reflexivity].
  destruct H as (y7 & M7 & K7 & H). apply Matches_Char_shape in M7.
  rewrite m_cat_cons in H. apply plain_step in H; [|reflexivity].
  destruct H as (y8 & M8 & K8 & H). apply ws_run_shape in M8.
  destruct M8 as (ws3 & A8 & F3 & _).
  rewrite m_cat_cons in H. apply plain_step in H; [|apply parensOf_lit].
  destruct H as (y9 & M9 & K9 & H). apply Matches_lit in M9. destruct M9 as [A9 _].
  cbn [posOf fst snd before after captures] in M7, K7, A8, K8, A9, K9.
  cbn [cat fold_right m] in H. inversion H; subst z.
  exists name, ws1, ws2, ptext, ws3.
  split.
  { rewrite A1, A2, M3, A4, M5, A6, M7, A8, A9. reflexivity. }
  split.
  { rewrite K9, K8, K7, getCap_setCap_other by discriminate.
    rewrite (K6 1) by (intros []). rewrite K5, K4, K3, K2. apply getCap_setCap_same. }
  split; [rewrite K9, K8, K7; apply getCap_setCap_same|].
  repeat (split; [assumption|]). assumption.
Qed.

Lemma matched_text : forall (l r : list N),
  firstn (length (l ++ r) - length r) (l ++ r) = l.
Proof.
  intros l r. rewrite length_app.
  replace (length l + length r - length r) with (length l) by lia.
  apply firstn_length_app.
Qed.

(** The match array of an attempt with a keyword pattern. *)
Lemma matchAt_sig : forall re kw bef aft mr,
  source re = sigPattern kw -> multiline re = false -> nCaps re = 2 ->
  matchAt re bef aft = Some mr ->
  SigMatch (Some kw) mr.
Proof.
  intros re kw bef aft mr Hsrc Hml Hn H. unfold matchAt in H.
  rewrite Hsrc, Hml in H.
  destruct (m false (sigPattern kw) (mkState bef aft []) (fun y => Some y))
    as [y|] eqn:E; [|discriminate].
  inversion H; subst mr; clear H.
  apply sig_matcher in E.
  destruct E as (ws1 & name & ws2 & ptext & A & C1 & C2 & Hne & F1 & Hid & F2 & Fp).
  cbn [after] in A.
  exists name, ptext, (js kw ++ ws1 ++ name ++ ws2 ++ ch "(" :: ptext ++ [ch ")"]).
  unfold toMatch, item. rewrite Hn. cbn [matchArray nth seq map].
  split.
  { f_equal. rewrite A.
    replace (js kw ++ ws1 ++ name ++ ws2 ++ ch "(" :: ptext ++ ch ")" :: after y)
      with ((js kw ++ ws1 ++ name ++ ws2 ++ ch "(" :: ptext ++ [ch ")"]) ++ after y).
    - apply matched_text.
    - repeat (rewrite <- app_assoc; cbn [app]). reflexivity. }
  split; [exact C1|]. split; [exact C2|]. split; [exact Hid|]. split; [exact Fp|].
  exists ws1, ws2. auto.
Qed.

(** The match array of an attempt with the arrow pattern. *)
Lemma matchAt_arrow : forall bef aft mr,
  matchAt arrowFuncRegex bef aft = Some mr -> SigMatch None mr.
Proof.
  intros bef aft mr H. unfold matchAt in H.
  change (multiline arrowFuncRegex) with false in H.
  destruct (m false (source arrowFuncRegex) (mkState bef aft []) (fun y => Some y))
    as [y|] eqn:E; [|discriminate].
  inversion H; subst mr; clear H.
  apply arrow_matcher in E.
  destruct E as (name & ws1 & ws2 & ptext & ws3 & A & C1 & C2 & Hid & F1 & F2 & Fp & F3).
  cbn [after] in A.
  exists name, ptext,
    (name ++ ws1 ++ ch "=" :: ws2 ++ ch "(" :: ptext ++ ch ")" :: ws3 ++ js "=>").
  unfold toMatch, item. change (nCaps arrowFuncRegex) with 2.
  cbn [matchArray nth seq map].
  split.
  { f_equal. rewrite A.
    replace (name ++ ws1 ++ ch "=" :: ws2 ++ ch "(" :: ptext ++ ch ")"
               :: ws3 ++ js "=>" ++ after y)
      with ((name ++ ws1 ++ ch "=" :: ws2 ++ ch "(" :: ptext ++ ch ")"
               :: ws3 ++ js "=>") ++ after y).
    - apply matched_text.
    - repeat (rewrite <- app_assoc; cbn [app]). reflexivity. }
  split; [exact C1|]. split; [exact C2|]. split; [exact Hid|]. split; [exact Fp|].
  exists ws1, ws2, ws3. auto.
Qed.

(** What holds of every attempt holds of every result of [exec]. *)
Lemma search_prop : forall re (P : MatchResult -> Prop),
  (forall bef aft mr, matchAt re bef aft = Some mr -> P mr) ->
  forall aft bef mr, search re bef aft = Some mr -> P mr.
Proof.
  intros re P HP. induction aft as [|c aft IH]; intros bef mr H; cbn [search] in H.
  - destruct (matchAt re bef []) as [mr'|] eqn:E; [|discriminate].
    inversion H; subst mr'. eapply HP; eassumption.
  - destruct (matchAt re bef (c :: aft)) as [mr'|] eqn:E.
    + inversion H; subst mr'. eapply HP; eassumption.
    + eapply IH; eassumption.
Qed.

Lemma exec_prop : forall re (P : MatchResult -> Prop),
  (forall bef aft mr, matchAt re bef aft = Some mr -> P mr) ->
  forall s i mr, exec re s i = Some mr -> P mr.
Proof.
  intros re P HP s i mr H. unfold exec in H.
  destruct (length s <? (if global re then i else 0)); [discriminate|].
  eapply search_prop; eassumption.
Qed.

(** What the body of the loop establishes holds of every element that
    the loop has pushed. *)
Lemma execWhile_inv : forall (T : Type) re s (body : MatchResult -> result T)
    (Q : T -> Prop),
  (forall i mr v, exec re s i = Some mr -> body mr = Ok v -> Q v) ->
  forall fuel i acc l,
    Forall Q acc -> execWhile re s body fuel i acc = Ok l -> Forall Q l.
Proof.
  intros T re s body Q HQ.
  induction fuel as [|fuel IH]; intros i acc l Hacc H; cbn [execWhile] in H;
    [discriminate|].
  destruct (exec re s i) as [mr|] eqn:E.
  - destruct (body mr) as [v|e] eqn:Eb; [|discriminate]. cbn [bind] in H.
    apply IH in H; [exact H|].
    apply Forall_app. split; [exact Hacc|]. constructor; [|constructor].
    eapply HQ; eassumption.
  - inversion H; subst l. exact Hacc.
Qed.

Lemma pushed_found : forall lang mr v,
  pushed lang mr = Ok v -> v = infoOf lang mr /\ language v = lang.
Proof.
  intros lang mr v H. unfold pushed, trimOf in H. unfold infoOf.
  destruct (item mr 2) as [p|]; [|discriminate]. cbn [bind] in H.
  inversion H; subst v. split; reflexivity.
Qed.

(** Every element of [functions] comes from a match of the pattern of
    its pass. *)
Lemma explainedFunctions_found : forall code fs,
  explainedFunctions code = Ok fs -> Forall (FoundIn code) fs.
Proof.
  intros code fs H. unfold explainedFunctions in H.
  destruct (execWhile pyFuncRegex code (pushed (js "Python")) (S (length code)) 0 [])
    as [fs1|e] eqn:E1; [|discriminate]. cbn [bind] in H.
  destruct (execWhile jsFuncRegex code (pushed (js "JavaScript")) (S (length code)) 0 fs1)
    as [fs2|e] eqn:E2; [|discriminate]. cbn [bind] in H.
  apply (execWhile_inv _ _ _ _ (FoundIn code)) in E1; [|
    intros i mr v Hx Hb; apply pushed_found in Hb; destruct Hb as [Hv Hl];
    exists mr; rewrite Hl; split; [exact Hv|]; left; split; [reflexivity|];
    split; [apply (exec_some _ wf_pyFuncRegex eq_refl _ _ _ Hx)|];
    apply (exec_prop pyFuncRegex (SigMatch (Some "def"%string))) in Hx; [exact Hx|];
    intros bef aft mr'; apply matchAt_sig; reflexivity
  | constructor].
  apply (execWhile_inv _ _ _ _ (FoundIn code)) in E2; [|
    intros i mr v Hx Hb; apply pushed_found in Hb; destruct Hb as [Hv Hl];
    exists mr; rewrite Hl; split; [exact Hv|]; right; left; split; [reflexivity|];
    split; [apply (exec_some _ wf_jsFuncRegex eq_refl _ _ _ Hx)|];
    apply (exec_prop jsFuncRegex (SigMatch (Some "function"%string))) in Hx; [exact Hx|];
    intros bef aft mr'; apply matchAt_sig; reflexivity
  | exact E1].
  apply (execWhile_inv _ _ _ _ (FoundIn code)) in H; [exact H| | exact E2].
  intros i mr v Hx Hb. apply pushed_found in Hb. destruct Hb as [Hv Hl].
  exists mr. rewrite Hl. split; [exact Hv|]. right. right. split; [reflexivity|].
  split; [apply (exec_some _ wf_arrowFuncRegex eq_refl _ _ _ Hx)|].
  apply (exec_prop arrowFuncRegex (SigMatch None)) in Hx; [exact Hx|].
  exact matchAt_arrow.
Qed.

Lemma FoundIn_text : forall code f,
  FoundIn code f ->
  exists pre l rest nm ptext,
    code = pre ++ l ++ rest
    /\ name f = Some nm
    /\ params f = trim ptext
    /\ IsIdentifier nm
    /\ Forall (fun c => c <> ch ")") ptext
    /\ ((language f = js "Python" /\ KeywordSignature "def" nm ptext l)
        \/ (language f = js "JavaScript"
            /\ (KeywordSignature "function" nm ptext l \/ ArrowSignature nm ptext l))).
Proof.
  intros code f (mr & Hf & H).
  assert (G : forall re kwd, IsMatch re code mr -> SigMatch kwd mr ->
            exists pre l rest nm ptext,
              code = pre ++ l ++ rest /\ name f = Some nm /\ params f = trim ptext
              /\ IsIdentifier nm /\ Forall (fun c => c <> ch ")") ptext
              /\ match kwd with
                 | Some kw => KeywordSignature kw nm ptext l
                 | None => ArrowSignature nm ptext l
                 end).
  { intros re kwd (pre & l & rest & Hc & _ & _ & H0 & _)
           (nm & ptext & l' & H0' & H1 & H2 & Hid & Fp & Hs).
    rewrite H0 in H0'. injection H0' as <-.
    exists pre, l, rest, nm, ptext. rewrite Hf. unfold infoOf. cbn [name params].
    rewrite H2. cbn [toString]. auto 10. }
  destruct H as [(Hl & Hm & Hs)|[(Hl & Hm & Hs)|(Hl & Hm & Hs)]];
    destruct (G _ _ Hm Hs) as (pre & l & rest & nm & ptext & Hc & Hn & Hp & Hid & Fp & Hk);
    exists pre, l, rest, nm, ptext; auto 10.
Qed.

(** X1: every function that the extractor reports stands in the text:
    the text holds, somewhere, a signature of the form of its pass (the
    keyword def for a Python entry, the keyword function or the arrow
    form for a JavaScript entry); the reported name is the identifier
    of that signature and the reported parameters are the trimmed text
    between its parentheses, which holds no closing parenthesis. *)
Theorem reported_functions_stand_in_text : forall code fs f,
  explainedFunctions code = Ok fs ->
  In f fs ->
  exists pre l rest nm ptext,
    code = pre ++ l ++ rest
    /\ name f = Some nm
    /\ params f = trim ptext
    /\ IsIdentifier nm
    /\ Forall (fun c => c <> ch ")") ptext
    /\ ((language f = js "Python" /\ KeywordSignature "def" nm ptext l)
        \/ (language f = js "JavaScript"
            /\ (KeywordSignature "function" nm ptext l \/ ArrowSignature nm ptext l))).
Proof.
  intros code fs f H Hin. apply explainedFunctions_found in H.
  rewrite Forall_forall in H. apply FoundIn_text. now apply H.
Qed.

Lemma reported_functions_stand_in_text_witness :
  exists pre l rest nm ptext,
    addInput = pre ++ l ++ rest
    /\ name (mkFunctionInfo (js "JavaScript") (Some (js "add")) (js "a, b")) = Some nm
    /\ params (mkFunctionInfo (js "JavaScript") (Some (js "add")) (js "a, b"))
       = trim ptext
    /\ IsIdentifier nm
    /\ Forall (fun c => c <> ch ")") ptext
    /\ ((language (mkFunctionInfo (js "JavaScript") (Some (js "add")) (js "a, b"))
         = js "Python" /\ KeywordSignature "def" nm ptext l)
        \/ (language (mkFunctionInfo (js "JavaScript") (Some (js "add")) (js "a, b"))
            = js "JavaScript"
            /\ (KeywordSignature "function" nm ptext l \/ ArrowSignature nm ptext l))).
Proof.
  apply (reported_functions_stand_in_text addInput
           [mkFunctionInfo (js "JavaScript") (Some (js "add")) (js "a, b")]).
  - vm_compute. reflexivity.
  - left. reflexivity.
Defined.

(** * Trimmed texts *)

Lemma trimStart_suffix : forall s,
  exists p, s = p ++ trimStart s /\ Forall (fun c => isWhiteSpace c = true) p.
Proof.
  induction s as [|c s IH]; simpl.
  - exists []. split; [reflexivity|constructor].
  - destruct (isWhiteSpace c) eqn:E.
    + destruct IH as (p & Hs & F). exists (c :: p). split.
      * simpl. now rewrite <- Hs.
      * constructor; assumption.
    + exists []. split; [reflexivity|constructor].
Qed.

Lemma trimStart_StartsOff : forall s, StartsOff isWhiteSpace (trimStart s).
Proof.
  induction s as [|c s IH]; simpl; [exact I|].
  destruct (isWhiteSpace c) eqn:E; [exact IH|exact E].
Qed.

Lemma trimStart_id : forall s, StartsOff isWhiteSpace s -> trimStart s = s.
Proof.
  intros [|c s] H; simpl in *; [reflexivity|]. now rewrite H.
Qed.

Lemma trim_Trimmed : forall s, Trimmed (trim s).
Proof.
  intros s. unfold trim, trimEnd, Trimmed. rewrite rev_involutive.
  split; [|apply trimStart_StartsOff].
  destruct (trimStart_suffix (rev (trimStart s))) as (p & Hs & _).
  pose proof (trimStart_StartsOff s) as Ha.
  apply (f_equal (@rev N)) in Hs. rewrite rev_involutive, rev_app_distr in Hs.
  destruct (rev (trimStart (rev (trimStart s)))) as [|c t]; [exact I|].
  rewrite Hs in Ha. exact Ha.
Qed.

Lemma trim_id : forall s, Trimmed s -> trim s = s.
Proof.
  intros s [H1 H2]. unfold trim, trimEnd.
  rewrite (trimStart_id s H1), (trimStart_id (rev s) H2). apply rev_involutive.
Qed.

(** Trimming removes white space at both ends and nothing else. *)
Lemma trim_infix : forall s,
  exists p q, s = p ++ trim s ++ q
    /\ Forall (fun c => isWhiteSpace c = true) p
    /\ Forall (fun c => isWhiteSpace c = true) q.
Proof.
  intros s. unfold trim, trimEnd.
  destruct (trimStart_suffix s) as (p & Hs & Fp).
  destruct (trimStart_suffix (rev (trimStart s))) as (q & Hr & Fq).
  exists p, (rev q). split; [|split; [exact Fp|]].
  - apply (f_equal (@rev N)) in Hr. rewrite rev_involutive, rev_app_distr in Hr.
    rewrite <- Hr. exact Hs.
  - apply Forall_rev. exact Fq.
Qed.

(** * Comma-separated pieces *)

Lemma splitOn_nonempty : forall sep s, splitOn sep s <> [].
Proof.
  intros sep [|c s]; simpl; [discriminate|].
  destruct (c =? sep)%N; [discriminate|]. destruct (splitOn sep s); discriminate.
Qed.

Lemma splitOn_length : forall sep s,
  length (splitOn sep s) = S (count_occ N.eq_dec s sep).
Proof.
  intros sep. induction s as [|c s IH]; [reflexivity|]. cbn [splitOn count_occ].
  destruct (N.eqb_spec c sep) as [->|Hne].
  - destruct (N.eq_dec sep sep) as [_|C]; [|contradiction]. simpl. now rewrite IH.
  - destruct (N.eq_dec c sep) as [C|_]; [contradiction|].
    pose proof (splitOn_nonempty sep s) as Hn.
    destruct (splitOn sep s) as [|w ws]; [contradiction|exact IH].
Qed.

Lemma splitOn_single : forall sep s,
  length (splitOn sep s) = 1 -> splitOn sep s = [s].
Proof.
  intros sep. induction s as [|c s IH]; intros H; [reflexivity|].
  cbn [splitOn] in *. destruct (c =? sep)%N.
  - pose proof (splitOn_nonempty sep s) as Hn.
    destruct (splitOn sep s); [contradiction|discriminate H].
  - pose proof (splitOn_nonempty sep s) as Hn.
    destruct (splitOn sep s) as [|w [|w' ws]] eqn:E; [contradiction| |discriminate H].
    specialize (IH eq_refl). injection IH as ->. reflexivity.
Qed.

(** The lines pushed for a function whose parameter text is trimmed. *)
Lemma docStub_shape : forall fn,
  Trimmed (doc_params fn) ->
  docStub fn [] =
    [js "### Função `" ++ toString (doc_name fn) ++ js "()`";
     js "**Descrição:** descreva aqui o que a função faz."]
    ++ (if truthy (doc_params fn)
        then js "**Parâmetros:**"
               :: map (fun p => paramBullet (trim p))
                    (splitOn (ch ",") (doc_params fn))
        else [js "**Parâmetros:** Esta função não recebe parâmetros."])
    ++ [js "**Retorno:** descreva aqui o valor retornado pela função."; []].
Proof.
  intros fn Ht. unfold docStub.
  destruct (truthy (doc_params fn)) eqn:Et; [|reflexivity].
  assert (Hc : (0 <? length (map trim (splitOn (ch ",") (doc_params fn))))
               && negb ((length (map trim (splitOn (ch ",") (doc_params fn))) =? 1)
                        && negb (truthy (nth 0 (map trim (splitOn (ch ",")
                                                   (doc_params fn))) [])))
               = true).
  { rewrite length_map.
    pose proof (splitOn_nonempty (ch ",") (doc_params fn)) as Hn.
    destruct (length (splitOn (ch ",") (doc_params fn)) =? 1) eqn:E1.
    - apply Nat.eqb_eq in E1. rewrite (splitOn_single _ _ E1).
      cbn [map nth length Nat.ltb Nat.leb andb]. rewrite (trim_id _ Ht), Et.
      reflexivity.
    - destruct (splitOn (ch ",") (doc_params fn)); [contradiction|reflexivity]. }
  rewrite Hc, fold_left_push, map_map. cbn [app]. rewrite <- app_assoc. reflexivity.
Qed.

(** X2: the documentation stub of every discovered function: its
    header carries the identifier of the signature; when the parameter
    text is empty the stub says that the function takes no parameters;
    otherwise it lists one bullet for each piece between commas,
    trimmed, in order, also for an empty piece, so one more bullet than
    there are commas. *)
Theorem stub_of_discovered_function : forall code fns fn,
  documentedFunctions code = Ok fns ->
  In fn fns ->
  exists nm,
    doc_name fn = Some nm
    /\ IsIdentifier nm
    /\ docStub fn [] =
         [js "### Função `" ++ nm ++ js "()`";
          js "**Descrição:** descreva aqui o que a função faz."]
         ++ (if truthy (doc_params fn)
             then js "**Parâmetros:**"
                    :: map (fun p => js "- `" ++ trim p ++ js "`: descrição do parâmetro.")
                         (splitOn (ch ",") (doc_params fn))
             else [js "**Parâmetros:** Esta função não recebe parâmetros."])
         ++ [js "**Retorno:** descreva aqui o valor retornado pela função."; []]
    /\ length (splitOn (ch ",") (doc_params fn))
       = S (count_occ N.eq_dec (doc_params fn) (ch ",")).
Proof.
  intros code fns fn H Hin. rewrite documentedFunctions_explained in H.
  destruct (explainedFunctions code) as [fs|e] eqn:E; [|discriminate].
  cbn [bind] in H. inversion H; subst fns; clear H.
  apply in_map_iff in Hin. destruct Hin as (f & <- & Hin).
  apply explainedFunctions_found in E. rewrite Forall_forall in E.
  destruct (FoundIn_text code f (E f Hin))
    as (pre & l & rest & nm & ptext & _ & Hn & Hp & Hid & _).
  exists nm. unfold signatureOf at 1. cbn [doc_name].
  split; [exact Hn|]. split; [exact Hid|]. split.
  - rewrite docStub_shape.
    + unfold signatureOf. cbn [doc_name doc_params]. rewrite Hn. reflexivity.
    + unfold signatureOf. cbn [doc_params]. rewrite Hp. apply trim_Trimmed.
  - apply splitOn_length.
Qed.

Lemma stub_of_discovered_function_witness :
  exists nm,
    doc_name (mkDocFunction (Some (js "add")) (js "a, b")) = Some nm
    /\ IsIdentifier nm
    /\ docStub (mkDocFunction (Some (js "add")) (js "a, b")) [] =
         [js "### Função `" ++ nm ++ js "()`";
          js "**Descrição:** descreva aqui o que a função faz."]
         ++ (if truthy (doc_params (mkDocFunction (Some (js "add")) (js "a, b")))
             then js "**Parâmetros:**"
                    :: map (fun p => js "- `" ++ trim p ++ js "`: descrição do parâmetro.")
                         (splitOn (ch ",")
                            (doc_params (mkDocFunction (Some (js "add")) (js "a, b"))))
             else [js "**Parâmetros:** Esta função não recebe parâmetros."])
         ++ [js "**Retorno:** descreva aqui o valor retornado pela função."; []]
    /\ length (splitOn (ch ",")
                 (doc_params (mkDocFunction (Some (js "add")) (js "a, b"))))
       = S (count_occ N.eq_dec
              (doc_params (mkDocFunction (Some (js "add")) (js "a, b"))) (ch ",")).
Proof.
  apply (stub_of_discovered_function addInput
           [mkDocFunction (Some (js "add")) (js "a, b")]).
  - vm_compute. reflexivity.
  - left. reflexivity.
Defined.

(** * Where the patterns can match *)

Lemma Matches_suffix : forall ml r p q,
  Matches ml r p q -> exists l, snd p = l ++ snd q.
Proof.
  intros ml r p q M. destruct (Matches_Advance ml r p q M) as (l & A & _). eauto.
Qed.

Lemma py_match_text : forall pre suf,
  MatchesAt pyFuncRegex pre suf -> exists r, suf = js "def" ++ r.
Proof.
  intros pre suf [q M]. unfold pyFuncRegex, source in M.
  apply Matches_cat_cons in M. destruct M as (k1 & M1 & _).
  apply Matches_lit in M1. destruct M1 as [A _]. exists (snd k1). exact A.
Qed.

Lemma js_match_text : forall pre suf,
  MatchesAt jsFuncRegex pre suf -> exists r, suf = js "function" ++ r.
Proof.
  intros pre suf [q M]. unfold jsFuncRegex, source in M.
  apply Matches_cat_cons in M. destruct M as (k1 & M1 & _).
  apply Matches_lit in M1. destruct M1 as [A _]. exists (snd k1). exact A.
Qed.

Lemma arrow_match_text : forall pre suf,
  MatchesAt arrowFuncRegex pre suf -> In (ch "=") suf.
Proof.
  intros pre suf [q M]. unfold arrowFuncRegex, source in M.
  apply Matches_cat_cons in M. destruct M as (k1 & M1 & M).
  apply Matches_cat_cons in M. destruct M as (k2 & M2 & M).
  apply Matches_cat_cons in M. destruct M as (k3 & M3 & _).
  apply Matches_suffix in M1. destruct M1 as (l1 & A1).
  apply Matches_suffix in M2. destruct M2 as (l2 & A2).
  apply Matches_Char_shape in M3. cbn [snd] in A1.
  rewrite A1, A2, M3. apply in_or_app. right. apply in_or_app. right. now left.
Qed.

Lemma assign_match_text : forall pre suf,
  MatchesAt assignRegex pre suf -> In (ch "=") suf.
Proof.
  intros pre suf [q M]. unfold assignRegex, source in M.
  apply Matches_cat_cons in M. destruct M as (k0 & [-> _] & M).
  apply Matches_cat_cons in M. destruct M as (k1 & M1 & M).
  apply Matches_cat_cons in M. destruct M as (k2 & M2 & M).
  apply Matches_cat_cons in M. destruct M as (k3 & M3 & M).
  apply Matches_cat_cons in M. destruct M as (k4 & M4 & _).
  apply Matches_suffix in M1. destruct M1 as (l1 & A1).
  apply Matches_suffix in M2. destruct M2 as (l2 & A2).
  apply Matches_suffix in M3. destruct M3 as (l3 & A3).
  apply Matches_Char_shape in M4. cbn [snd] in A1.
  rewrite A1, A2, A3, M4.
  apply in_or_app. right. apply in_or_app. right. apply in_or_app. right. now left.
Qed.

Lemma Scan_no_match : forall re s i ms,
  (forall pre suf, s = pre ++ suf -> ~ MatchesAt re pre suf) ->
  Scan re s i ms -> ms = [].
Proof.
  intros re s i ms Hno HS. destruct HS as [|i mr ms _ Hm _ _]; [reflexivity|].
  exfalso. destruct Hm as (pre & l & rest & Hs & _ & _ & _ & M & _).
  apply (Hno pre (l ++ rest) Hs). eexists. exact M.
Qed.

Lemma Scan_some_match : forall re s ms pre suf,
  Scan re s 0 ms -> s = pre ++ suf -> MatchesAt re pre suf -> ms <> [].
Proof.
  intros re s ms pre suf HS Hs M ->. inversion HS as [i Hno Hi|].
  apply (Hno pre suf Hs); [lia|exact M].
Qed.

Lemma no_match_no_functions : forall code,
  (forall pre suf, code = pre ++ suf -> ~ MatchesAt pyFuncRegex pre suf) ->
  (forall pre suf, code = pre ++ suf -> ~ MatchesAt jsFuncRegex pre suf) ->
  (forall pre suf, code = pre ++ suf -> ~ MatchesAt arrowFuncRegex pre suf) ->
  explainedFunctions code = Ok [].
Proof.
  intros code H1 H2 H3.
  destruct (explainedFunctions_scans code) as (A & B & L & HA & HB & HL & ->).
  rewrite (Scan_no_match _ _ _ _ H1 HA), (Scan_no_match _ _ _ _ H2 HB),
    (Scan_no_match _ _ _ _ H3 HL). reflexivity.
Qed.

Lemma no_assign_no_undeclared : forall code,
  (forall pre suf, code = pre ++ suf -> ~ MatchesAt assignRegex pre suf) ->
  undeclaredJS code = Ok [].
Proof.
  intros code H. unfold undeclaredJS.
  destruct (matchAll_spec assignRegex wf_assignRegex eq_refl code)
    as (ms & -> & _ & Hnil).
  cbn [bind]. assert (ms = []) as -> by (now apply Hnil). reflexivity.
Qed.

(** * Lines of a text *)

Lemma addChar_Forall : forall (P : N -> Prop) c ls,
  P c -> Forall (Forall P) ls -> Forall (Forall P) (addChar c ls).
Proof.
  intros P c [|l ls] Hc H; simpl.
  - constructor; [|constructor]. constructor; [exact Hc|constructor].
  - inversion H; subst. constructor; [|assumption]. constructor; assumption.
Qed.

(** Every line is made of code units of the text. *)
Lemma linesOf_Forall : forall (P : N -> Prop) s,
  Forall P s -> Forall (Forall P) (linesOf s).
Proof.
  intros P s. remember (length s) as n eqn:Hn.
  revert s Hn. induction n as [n IH] using lt_wf_ind. intros s Hn F.
  destruct s as [|c [|d s]].
  - repeat constructor.
  - simpl. destruct (c =? LF)%N; repeat constructor. now inversion F.
  - rewrite linesOf_eq. inversion F as [|? ? Hc F']; subst.
    inversion F' as [|? ? Hd F'']; subst.
    destruct ((c =? CR) && (d =? LF))%N.
    + constructor; [constructor|]. eapply IH; [|reflexivity|exact F'']. simpl. lia.
    + destruct (c =? LF)%N.
      * constructor; [constructor|]. eapply IH; [|reflexivity|exact F']. simpl. lia.
      * apply addChar_Forall; [exact Hc|].
        eapply IH; [|reflexivity|exact F']. simpl. lia.
Qed.

Lemma addChar_length : forall c ls, ls <> [] -> length (addChar c ls) = length ls.
Proof. intros c [|l ls] H; [congruence|reflexivity]. Qed.

(** There is one line more than there are line feeds. *)
Lemma linesOf_length : forall s,
  length (linesOf s) = S (count_occ N.eq_dec s LF).
Proof.
  intros s. remember (length s) as n eqn:Hn.
  revert s Hn. induction n as [n IH] using lt_wf_ind. intros s Hn.
  destruct s as [|c [|d s]].
  - reflexivity.
  - cbn [linesOf count_occ]. destruct (N.eqb_spec c LF) as [->|Hne].
    + destruct (N.eq_dec LF LF) as [_|C]; [reflexivity|contradiction].
    + destruct (N.eq_dec c LF) as [C|_]; [contradiction|reflexivity].
  - rewrite linesOf_eq.
    destruct (N.eqb_spec c CR) as [->|Hcr]; cbn [andb].
    + destruct (N.eqb_spec d LF) as [->|Hd].
      * cbn [length count_occ].
        destruct (N.eq_dec CR LF) as [C|_]; [discriminate C|].
        destruct (N.eq_dec LF LF) as [_|C]; [|contradiction].
        rewrite (IH (length s)); [reflexivity|simpl in Hn; lia|reflexivity].
      * change (CR =? LF)%N with false. cbv iota.
        destruct (linesOf_cons (d :: s)) as (l & ls & E).
        rewrite addChar_length by (rewrite E; discriminate).
        rewrite (IH (length (d :: s))); [|simpl in Hn; simpl; lia|reflexivity].
        cbn [count_occ]. destruct (N.eq_dec CR LF) as [C|_]; [discriminate C|].
        reflexivity.
    + destruct (N.eqb_spec c LF) as [->|Hlf].
      * cbn [length]. rewrite (IH (length (d :: s))); [|simpl in Hn; simpl; lia|reflexivity].
        cbn [count_occ]. destruct (N.eq_dec LF LF) as [_|C]; [|contradiction].
        reflexivity.
      * destruct (linesOf_cons (d :: s)) as (l & ls & E).
        rewrite addChar_length by (rewrite E; discriminate).
        rewrite (IH (length (d :: s))); [|simpl in Hn; simpl; lia|reflexivity].
        cbn [count_occ]. destruct (N.eq_dec c LF) as [C|_]; [contradiction|].
        reflexivity.
Qed.

Lemma filter_none : forall (A : Type) (f : A -> bool) l,
  Forall (fun a => f a = false) l -> filter f l = [].
Proof.
  intros A f. induction l as [|a l IH]; intros H; [reflexivity|].
  inversion H; subst. simpl. rewrite H2. now apply IH.
Qed.

Lemma advice_distinct :
  docstringAdvice <> declarationAdvice
  /\ docstringAdvice <> longFunctionAdvice
  /\ docstringAdvice <> namingAdvice
  /\ docstringAdvice <> errorHandlingAdvice
  /\ longFunctionAdvice <> declarationAdvice
  /\ longFunctionAdvice <> namingAdvice
  /\ longFunctionAdvice <> errorHandlingAdvice
  /\ namingAdvice <> errorHandlingAdvice.
Proof.
  repeat split; intro H; vm_compute in H; discriminate H.
Qed.

(** * A text of white space only *)

Lemma blank_has_no_match : forall code c pre suf,
  Forall (fun c => isWhiteSpace c = true) code ->
  code = pre ++ suf -> In c suf -> isWhiteSpace c = false -> False.
Proof.
  intros code c pre suf F -> Hin Hc. rewrite Forall_forall in F.
  rewrite F in Hc; [discriminate|]. apply in_or_app. now right.
Qed.

(** X3: on a text of white space only, the empty text included, which
    [analyzeCode] never passes on, each generator still returns its
    fallback: the explanation counts zero lines, the advisor gives the
    two generic advisories, the documentation is the generic stub. *)
Theorem generators_on_blank_text : forall code,
  Forall (fun c => isWhiteSpace c = true) code ->
  generateExplanation code =
    Ok (js "O código possui 0 linha(s). Considere adicionar funções" ++ [LF]
          ++ js "para organizar melhor a lógica e facilitar a manutenção.")
  /\ generateSuggestion code = Ok (namingAdvice ++ js " " ++ errorHandlingAdvice)
  /\ generateDocumentation code = Ok (join [LF] genericDocumentation).
Proof.
  intros code F.
  assert (Hpy : forall pre suf, code = pre ++ suf -> ~ MatchesAt pyFuncRegex pre suf).
  { intros pre suf Hs M. apply py_match_text in M. destruct M as (r & ->).
    apply (blank_has_no_match code (ch "d") pre _ F Hs); [now left|reflexivity]. }
  assert (Hjs : forall pre suf, code = pre ++ suf -> ~ MatchesAt jsFuncRegex pre suf).
  { intros pre suf Hs M. apply js_match_text in M. destruct M as (r & ->).
    apply (blank_has_no_match code (ch "f") pre _ F Hs); [now left|reflexivity]. }
  assert (Har : forall pre suf, code = pre ++ suf -> ~ MatchesAt arrowFuncRegex pre suf).
  { intros pre suf Hs M. apply arrow_match_text in M.
    apply (blank_has_no_match code (ch "=") pre _ F Hs M). reflexivity. }
  assert (Has : forall pre suf, code = pre ++ suf -> ~ MatchesAt assignRegex pre suf).
  { intros pre suf Hs M. apply assign_match_text in M.
    apply (blank_has_no_match code (ch "=") pre _ F Hs M). reflexivity. }
  pose proof (no_match_no_functions code Hpy Hjs Har) as HE.
  split; [|split].
  - unfold generateExplanation. rewrite HE. cbn [bind length Nat.eqb].
    rewrite split_lineBreak. cbn [bind]. rewrite filter_none; [vm_compute; reflexivity|].
    eapply Forall_impl; [|exact (linesOf_Forall _ code F)].
    intros l Hl. cbv beta. apply trim_empty_iff in Hl. now rewrite Hl.
  - unfold generateSuggestion.
    rewrite (suggestionList_eq code [] [] []
               (no_def_no_docstring_match code Hpy)
               (no_assign_no_undeclared code Has)
               (no_def_no_long_match code Hpy)).
    reflexivity.
  - unfold generateDocumentation, docLinesOf.
    rewrite documentedFunctions_explained, HE. reflexivity.
Qed.

Lemma generators_on_blank_text_witness :
  generateExplanation [ch " "; LF; ch " "] =
    Ok (js "O código possui 0 linha(s). Considere adicionar funções" ++ [LF]
          ++ js "para organizar melhor a lógica e facilitar a manutenção.")
  /\ generateSuggestion [ch " "; LF; ch " "]
     = Ok (namingAdvice ++ js " " ++ errorHandlingAdvice)
  /\ generateDocumentation [ch " "; LF; ch " "] = Ok (join [LF] genericDocumentation).
Proof.
  apply (generators_on_blank_text [ch " "; LF; ch " "]).
  repeat constructor.
Defined.

(** * Decimal numerals *)

Lemma js_ascii : forall a s,
  (N_of_ascii a <? 192)%N = true -> js (String a s) = N_of_ascii a :: js s.
Proof. intros a s H. cbn [js]. rewrite H. reflexivity. Qed.

Lemma string_of_uint_digits : forall d,
  exists l, js (DecimalString.NilEmpty.string_of_uint d) = l
    /\ Forall (fun c => isDigit c = true) l
    /\ forall acc, fold_left (fun acc c => 10 * acc + N.to_nat (c - 48)) l acc
                   = Nat.of_uint_acc d acc.
Proof.
  induction d as [|d IH|d IH|d IH|d IH|d IH|d IH|d IH|d IH|d IH|d IH];
    [exists []; split; [reflexivity|]; split; [constructor|reflexivity]|..];
    destruct IH as (l & Hl & F & V);
    cbn [DecimalString.NilEmpty.string_of_uint];
    rewrite js_ascii by reflexivity; rewrite Hl;
    (eexists; split; [reflexivity|]; split;
     [constructor; [reflexivity|exact F]|]);
    intros acc; cbn [fold_left Nat.of_uint_acc]; rewrite V, Nat.tail_mul_spec;
    f_equal; simpl (N.to_nat _); lia.
Qed.

Lemma numberToString_decimal : forall n, DecimalOf n (numberToString n).
Proof.
  intros n. unfold numberToString, DecimalOf.
  assert (Hn : Nat.to_uint n = Decimal.unorm (Nat.to_uint n)).
  { rewrite <- DecimalNat.Unsigned.to_of, DecimalNat.Unsigned.of_to. reflexivity. }
  destruct (string_of_uint_digits (Nat.to_uint n)) as (l & Hl & F & V).
  rewrite Hl. split; [|split; [exact F|split]].
  - intros ->. pose proof (DecimalFacts.unorm_nonnil (Nat.to_uint n)) as Hnn.
    rewrite <- Hn in Hnn. destruct (Nat.to_uint n); try contradiction;
      cbn [DecimalString.NilEmpty.string_of_uint] in Hl;
      rewrite js_ascii in Hl by reflexivity; discriminate Hl.
  - unfold valueOf. rewrite V. apply DecimalNat.Unsigned.of_to.
  - intros Hh.
    destruct (Nat.to_uint n) as [|d|d|d|d|d|d|d|d|d|d] eqn:E;
      cbn [DecimalString.NilEmpty.string_of_uint] in Hl;
      try (rewrite js_ascii in Hl by reflexivity); subst l;
      try (cbn [hd] in Hh; vm_compute in Hh; discriminate Hh).
    assert (d = Decimal.Nil) as ->.
    { unfold Decimal.unorm in Hn. cbn [Decimal.nzhead] in Hn.
      pose proof (DecimalFacts.nzhead_nonzero d) as Hz.
      destruct (Decimal.nzhead d) eqn:Ez; try (inversion Hn; fail).
      - inversion Hn. reflexivity.
      - exfalso. apply (Hz u). reflexivity. }
    reflexivity.
Qed.

(** * The two fallbacks go together *)

Lemma docStub_head : forall fn,
  exists tl,
    docStub fn [] = (js "### Função `" ++ toString (doc_name fn) ++ js "()`") :: tl.
Proof.
  intros fn. unfold docStub. destruct ((0 <? length _) && negb _).
  - rewrite fold_left_push. cbn [app]. eauto.
  - cbn [app]. eauto.
Qed.

(** X4: the explanation falls back to the count of lines exactly when
    the documentation falls back to the generic stub, namely when the
    extractor finds nothing; otherwise the documentation is made of one
    stub for each function that the explanation reports, in the same
    order. *)
Theorem explanation_and_documentation_agree : forall code,
  exists fs,
    explainedFunctions code = Ok fs
    /\ (fs = [] <->
        exists digits,
          DecimalOf (length (filter nonBlank (linesOf code))) digits
          /\ generateExplanation code =
               Ok (js "O código possui " ++ digits
                     ++ js " linha(s). Considere adicionar funções" ++ [LF]
                     ++ js "para organizar melhor a lógica e facilitar a manutenção."))
    /\ (fs = [] <-> docLinesOf code = Ok genericDocumentation)
    /\ (fs <> [] ->
        (exists digits,
           DecimalOf (length fs) digits
           /\ generateExplanation code =
                Ok (js "Foram identificada(s) " ++ digits
                      ++ js " função(ões): "
                      ++ join (js "; ")
                           (map (fun f =>
                                   language f ++ js ": função " ++ toString (name f)
                                     ++ js "("
                                     ++ (if truthy (params f) then params f
                                         else js "sem parâmetros")
                                     ++ js ")") fs)
                      ++ js "."))
        /\ docLinesOf code = Ok (flat_map (fun f => docStub (signatureOf f) []) fs)).
Proof.
  intros code. destruct (explainedFunctions_total code) as [fs E].
  exists fs. split; [exact E|].
  assert (HD : docLinesOf code =
               Ok (if length fs =? 0 then genericDocumentation
                   else flat_map (fun f => docStub (signatureOf f) []) fs)).
  { unfold docLinesOf. rewrite documentedFunctions_explained, E. cbn [bind].
    rewrite length_map. destruct (length fs =? 0); [reflexivity|].
    rewrite fold_left_docStub, flat_map_concat_map, map_map,
      <- flat_map_concat_map. reflexivity. }
  assert (HE : generateExplanation code =
               Ok (if length fs =? 0
                   then genericExplanation (length (filter nonBlank (linesOf code)))
                   else js "Foram identificada(s) " ++ numberToString (length fs)
                          ++ js " função(ões): " ++ join (js "; ") (map explainPart fs)
                          ++ js ".")).
  { unfold generateExplanation. rewrite E. cbn [bind].
    destruct (length fs =? 0); [|reflexivity].
    rewrite split_lineBreak. reflexivity. }
  destruct fs as [|f fs]; cbn [length Nat.eqb] in HD, HE.
  - split; [split; [intros _|reflexivity]|].
    { exists (numberToString (length (filter nonBlank (linesOf code)))).
      split; [apply numberToString_decimal|exact HE]. }
    split; [split; [intros _; exact HD|reflexivity]|]. intros C. congruence.
  - split; [|split].
    + split; [discriminate|]. intros (digits & _ & C). exfalso. rewrite HE in C.
      apply (f_equal (fun r => match r with
                               | Ok l => nth 0 l 0%N
                               | Err _ => 0%N
                               end)) in C.
      vm_compute in C. discriminate C.
    + split; [discriminate|]. intros C. exfalso. rewrite HD in C.
      cbn [flat_map] in C. destruct (docStub_head (signatureOf f)) as (tl & Htl).
      rewrite Htl in C.
      apply (f_equal (fun r => match r with
                               | Ok (l :: _) => nth 1 l 0%N
                               | _ => 0%N
                               end)) in C.
      vm_compute in C. discriminate C.
    + intros _. split; [|exact HD].
      exists (numberToString (length (f :: fs))).
      split; [apply numberToString_decimal|exact HE].
Qed.

(** * The shape of the advice *)

(** X5: the advisor never answers with an empty list and never repeats
    an advisory: it gives either the two generic advisories alone, or
    some of the three specific ones, at least one, in the order
    docstring, declaration, long function; the text returned joins them
    with one blank. *)
Theorem advisories_shape : forall code,
  exists sugg,
    suggestionList code = Ok sugg
    /\ generateSuggestion code = Ok (join (js " ") sugg)
    /\ sugg <> []
    /\ (sugg = [namingAdvice; errorHandlingAdvice]
        \/ exists d u g : bool,
             d || u || g = true
             /\ sugg = (if d then [docstringAdvice] else [])
                       ++ (if u then [declarationAdvice] else [])
                       ++ (if g then [longFunctionAdvice] else [])).
Proof.
  intros code.
  destruct (pyFuncs_total code) as [py Hpy].
  destruct (undeclaredJS_total code) as [und Hund].
  destruct (longFuncs_total code) as [lng Hlng].
  pose proof (suggestionList_eq code py und lng Hpy Hund Hlng) as H.
  eexists. split; [exact H|]. split.
  { unfold generateSuggestion. rewrite H. reflexivity. }
  unfold specificAdvice.
  destruct py as [|p py], und as [|u und], lng as [|g lng]; cbn [length Nat.ltb Nat.leb app].
  - split; [discriminate|]. now left.
  - split; [discriminate|]. right. exists false, false, true. split; reflexivity.
  - split; [discriminate|]. right. exists false, true, false. split; reflexivity.
  - split; [discriminate|]. right. exists false, true, true. split; reflexivity.
  - split; [discriminate|]. right. exists true, false, false. split; reflexivity.
  - split; [discriminate|]. right. exists true, false, true. split; reflexivity.
  - split; [discriminate|]. right. exists true, true, false. split; reflexivity.
  - split; [discriminate|]. right. exists true, true, true. split; reflexivity.
Qed.

(** * Texts without a keyword or without an equals sign *)

Lemma contains_unfold : forall kw s,
  contains kw s = startsWith kw s || match s with
                                     | [] => false
                                     | _ :: s' => contains kw s'
                                     end.
Proof. intros kw [|c s]; reflexivity. Qed.

Lemma startsWith_app : forall kw r, startsWith kw (kw ++ r) = true.
Proof.
  induction kw as [|k kw IH]; intros r; [reflexivity|]. simpl.
  now rewrite N.eqb_refl, IH.
Qed.

Lemma contains_intro : forall kw pre r, contains kw (pre ++ kw ++ r) = true.
Proof.
  intros kw. induction pre as [|c pre IH]; intros r.
  - rewrite contains_unfold. cbn [app]. now rewrite startsWith_app.
  - rewrite contains_unfold. cbn [app]. rewrite IH. apply orb_true_r.
Qed.

Lemma no_def_no_py_match : forall code,
  contains (js "def") code = false ->
  forall pre suf, code = pre ++ suf -> ~ MatchesAt pyFuncRegex pre suf.
Proof.
  intros code H pre suf Hs M. apply py_match_text in M. destruct M as (r & ->).
  rewrite Hs, contains_intro in H. discriminate H.
Qed.

Lemma no_eq_no_match : forall code,
  contains (js "=") code = false ->
  forall pre suf, code = pre ++ suf -> ~ In (ch "=") suf.
Proof.
  intros code H pre suf Hs Hin. apply in_split in Hin. destruct Hin as (a & b & ->).
  rewrite Hs in H. rewrite app_assoc in H.
  change (ch "=" :: b) with (js "=" ++ b) in H.
  rewrite contains_intro in H. discriminate H.
Qed.

(** X6: a text in which the three letters def occur nowhere gets
    neither the docstring reminder nor the long-function reminder, and
    none of the functions reported for it is a Python one. *)
Theorem no_def_no_python_findings : forall code,
  contains (js "def") code = false ->
  (exists sugg,
     suggestionList code = Ok sugg
     /\ ~ In docstringAdvice sugg
     /\ ~ In longFunctionAdvice sugg)
  /\ exists fs,
       explainedFunctions code = Ok fs
       /\ Forall (fun f => language f = js "JavaScript") fs.
Proof.
  intros code H. pose proof (no_def_no_py_match code H) as Hno. split.
  - destruct (undeclaredJS_total code) as [und Hund].
    eexists. split;
      [exact (suggestionList_eq code [] und []
                (no_def_no_docstring_match code Hno) Hund
                (no_def_no_long_match code Hno))|].
    destruct advice_distinct as (D1 & D2 & D3 & D4 & D5 & D6 & D7 & _).
    unfold specificAdvice. destruct und as [|u und]; cbn [length Nat.ltb Nat.leb app].
    + split; intros [C|[C|[]]]; congruence.
    + split; intros [C|[]]; congruence.
  - destruct (explainedFunctions_total code) as [fs E]. exists fs.
    split; [exact E|]. apply explainedFunctions_found in E.
    eapply Forall_impl; [|exact E].
    intros f (mr & _ & [(_ & Hm & _)|[(Hl & _)|(Hl & _)]]); [|exact Hl|exact Hl].
    exfalso. destruct Hm as (pre & l & rest & Hs & _ & _ & _ & M & _).
    apply (Hno pre (l ++ rest) Hs). eexists. exact M.
Qed.

Lemma no_def_no_python_findings_witness :
  (exists sugg,
     suggestionList addInput = Ok sugg
     /\ ~ In docstringAdvice sugg
     /\ ~ In longFunctionAdvice sugg)
  /\ exists fs,
       explainedFunctions addInput = Ok fs
       /\ Forall (fun f => language f = js "JavaScript") fs.
Proof.
  apply (no_def_no_python_findings addInput). vm_compute. reflexivity.
Defined.

(** X7: a text without an equals sign never gets the declaration
    reminder, and every function reported for it was written with one
    of the two keywords. *)
Theorem no_equals_no_declaration_reminder : forall code,
  contains (js "=") code = false ->
  (exists sugg, suggestionList code = Ok sugg /\ ~ In declarationAdvice sugg)
  /\ exists fs,
       explainedFunctions code = Ok fs
       /\ Forall (fun f => exists pre l rest nm ptext,
                    code = pre ++ l ++ rest
                    /\ name f = Some nm
                    /\ (KeywordSignature "def" nm ptext l
                        \/ KeywordSignature "function" nm ptext l)) fs.
Proof.
  intros code H. pose proof (no_eq_no_match code H) as Hno. split.
  - destruct (pyFuncs_total code) as [py Hpy].
    destruct (longFuncs_total code) as [lng Hlng].
    assert (Hund : undeclaredJS code = Ok []).
    { apply no_assign_no_undeclared. intros pre suf Hs M.
      apply (Hno pre suf Hs). now apply (assign_match_text pre). }
    eexists. split; [exact (suggestionList_eq code py [] lng Hpy Hund Hlng)|].
    destruct declarationAdvice_distinct as (D1 & D2 & D3 & D4).
    unfold specificAdvice.
    destruct py as [|p py], lng as [|g lng]; cbn [length Nat.ltb Nat.leb app].
    + intros [C|[C|[]]]; congruence.
    + intros [C|[]]; congruence.
    + intros [C|[]]; congruence.
    + intros [C|[C|[]]]; congruence.
  - destruct (explainedFunctions_total code) as [fs E]. exists fs.
    split; [exact E|]. apply explainedFunctions_found in E.
    eapply Forall_impl; [|exact E].
    intros f Hf. apply FoundIn_text in Hf.
    destruct Hf as (pre & l & rest & nm & ptext & Hs & Hn & _ & _ & _ & Hk).
    exists pre, l, rest, nm, ptext. split; [exact Hs|]. split; [exact Hn|].
    destruct Hk as [(_ & Hk)|(_ & [Hk|Hk])]; [now left|now right|].
    exfalso. destruct Hk as (ws1 & ws2 & ws3 & -> & _).
    apply (Hno pre _ Hs). apply in_or_app. left.
    apply in_or_app. right. apply in_or_app. right. now left.
Qed.

Lemma no_equals_no_declaration_reminder_witness :
  (exists sugg, suggestionList defFooInput = Ok sugg /\ ~ In declarationAdvice sugg)
  /\ exists fs,
       explainedFunctions defFooInput = Ok fs
       /\ Forall (fun f => exists pre l rest nm ptext,
                    defFooInput = pre ++ l ++ rest
                    /\ name f = Some nm
                    /\ (KeywordSignature "def" nm ptext l
                        \/ KeywordSignature "function" nm ptext l)) fs.
Proof.
  apply (no_equals_no_declaration_reminder defFooInput). vm_compute. reflexivity.
Defined.

(** * How long a long function is *)

Lemma filterR_filter : forall (A : Type) (f : A -> result bool) (g : A -> bool) l,
  Forall (fun a => f a = Ok (g a)) l -> filterR f l = Ok (filter g l).
Proof.
  intros A f g. induction l as [|a l IH]; intros H; [reflexivity|].
  inversion H as [|? ? Ha Hl]; subst. cbn [filterR filter].
  rewrite Ha. cbn [bind]. rewrite (IH Hl). cbn [bind].
  destruct (g a); reflexivity.
Qed.

Lemma isLong_threshold : forall mt body,
  item mt 1 = Some body ->
  isLong mt = Ok (20 <=? count_occ N.eq_dec body LF).
Proof.
  intros mt body H. unfold isLong. rewrite H, split_lineBreak. cbn [bind].
  rewrite linesOf_length. reflexivity.
Qed.

(** X8: the long-function filter never fails, and it keeps a match
    exactly when the captured body holds at least twenty line feeds,
    that is, at least twenty-one lines; a carriage return before a line
    feed does not count as a line of its own. *)
Theorem long_function_threshold : forall code,
  exists all,
    matchAll longFuncRegex code = Ok all
    /\ Forall (fun mt => exists body,
                 item mt 1 = Some body
                 /\ isLong mt = Ok (20 <=? count_occ N.eq_dec body LF)) all
    /\ longFuncs code =
         Ok (filter (fun mt => 20 <=? count_occ N.eq_dec (toString (item mt 1)) LF)
               all).
Proof.
  intros code.
  destruct (matchAll_spec longFuncRegex wf_longFuncRegex eq_refl code)
    as (all & Hall & Hm & _).
  assert (HB : Forall (fun mt => exists body, item mt 1 = Some body) all).
  { eapply Forall_impl; [|exact Hm].
    intros mt (pre & l & rest & _ & _ & _ & _ & _ & D).
    specialize (D 1). destruct (item mt 1) as [body|]; [eauto|].
    exfalso. apply D; [simpl; auto|reflexivity]. }
  exists all. split; [exact Hall|]. split.
  - eapply Forall_impl; [|exact HB]. intros mt (body & Hb).
    exists body. split; [exact Hb|]. now apply isLong_threshold.
  - unfold longFuncs. rewrite Hall. cbn [bind]. apply filterR_filter.
    eapply Forall_impl; [|exact HB]. intros mt (body & Hb). cbv beta.
    rewrite Hb. cbn [toString]. now apply isLong_threshold.
Qed.

(** * Click after click *)

Lemma session_app : forall a b page,
  session (a ++ b) page = (page' <- session a page ;; session b page').
Proof.
  induction a as [|i a IH]; intros b page; [reflexivity|].
  cbn [app session]. destruct (submit i page) as [p|e]; [|reflexivity].
  cbn [bind]. apply IH.
Qed.

Lemma submit_spec : forall input page,
  exists page',
    submit input page = Ok page'
    /\ code_input page' = input
    /\ (if isBlank input
        then alerts page' = alerts page ++ [emptyInputAlert]
             /\ SameOutputs page page'
        else alerts page' = alerts page /\ Shows input page').
Proof.
  intros input page. unfold submit, analyzeCode, isBlank. cbn [code_input].
  destruct (negb (truthy (trim input))).
  - eexists. split; [reflexivity|]. split; [reflexivity|].
    split; [reflexivity|]. repeat split.
  - destruct (generateExplanation_total input) as [e He].
    destruct (generateSuggestion_total input) as [s Hs].
    destruct (generateDocumentation_total input) as [d Hd].
    rewrite He, Hs, Hd. cbn [bind].
    eexists. split; [reflexivity|]. split; [reflexivity|].
    split; [reflexivity|]. unfold Shows. cbn. auto.
Qed.

(** X9: after any number of clicks, whatever the text area held at
    each of them, the handler has returned every time; the page has
    received one alert for each blank text and nothing else; and its
    output section shows the analysis of the last text that was not
    blank, or is as it was at the start when every text was blank: a
    blank text leaves the results of an earlier analysis on display. *)
Theorem session_shows_last_analysis : forall inputs page,
  exists page',
    session inputs page = Ok page'
    /\ code_input page' = last inputs (code_input page)
    /\ alerts page' =
         alerts page ++ repeat emptyInputAlert (length (filter isBlank inputs))
    /\ match lastAnalysed inputs with
       | Some c => Shows c page'
       | None => SameOutputs page page'
       end.
Proof.
  induction inputs as [|i inputs IH] using rev_ind; intros page.
  - exists page. split; [reflexivity|]. split; [reflexivity|].
    split; [cbn; now rewrite app_nil_r|]. cbn. repeat split.
  - destruct (IH page) as (p1 & H1 & _ & A1 & O1).
    destruct (submit_spec i p1) as (p2 & H2 & C2 & S2).
    exists p2. rewrite session_app, H1. cbn [bind session]. rewrite H2. cbn [bind].
    split; [reflexivity|]. split; [rewrite last_last; exact C2|].
    unfold lastAnalysed. rewrite rev_app_distr, filter_app. cbn [rev app filter].
    destruct (isBlank i); cbn [negb].
    + destruct S2 as [A2 O2]. split.
      * rewrite A2, A1, length_app, repeat_app, app_assoc. reflexivity.
      * fold (lastAnalysed inputs). destruct (lastAnalysed inputs) as [c|].
        -- destruct O1 as (a & b & c' & d & e). destruct O2 as (a' & b' & c'' & d' & e').
           unfold Shows. rewrite a', b', c'', d', e'. auto.
        -- destruct O1 as (a & b & c' & d & e). destruct O2 as (a' & b' & c'' & d' & e').
           unfold SameOutputs. rewrite a', b', c'', d', e'. auto.
    + destruct S2 as [A2 O2]. split.
      * rewrite A2, A1, app_nil_r. reflexivity.
      * cbn [hd_error]. exact O2.
Qed.

(** * Which texts the gate rejects *)

(** X10: the gate of [analyzeCode] raises its alert exactly for the
    texts made of white space only, in the sense of the trim of the
    language (blanks, tabs, line breaks, no-break spaces and the other
    Unicode spaces, the byte order mark), the empty text among them;
    every other text is analysed without an alert. *)
Theorem gate_rejects_white_space_only : forall page,
  exists page',
    analyzeCode page = Ok page'
    /\ (Forall (fun c => isWhiteSpace c = true) (code_input page) <->
        alerts page' = alerts page ++ [emptyInputAlert])
    /\ (Exists (fun c => isWhiteSpace c = false) (code_input page) <->
        alerts page' = alerts page /\ output_hidden page' = false).
Proof.
  intros page.
  assert (Hne : forall (l : list jsstring) x, l <> l ++ [x]).
  { intros l x C. apply (f_equal (@length jsstring)) in C.
    rewrite length_app in C. simpl in C. lia. }
  unfold analyzeCode. destruct (trim (code_input page)) as [|c t] eqn:E; cbn [truthy negb].
  - pose proof (proj1 (trim_empty_iff _) E) as HF.
    eexists. split; [reflexivity|]. cbn [alerts output_hidden]. split.
    + split; [reflexivity|intros _; exact HF].
    + split.
      * intros HX. exfalso. apply Exists_exists in HX. destruct HX as (x & Hx & Hw).
        rewrite Forall_forall in HF. rewrite (HF x Hx) in Hw. discriminate Hw.
      * intros [C _]. exfalso. symmetry in C. exact (Hne _ _ C).
  - assert (HX : Exists (fun c => isWhiteSpace c = false) (code_input page)).
    { pose proof (truthy_trim (code_input page)) as Ht. rewrite E in Ht.
      cbn [truthy] in Ht. symmetry in Ht. apply existsb_exists in Ht.
      destruct Ht as (x & Hx & Hw). apply Exists_exists. exists x.
      split; [exact Hx|]. unfold nonSpace in Hw. now destruct (isWhiteSpace x). }
    destruct (generateExplanation_total (code_input page)) as [e ->].
    destruct (generateSuggestion_total (code_input page)) as [s ->].
    destruct (generateDocumentation_total (code_input page)) as [d ->].
    cbn [bind]. eexists. split; [reflexivity|]. cbn [alerts output_hidden]. split.
    + split.
      * intros HF. apply trim_empty_iff in HF. congruence.
      * intros C. exfalso. exact (Hne _ _ C).
    + split; [intros _; split; reflexivity|intros _; exact HX].
Qed.

(** * A signature in the text is found *)

Lemma notParen_run : forall l,
  Forall (fun c => c <> ch ")") l ->
  Forall (fun c => classMatches true [CChar (ch ")")] c = true) l.
Proof.
  intros l F. eapply Forall_impl; [|exact F]. intros c Hc.
  unfold classMatches. cbn [existsb atomMatches].
  apply N.eqb_neq in Hc. rewrite Hc. reflexivity.
Qed.

Lemma keyword_signature_matches : forall kw pre l rest nm ptext,
  IsIdentifier nm ->
  Forall (fun c => c <> ch ")") ptext ->
  KeywordSignature kw nm ptext l ->
  exists q, Matches false (sigPattern kw) (rev pre, l ++ rest) q.
Proof.
  intros kw pre l rest nm ptext (c0 & idrest & -> & Hc0 & Fid) Fp
    (ws1 & ws2 & -> & Hne & F1 & F2).
  repeat (rewrite <- app_assoc; cbn [app]).
  unfold sigPattern. eexists.
  apply Matches_cat_cons. eexists. split; [apply Matches_lit_intro|].
  apply Matches_cat_cons. eexists. split.
  { apply Matches_run_intro; [now apply ws_run|].
    destruct ws1; [congruence|simpl; lia]. }
  apply Matches_cat_cons. eexists. split.
  { cbn [Matches]. apply Matches_ident_intro; assumption. }
  apply Matches_cat_cons. eexists. split.
  { apply Matches_run_intro; [now apply ws_run|lia]. }
  apply Matches_cat_cons. eexists. split; [apply Matches_Char_intro|].
  apply Matches_cat_cons. eexists. split.
  { cbn [Matches]. apply Matches_run_intro; [now apply notParen_run|lia]. }
  apply Matches_cat_cons. eexists. split; [apply Matches_Char_intro|reflexivity].
Qed.

Lemma arrow_signature_matches : forall pre l rest nm ptext,
  IsIdentifier nm ->
  Forall (fun c => c <> ch ")") ptext ->
  ArrowSignature nm ptext l ->
  MatchesAt arrowFuncRegex pre (l ++ rest).
Proof.
  intros pre l rest nm ptext (c0 & idrest & -> & Hc0 & Fid) Fp
    (ws1 & ws2 & ws3 & -> & F1 & F2 & F3).
  repeat (rewrite <- app_assoc; cbn [app]).
  unfold MatchesAt, arrowFuncRegex, source, multiline. eexists.
  apply Matches_cat_cons. eexists. split.
  { cbn [Matches]. apply Matches_ident_intro; assumption. }
  apply Matches_cat_cons. eexists. split.
  { apply Matches_run_intro; [now apply ws_run|lia]. }
  apply Matches_cat_cons. eexists. split; [apply Matches_Char_intro|].
  apply Matches_cat_cons. eexists. split.
  { apply Matches_run_intro; [now apply ws_run|lia]. }
  apply Matches_cat_cons. eexists. split; [apply Matches_Char_intro|].
  apply Matches_cat_cons. eexists. split.
  { cbn [Matches]. apply Matches_run_intro; [now apply notParen_run|lia]. }
  apply Matches_cat_cons. eexists. split; [apply Matches_Char_intro|].
  apply Matches_cat_cons. eexists. split.
  { apply Matches_run_intro; [now apply ws_run|lia]. }
  apply Matches_cat_cons. eexists. split; [apply Matches_lit_intro|reflexivity].
Qed.

(** X11: a text that holds a signature never gets the fallback: when
    a def signature stands anywhere in the text, even inside a longer
    word or a comment, the extractor reports at least one Python
    function; when a function signature or an arrow signature stands
    in it, at least one JavaScript function. *)
Theorem signature_in_text_is_found : forall code pre l rest nm ptext lang,
  code = pre ++ l ++ rest ->
  IsIdentifier nm ->
  Forall (fun c => c <> ch ")") ptext ->
  (KeywordSignature "def" nm ptext l /\ lang = js "Python")
  \/ ((KeywordSignature "function" nm ptext l \/ ArrowSignature nm ptext l)
      /\ lang = js "JavaScript") ->
  exists fs f,
    explainedFunctions code = Ok fs /\ In f fs /\ language f = lang.
Proof.
  intros code pre l rest nm ptext lang Hs Hid Fp Hk.
  destruct (explainedFunctions_scans code) as (A & B & L & HA & HB & HL & HE).
  destruct Hk as [[Hk ->]|[[Hk|Hk] ->]].
  - assert (M : MatchesAt pyFuncRegex pre (l ++ rest))
      by exact (keyword_signature_matches "def" pre l rest nm ptext Hid Fp Hk).
    pose proof (Scan_some_match _ _ _ _ _ HA Hs M) as Hne.
    destruct A as [|a A]; [congruence|].
    eexists. exists (infoOf (js "Python") a). split; [exact HE|].
    split; [now left|reflexivity].
  - assert (M : MatchesAt jsFuncRegex pre (l ++ rest))
      by exact (keyword_signature_matches "function" pre l rest nm ptext Hid Fp Hk).
    pose proof (Scan_some_match _ _ _ _ _ HB Hs M) as Hne.
    destruct B as [|b B]; [congruence|].
    eexists. exists (infoOf (js "JavaScript") b). split; [exact HE|].
    split; [|reflexivity]. apply in_or_app. right. now left.
  - pose proof (arrow_signature_matches pre l rest nm ptext Hid Fp Hk) as M.
    pose proof (Scan_some_match _ _ _ _ _ HL Hs M) as Hne.
    destruct L as [|a' L]; [congruence|].
    eexists. exists (infoOf (js "JavaScript") a'). split; [exact HE|].
    split; [|reflexivity]. apply in_or_app. right. apply in_or_app. right. now left.
Qed.

Lemma signature_in_text_is_found_witness :
  exists fs f,
    explainedFunctions addInput = Ok fs /\ In f fs /\ language f = js "JavaScript".
Proof.
  apply (signature_in_text_is_found addInput [] (js "function add(a, b)")
           (js " { return a + b; }") (js "add") (js "a, b") (js "JavaScript")).
  - vm_compute. reflexivity.
  - exists (ch "a"), (js "dd"). split; [reflexivity|]. split; [reflexivity|].
    vm_compute. repeat (apply Forall_cons; [reflexivity|]). apply Forall_nil.
  - vm_compute. repeat (apply Forall_cons; [intro C; discriminate C|]).
    apply Forall_nil.
  - right. split; [|reflexivity]. left. exists (js " "), [].
    split; [vm_compute; reflexivity|]. split; [vm_compute; intro C; discriminate C|].
    split; [|apply Forall_nil]. vm_compute.
    repeat (apply Forall_cons; [reflexivity|]). apply Forall_nil.
Defined.

(** * One signature at one position *)

Lemma ws_not_identPart : forall c, isWhiteSpace c = true -> identPartChar c = false.
Proof.
  intros c H. destruct (identPartChar c) eqn:E; [|reflexivity].
  apply identPart_range in E. destruct E as [E _].
  apply visible_not_space in E. destruct E as [E _]. congruence.
Qed.

Lemma identStart_not_ws : forall c, identStartChar c = true -> isWhiteSpace c = false.
Proof.
  intros c H. apply identStart_range in H. destruct H as [H _].
  apply visible_not_space. lia.
Qed.

Lemma StartsOff_after_run : forall (f g : N -> bool) w t r,
  (forall c, g c = true -> f c = false) -> f t = false ->
  Forall (fun c => g c = true) w -> StartsOff f (w ++ t :: r).
Proof.
  intros f g [|c w] t r Hg Ht F; simpl; [exact Ht|].
  apply Hg. now apply Forall_inv in F.
Qed.

Lemma notParen_Forall : forall l,
  Forall (fun c => c <> ch ")") l ->
  Forall (fun c => negb (c =? ch ")")%N = true) l.
Proof.
  intros l F. eapply Forall_impl; [|exact F]. intros c Hc. cbv beta.
  apply N.eqb_neq in Hc. now rewrite Hc.
Qed.

Lemma keyword_signature_unique : forall kw nm pt l nm' pt' l' rest rest',
  IsIdentifier nm -> IsIdentifier nm' ->
  Forall (fun c => c <> ch ")") pt -> Forall (fun c => c <> ch ")") pt' ->
  KeywordSignature kw nm pt l -> KeywordSignature kw nm' pt' l' ->
  l ++ rest = l' ++ rest' ->
  nm = nm' /\ pt = pt' /\ l = l'.
Proof.
  intros kw nm pt l nm' pt' l' rest rest'
    (c0 & idr & -> & Hc0 & Fid) (c0' & idr' & -> & Hc0' & Fid') Fp Fp'
    (ws1 & ws2 & -> & _ & F1 & F2) (ws1' & ws2' & -> & _ & F1' & F2') H.
  repeat (rewrite <- app_assoc in H; cbn [app] in H).
  apply app_inv_head in H.
  destruct (run_unique isWhiteSpace _ _ _ _ H F1 F1') as [-> H1];
    [simpl; now apply identStart_not_ws|simpl; now apply identStart_not_ws|].
  injection H1 as -> H2.
  destruct (run_unique identPartChar _ _ _ _ H2 Fid Fid') as [-> H3];
    [apply (StartsOff_after_run _ isWhiteSpace);
       [exact ws_not_identPart|reflexivity|exact F2]
    |apply (StartsOff_after_run _ isWhiteSpace);
       [exact ws_not_identPart|reflexivity|exact F2']|].
  destruct (run_unique isWhiteSpace _ _ _ _ H3 F2 F2') as [-> H4];
    [reflexivity|reflexivity|].
  injection H4 as H5.
  destruct (run_unique (fun c => negb (c =? ch ")")%N) _ _ _ _ H5
              (notParen_Forall _ Fp) (notParen_Forall _ Fp')) as [-> _];
    [reflexivity|reflexivity|].
  auto.
Qed.

Lemma arrow_signature_unique : forall nm pt l nm' pt' l' rest rest',
  IsIdentifier nm -> IsIdentifier nm' ->
  Forall (fun c => c <> ch ")") pt -> Forall (fun c => c <> ch ")") pt' ->
  ArrowSignature nm pt l -> ArrowSignature nm' pt' l' ->
  l ++ rest = l' ++ rest' ->
  nm = nm' /\ pt = pt' /\ l = l'.
Proof.
  intros nm pt l nm' pt' l' rest rest'
    (c0 & idr & -> & Hc0 & Fid) (c0' & idr' & -> & Hc0' & Fid') Fp Fp'
    (ws1 & ws2 & ws3 & -> & F1 & F2 & F3) (ws1' & ws2' & ws3' & -> & F1' & F2' & F3') H.
  repeat (rewrite <- app_assoc in H; cbn [app] in H).
  injection H as -> H2.
  destruct (run_unique identPartChar _ _ _ _ H2 Fid Fid') as [-> H3];
    [apply (StartsOff_after_run _ isWhiteSpace);
       [exact ws_not_identPart|reflexivity|exact F1]
    |apply (StartsOff_after_run _ isWhiteSpace);
       [exact ws_not_identPart|reflexivity|exact F1']|].
  destruct (run_unique isWhiteSpace _ _ _ _ H3 F1 F1') as [-> H4];
    [reflexivity|reflexivity|].
  injection H4 as H5.
  destruct (run_unique isWhiteSpace _ _ _ _ H5 F2 F2') as [-> H6];
    [reflexivity|reflexivity|].
  injection H6 as H7.
  destruct (run_unique (fun c => negb (c =? ch ")")%N) _ _ _ _ H7
              (notParen_Forall _ Fp) (notParen_Forall _ Fp')) as [-> H8];
    [reflexivity|reflexivity|].
  injection H8 as H9.
  destruct (run_unique isWhiteSpace _ _ _ _ H9 F3 F3') as [-> _];
    [reflexivity|reflexivity|].
  auto.
Qed.

Section PassTheory.

Variable sig : jsstring -> jsstring -> jsstring -> Prop.

Hypothesis sig_unique : forall nm pt l nm' pt' l' rest rest',
  IsIdentifier nm -> IsIdentifier nm' ->
  Forall (fun c => c <> ch ")") pt -> Forall (fun c => c <> ch ")") pt' ->
  sig nm pt l -> sig nm' pt' l' ->
  l ++ rest = l' ++ rest' ->
  nm = nm' /\ pt = pt' /\ l = l'.

(** At most one signature starts at a given position. *)
Lemma StandsAt_same_start : forall code o o',
  StandsAt sig code o -> StandsAt sig code o' ->
  occ_start o = occ_start o' -> o = o'.
Proof.
  intros code [i l nm pt] [i' l' nm' pt']
    (pre & rest & Hc & Hl & Hid & Fp & Hs) (pre' & rest' & Hc' & Hl' & Hid' & Fp' & Hs') Hi.
  cbn [occ_start occ_text occ_name occ_params] in *.
  rewrite Hc in Hc'.
  destruct (app_same_length _ _ _ _ Hc') as [_ Ht]; [lia|].
  destruct (sig_unique _ _ _ _ _ _ _ _ Hid Hid' Fp Fp' Hs Hs' Ht) as (-> & -> & ->).
  congruence.
Qed.

(** The pass from a position on is determined by the text. *)
Lemma Pass_unique : forall code i os,
  Pass sig code i os -> forall os', Pass sig code i os' -> os' = os.
Proof.
  intros code i os P. induction P as [i Hno|i o os Ho Hi Hleft P IH]; intros os' P'.
  - destruct P' as [|i o' os' Ho' Hi' _ _]; [reflexivity|].
    exfalso. exact (Hno o' Ho' Hi').
  - destruct P' as [i Hno|i o' os' Ho' Hi' Hleft' P'].
    + exfalso. exact (Hno o Ho Hi).
    + assert (o' = o) as ->.
      { apply (StandsAt_same_start code); [assumption|assumption|].
        pose proof (Hleft o' Ho' Hi'). pose proof (Hleft' o Ho Hi). lia. }
      f_equal. now apply IH.
Qed.

(** The successive matches of the pattern of a pass are the pass. *)
Lemma Scan_Pass : forall re code,
  (forall pre l rest nm pt,
     IsIdentifier nm -> Forall (fun c => c <> ch ")") pt -> sig nm pt l ->
     MatchesAt re pre (l ++ rest)) ->
  forall i ms,
    Scan re code i ms ->
    Forall (fun mr => exists nm pt l,
              item mr 0 = Some l /\ item mr 1 = Some nm /\ item mr 2 = Some pt
              /\ IsIdentifier nm /\ Forall (fun c => c <> ch ")") pt
              /\ sig nm pt l) ms ->
    Pass sig code i (map toOccurrence ms).
Proof.
  intros re code Hsig i ms S.
  induction S as [i Hno|i mr ms Hi Hm Hleft S IH]; intros F; cbn [map].
  - constructor. intros o (pre & rest & Hc & Hl & Hid & Fp & Hs) Ho.
    apply (Hno pre (occ_text o ++ rest) Hc); [lia|]. now apply (Hsig _ _ _ (occ_name o) (occ_params o)).
  - inversion F as [|? ? (nm & pt & l & H0 & H1 & H2 & Hid & Fp & Hs) F']; subst.
    destruct Hm as (pre & l' & rest & Hc & Hidx & Hlast & H0' & _).
    rewrite H0 in H0'. injection H0' as <-.
    assert (Hend : occ_end (toOccurrence mr) = lastIdx mr).
    { unfold occ_end, toOccurrence. cbn [occ_start occ_text]. rewrite H0.
      cbn [toString]. lia. }
    constructor.
    + exists pre, rest. unfold toOccurrence.
      cbn [occ_start occ_text occ_name occ_params]. rewrite H0, H1, H2.
      cbn [toString]. auto.
    + exact Hi.
    + intros o' (pre' & rest' & Hc' & Hl' & Hid' & Fp' & Hs') Ho'.
      unfold toOccurrence. cbn [occ_start].
      destruct (Nat.le_gt_cases (index mr) (occ_start o')) as [Hle|Hlt]; [exact Hle|].
      exfalso. apply (Hleft pre' (occ_text o' ++ rest') Hc'); [lia|].
      now apply (Hsig _ _ _ (occ_name o') (occ_params o')).
    + rewrite Hend. now apply IH.
Qed.

End PassTheory.

(** * The three passes of the extractor *)

(** The loop of a pass, with a property of every match it found. *)
Lemma execWhile_spec_inv : forall re,
  wfRegExp re -> global re = true ->
  forall (T : Type) (body : MatchResult -> result T) (f : MatchResult -> T) s
    (P : MatchResult -> Prop),
  NonEmpty re ->
  (forall mr, IsMatch re s mr -> body mr = Ok (f mr)) ->
  (forall i mr, exec re s i = Some mr -> P mr) ->
  forall fuel i acc,
    i <= length s -> length s < fuel + i ->
    exists ms, execWhile re s body fuel i acc = Ok (acc ++ map f ms)
               /\ Scan re s i ms /\ Forall P ms.
Proof.
  intros re Hwf Hglobal T body f s P Hne Hbody HP.
  induction fuel as [|fuel IH]; intros i acc Hi Hfuel; [lia|]. cbn [execWhile].
  destruct (exec re s i) as [mr|] eqn:E.
  - destruct (exec_some re Hwf Hglobal s i mr E) as (Hge & Hm & Hleft).
    rewrite (Hbody mr Hm). cbn [bind].
    assert (Hlt : index mr < lastIdx mr) by (eapply IsMatch_nonempty; eassumption).
    pose proof (IsMatch_bounds re s mr Hm) as Hb.
    destruct (IH (lastIdx mr) (acc ++ [f mr])) as (ms & Hex & Hsc & HF); [lia|lia|].
    exists (mr :: ms). split; [|split].
    + rewrite Hex. cbn [map]. now rewrite <- app_assoc.
    + now constructor.
    + constructor; [exact (HP i mr E)|exact HF].
  - exists []. split; [cbn [map]; now rewrite app_nil_r|]. split; [|constructor].
    constructor. apply (exec_none re Hwf Hglobal s i E).
Qed.

Lemma infoOf_occurrence : forall kwd lang mr,
  SigMatch kwd mr ->
  infoOf lang mr =
    mkFunctionInfo lang (Some (occ_name (toOccurrence mr)))
      (trim (occ_params (toOccurrence mr))).
Proof.
  intros kwd lang mr (nm & pt & l & _ & H1 & H2 & _).
  unfold infoOf, toOccurrence. cbn [occ_name occ_params]. rewrite H1, H2.
  reflexivity.
Qed.

Lemma map_infoOf_occurrences : forall kwd lang ms,
  Forall (SigMatch kwd) ms ->
  map (infoOf lang) ms =
    map (fun o => mkFunctionInfo lang (Some (occ_name o)) (trim (occ_params o)))
      (map toOccurrence ms).
Proof.
  intros kwd lang ms F. rewrite map_map. apply map_ext_in. intros mr Hin.
  rewrite Forall_forall in F. apply (infoOf_occurrence kwd). now apply F.
Qed.

Lemma Scan_Pass_sig : forall kwd re code ms,
  (forall pre l rest nm pt,
     IsIdentifier nm -> Forall (fun c => c <> ch ")") pt -> sigOf kwd nm pt l ->
     MatchesAt re pre (l ++ rest)) ->
  Scan re code 0 ms -> Forall (SigMatch kwd) ms ->
  Pass (sigOf kwd) code 0 (map toOccurrence ms).
Proof.
  intros kwd re code ms Hsig S F. apply (Scan_Pass (sigOf kwd) re code Hsig 0 ms S).
  eapply Forall_impl; [|exact F].
  intros mr (nm & pt & l & H0 & H1 & H2 & Hid & Fp & Hs).
  exists nm, pt, l. repeat (split; [assumption|]). destruct kwd; exact Hs.
Qed.

(** The array [functions] is the three passes, one after the other. *)
Lemma explainedFunctions_passes : forall code,
  exists A B L,
    Pass (KeywordSignature "def") code 0 A
    /\ Pass (KeywordSignature "function") code 0 B
    /\ Pass ArrowSignature code 0 L
    /\ explainedFunctions code =
         Ok (map (fun o => mkFunctionInfo (js "Python") (Some (occ_name o))
                             (trim (occ_params o))) A
             ++ map (fun o => mkFunctionInfo (js "JavaScript") (Some (occ_name o))
                                (trim (occ_params o))) B
             ++ map (fun o => mkFunctionInfo (js "JavaScript") (Some (occ_name o))
                                (trim (occ_params o))) L).
Proof.
  intros code. unfold explainedFunctions.
  destruct (execWhile_spec_inv pyFuncRegex wf_pyFuncRegex eq_refl _
              (pushed (js "Python")) (infoOf (js "Python")) code
              (SigMatch (Some "def"%string)) nonempty_pyFuncRegex)
    with (fuel := S (length code)) (i := 0) (acc := @nil FunctionInfo)
    as (A & HA & SA & FA);
    [intros mr; apply pushed_ok; simpl; auto
    |intros i mr Hx;
     apply (exec_prop pyFuncRegex (SigMatch (Some "def"%string))) in Hx; [exact Hx|];
     intros bef aft mr'; apply matchAt_sig; reflexivity
    |lia|lia|].
  destruct (execWhile_spec_inv jsFuncRegex wf_jsFuncRegex eq_refl _
              (pushed (js "JavaScript")) (infoOf (js "JavaScript")) code
              (SigMatch (Some "function"%string)) nonempty_jsFuncRegex)
    with (fuel := S (length code)) (i := 0)
         (acc := map (infoOf (js "Python")) A)
    as (B & HB & SB & FB);
    [intros mr; apply pushed_ok; simpl; auto
    |intros i mr Hx;
     apply (exec_prop jsFuncRegex (SigMatch (Some "function"%string))) in Hx;
       [exact Hx|];
     intros bef aft mr'; apply matchAt_sig; reflexivity
    |lia|lia|].
  destruct (execWhile_spec_inv arrowFuncRegex wf_arrowFuncRegex eq_refl _
              (pushed (js "JavaScript")) (infoOf (js "JavaScript")) code
              (SigMatch None) nonempty_arrowFuncRegex)
    with (fuel := S (length code)) (i := 0)
         (acc := map (infoOf (js "Python")) A ++ map (infoOf (js "JavaScript")) B)
    as (L & HL & SL & FL);
    [intros mr; apply pushed_ok; simpl; auto
    |intros i mr Hx;
     apply (exec_prop arrowFuncRegex (SigMatch None)) in Hx; [exact Hx|];
     exact matchAt_arrow
    |lia|lia|].
  exists (map toOccurrence A), (map toOccurrence B), (map toOccurrence L).
  split.
  { apply (Scan_Pass_sig (Some "def"%string) pyFuncRegex); [|exact SA|exact FA].
    intros pre l rest nm pt Hid Fp Hs.
    exact (keyword_signature_matches "def" pre l rest nm pt Hid Fp Hs). }
  split.
  { apply (Scan_Pass_sig (Some "function"%string) jsFuncRegex); [|exact SB|exact FB].
    intros pre l rest nm pt Hid Fp Hs.
    exact (keyword_signature_matches "function" pre l rest nm pt Hid Fp Hs). }
  split.
  { apply (Scan_Pass_sig None arrowFuncRegex); [|exact SL|exact FL].
    intros pre l rest nm pt Hid Fp Hs.
    exact (arrow_signature_matches pre l rest nm pt Hid Fp Hs). }
  rewrite HA. cbn [bind app]. rewrite HB. cbn [bind]. rewrite HL.
  rewrite <- app_assoc.
  rewrite (map_infoOf_occurrences _ _ _ FA), (map_infoOf_occurrences _ _ _ FB),
    (map_infoOf_occurrences _ _ _ FL).
  reflexivity.
Qed.

(** C2: the extractor's array is three passes over the text, one after
    the other: the def signatures from left to right (the first one
    that starts in the text, then the first one that starts after its
    end, and so on), then in the same way the function signatures, then
    the arrow signatures.  Each entry carries the name and the trimmed
    parameter text of its signature, Python entries for the first pass
    and JavaScript entries for the other two.  The text determines the
    three passes, so the array is this concatenation and no other
    order: nothing is merged or sorted by position across passes. *)
Theorem extraction_in_pass_order : forall code,
  exists A B L,
    Pass (KeywordSignature "def") code 0 A
    /\ Pass (KeywordSignature "function") code 0 B
    /\ Pass ArrowSignature code 0 L
    /\ explainedFunctions code =
         Ok (map (fun o => mkFunctionInfo (js "Python") (Some (occ_name o))
                             (trim (occ_params o))) A
             ++ map (fun o => mkFunctionInfo (js "JavaScript") (Some (occ_name o))
                                (trim (occ_params o))) B
             ++ map (fun o => mkFunctionInfo (js "JavaScript") (Some (occ_name o))
                                (trim (occ_params o))) L)
    /\ forall A' B' L',
         Pass (KeywordSignature "def") code 0 A' ->
         Pass (KeywordSignature "function") code 0 B' ->
         Pass ArrowSignature code 0 L' ->
         A' = A /\ B' = B /\ L' = L.
Proof.
  intros code.
  destruct (explainedFunctions_passes code) as (A & B & L & PA & PB & PL & H).
  exists A, B, L.
  split; [exact PA|]. split; [exact PB|]. split; [exact PL|]. split; [exact H|].
  intros A' B' L' PA' PB' PL'. split; [|split].
  - apply (Pass_unique (KeywordSignature "def")) with (code := code) (i := 0);
      [|exact PA|exact PA'].
    intros nm pt l nm' pt' l' rest rest'. apply keyword_signature_unique.
  - apply (Pass_unique (KeywordSignature "function")) with (code := code) (i := 0);
      [|exact PB|exact PB'].
    intros nm pt l nm' pt' l' rest rest'. apply keyword_signature_unique.
  - apply (Pass_unique ArrowSignature) with (code := code) (i := 0);
      [|exact PL|exact PL'].
    exact arrow_signature_unique.
Qed.

(** * The count in the fallback explanation *)

(** C10: when the extractor finds no signature, the explanation is the
    generic message whose number is the decimal numeral of the number
    of lines of the input, split at line feeds with an optional
    carriage return before them, whose trimmed content is not empty. *)
Theorem fallback_explanation_counts_lines : forall code,
  explainedFunctions code = Ok [] ->
  exists digits,
    DecimalOf (length (filter nonBlank (linesOf code))) digits
    /\ generateExplanation code =
         Ok (js "O código possui " ++ digits
               ++ js " linha(s). Considere adicionar funções" ++ [LF]
               ++ js "para organizar melhor a lógica e facilitar a manutenção.").
Proof.
  intros code H.
  exists (numberToString (length (filter nonBlank (linesOf code)))).
  split; [apply numberToString_decimal|].
  unfold generateExplanation. rewrite H. cbn [bind length Nat.eqb].
  rewrite split_lineBreak. reflexivity.
Qed.

Lemma fallback_explanation_counts_lines_witness :
  explainedFunctions threeLineInput = Ok []
  /\ length (filter nonBlank (linesOf threeLineInput)) = 2
  /\ exists digits,
       DecimalOf (length (filter nonBlank (linesOf threeLineInput))) digits
       /\ generateExplanation threeLineInput =
            Ok (js "O código possui " ++ digits
                  ++ js " linha(s). Considere adicionar funções" ++ [LF]
                  ++ js "para organizar melhor a lógica e facilitar a manutenção.").
Proof.
  split; [vm_compute; reflexivity|]. split; [vm_compute; reflexivity|].
  apply (fallback_explanation_counts_lines threeLineInput).
  vm_compute. reflexivity.
Defined.

(** * The bullets of two parameters *)

(** C9: the stub of every discovered signature whose parameter text is
    [a, b] has exactly two parameter bullets, the first naming a and
    the second naming b, between the parameter title and the return
    line, under the header of the function; and this stub is part of
    the documentation. *)
Theorem two_parameter_bullets : forall code fns fn,
  documentedFunctions code = Ok fns ->
  In fn fns ->
  doc_params fn = js "a, b" ->
  exists nm stub,
    doc_name fn = Some nm
    /\ stub =
         [js "### Função `" ++ nm ++ js "()`";
          js "**Descrição:** descreva aqui o que a função faz.";
          js "**Parâmetros:**";
          js "- `a`: descrição do parâmetro.";
          js "- `b`: descrição do parâmetro.";
          js "**Retorno:** descreva aqui o valor retornado pela função.";
          []]
    /\ docStub fn [] = stub
    /\ exists pre post, docLinesOf code = Ok (pre ++ stub ++ post).
Proof.
  intros code fns fn Hd Hin Hp.
  assert (Hn : exists nm, doc_name fn = Some nm).
  { pose proof Hd as Hd'. rewrite documentedFunctions_explained in Hd'.
    destruct (explainedFunctions code) as [fs|e] eqn:E; [|discriminate].
    cbn [bind] in Hd'. inversion Hd'; subst fns.
    apply in_map_iff in Hin. destruct Hin as (f & <- & Hf).
    apply explainedFunctions_found in E. rewrite Forall_forall in E.
    destruct (FoundIn_text code f (E f Hf)) as (_ & _ & _ & nm & _ & _ & Hnm & _).
    exists nm. exact Hnm. }
  destruct Hn as (nm & Hn).
  assert (Hs : docStub fn [] =
               [js "### Função `" ++ nm ++ js "()`";
                js "**Descrição:** descreva aqui o que a função faz.";
                js "**Parâmetros:**";
                js "- `a`: descrição do parâmetro.";
                js "- `b`: descrição do parâmetro.";
                js "**Retorno:** descreva aqui o valor retornado pela função.";
                []]).
  { unfold docStub. rewrite Hp, Hn. vm_compute. reflexivity. }
  exists nm. eexists. split; [exact Hn|]. split; [reflexivity|].
  split; [exact Hs|].
  rewrite (docLinesOf_stubs code fns Hd) by (intros ->; contradiction).
  apply in_split in Hin. destruct Hin as (l1 & l2 & ->).
  rewrite flat_map_app. cbn [flat_map]. rewrite Hs.
  eexists. eexists. reflexivity.
Qed.

Lemma two_parameter_bullets_witness :
  exists nm stub,
    doc_name (mkDocFunction (Some (js "add")) (js "a, b")) = Some nm
    /\ stub =
         [js "### Função `" ++ nm ++ js "()`";
          js "**Descrição:** descreva aqui o que a função faz.";
          js "**Parâmetros:**";
          js "- `a`: descrição do parâmetro.";
          js "- `b`: descrição do parâmetro.";
          js "**Retorno:** descreva aqui o valor retornado pela função.";
          []]
    /\ docStub (mkDocFunction (Some (js "add")) (js "a, b")) [] = stub
    /\ exists pre post, docLinesOf addInput = Ok (pre ++ stub ++ post).
Proof.
  apply (two_parameter_bullets addInput
           [mkDocFunction (Some (js "add")) (js "a, b")]
           (mkDocFunction (Some (js "add")) (js "a, b"))).
  - vm_compute. reflexivity.
  - simpl. left. reflexivity.
  - reflexivity.
Defined.
